(** * cachesim: a set-associative cache simulator (src/cachesim/cachesim.c)

    A shallow embedding of the simulator's geometry resolution, address
    decoding, replacement policies and per-access step, followed by the
    properties of the specification that are settled against it.

    Conventions: a C [int] is a [Z] in [-2^31, 2^31); a [uint32_t] or
    [uint64_t] is a [Z] reduced modulo [2^32] or [2^64] where the C operation
    can wrap.  A computation that can abort, run into undefined behaviour or
    loop forever returns an [outcome]. *)

From Stdlib Require Import ZArith Lia Bool List Ascii String.
From stdpp Require Import base list.
Import ListNotations.
Local Open Scope Z_scope.

(** ** Outcomes of C computations *)

Inductive outcome (A : Type) : Type :=
| Done (a : A)            (* normal return *)
| Fatal (msg : string)    (* [Assert(0, msg)] or [exit(-1)] *)
| Undefined               (* C undefined behaviour *)
| Diverges.               (* a loop that never ends *)
Arguments Done {A} a.
Arguments Fatal {A} msg.
Arguments Undefined {A}.
Arguments Diverges {A}.

Definition bind {A B : Type} (m : outcome A) (k : A -> outcome B) : outcome B :=
  match m with
  | Done a => k a
  | Fatal msg => Fatal msg
  | Undefined => Undefined
  | Diverges => Diverges
  end.

Notation "'do' x <- m ; k" := (bind m (fun x => k))
  (at level 10, x pattern, m at level 100, k at level 200).

(** Modelled from the spec: the [Assert] macro of log.h, which is not part of
    the sources.  Every error is "a hard stop with a diagnostic message": a
    false condition ends the run with the message, a true one continues. *)
Definition Assert (cond : bool) (msg : string) : outcome unit :=
  if cond then Done tt else Fatal msg.

(** ** Machine integers *)

Definition ADDR_WIDTH : Z := 32.

Definition INT_MIN : Z := - 2 ^ 31.
Definition INT_MAX : Z := 2 ^ 31 - 1.
Definition RAND_MAX : Z := 2147483647.

Definition u32 (x : Z) : Z := x mod 2 ^ 32.
Definition u64 (x : Z) : Z := x mod 2 ^ 64.

(** Conversion of an unsigned value to [int] (two's complement). *)
Definition to_int (x : Z) : Z := (x + 2 ^ 31) mod 2 ^ 32 - 2 ^ 31.

(** [~x] on a [uint64_t]. *)
Definition not64 (x : Z) : Z := u64 (Z.lnot x).

(** [x << n] and [x >> n] on a [uint64_t]; a count outside [0, 64) is
    undefined behaviour. *)
Definition shl64 (x n : Z) : outcome Z :=
  if (0 <=? n) && (n <? 64) then Done (u64 (Z.shiftl x n)) else Undefined.

Definition shr64 (x n : Z) : outcome Z :=
  if (0 <=? n) && (n <? 64) then Done (Z.shiftr x n) else Undefined.

(** [x >> n] on a [uint32_t]. *)
Definition shr32 (x n : Z) : outcome Z :=
  if (0 <=? n) && (n <? 32) then Done (Z.shiftr x n) else Undefined.

(** [a / b] on [int]: truncating, undefined for a zero divisor and for
    [INT_MIN / -1]. *)
Definition int_div (a b : Z) : outcome Z :=
  if b =? 0 then Undefined
  else if (a =? INT_MIN) && (b =? -1) then Undefined
  else Done (Z.quot a b).

(** The [LOG2] macro: counts the right shifts needed to clear an [int].  A
    non-negative [int] is cleared by at most 31 shifts.  On a negative one
    the arithmetic shift never reaches zero, so the loop goes on until
    [result++] overflows the [int] counter, which is undefined behaviour:
    running out of the 32 shifts a non-negative [int] can need is
    [Undefined]. *)
Fixpoint LOG2_loop (fuel : nat) (num result : Z) : outcome Z :=
  if num =? 0 then Done result
  else match fuel with
       | O => Undefined
       | S fuel' => LOG2_loop fuel' (Z.shiftr num 1) (result + 1)
       end.

Definition LOG2 (n : Z) : outcome Z := LOG2_loop 32 n (-1).

(** ** Configuration *)

Inductive replacement_policy_t : Type :=
| POLICY_PLRU
| POLICY_FIFO
| POLICY_RANDOM.

Record cache_config_t : Type := mk_config {
  total_size : Z;
  block_size : Z;
  block_num : Z;
  associativity : Z;
  policy : replacement_policy_t;
  set_num : Z;
  bits_for_offset : Z;
  bits_for_index : Z;
  bits_for_tag : Z
}.

(** The configuration as [parse_arguments] leaves it: the three sizes and the
    policy from the command line, the derived fields still zero. *)
Definition parsed_config (ts bs a : Z) (p : replacement_policy_t) : cache_config_t :=
  mk_config ts bs 0 a p 0 0 0 0.

Definition is_pow_2 (n : Z) : bool :=
  (0 <? n) && (Z.land n (u32 (n - 1)) =? 0).

Inductive event : Type :=
| EvUsage                        (* display_usage *)
| EvAllocSets (n : Z)            (* malloc of the array of [n] sets *)
| EvAllocLines (set n : Z)       (* calloc of the [n] lines of a set *)
| EvFreeLines (set : Z)
| EvFreeSets
| EvSeedRandom                   (* srand(time(NULL)) *)
| EvReport.                      (* the configuration banner *)

Definition check_config (c : cache_config_t) : list event * outcome unit :=
  if (associativity c =? 0) || (total_size c =? 0) || (block_size c =? 0)
  then ([EvUsage], Fatal "Missing initialization parameter(s).")
  else
    ([],
     do _ <- Assert (is_pow_2 (u32 (total_size c)))
         "Cache szie must be power of 2 and cache size can not be zero.";
     do _ <- Assert (is_pow_2 (u32 (block_size c)))
         "Block size must be power of 2 and block size can not be zero.";
     do _ <- Assert (is_pow_2 (u32 (associativity c)))
         "Associativity must be power of 2 and associativity can not be zero.";
     do _ <- Assert (negb (block_num c <? associativity c))
         "Associativity must equal or less than block number.";
     Assert (negb (64 <? associativity c))
         "Associativity must less than 64.").

(** Lines 167-172 of [init_cache]: the derived fields. *)
Definition derive_geometry (c : cache_config_t) : outcome cache_config_t :=
  do bn <- int_div (total_size c) (block_size c);
  do sn <- int_div bn (associativity c);
  do off <- LOG2 (block_size c);
  do idx <- LOG2 sn;
  Done (mk_config (total_size c) (block_size c) bn (associativity c) (policy c)
          sn off idx (ADDR_WIDTH - off - idx)).

(** ** The cache store *)

Record cache_line_t : Type := mk_line {
  valid : Z;      (* uint32_t *)
  tag : Z         (* uint64_t *)
}.

Record cache_set_t : Type := mk_set {
  cache_line : list cache_line_t;
  plru_bits : Z;      (* uint64_t *)
  fifo_pointer : Z    (* uint64_t *)
}.

Definition zero_line : cache_line_t := mk_line 0 0.

(** A set as [calloc] and the two assignments of [init_cache] leave it. *)
Definition fresh_set (c : cache_config_t) : cache_set_t :=
  mk_set (replicate (Z.to_nat (associativity c)) zero_line) 0 0.

(** The allocation loop of [init_cache].  [mem k] tells whether the [k]-th
    allocation request of the run succeeds (request 0 is the array of sets,
    request [i + 1] the lines of set [i]). *)
Fixpoint alloc_lines (mem : nat -> bool) (c : cache_config_t) (n : nat) (i : Z)
    (acc : list cache_set_t) (tr : list event)
  : list event * outcome (list cache_set_t) :=
  match n with
  | O => (tr, Done acc)
  | S n' =>
      let tr1 := tr ++ [EvAllocLines i (associativity c)] in
      if mem (S (Z.to_nat i))
      then alloc_lines mem c n' (i + 1) (acc ++ [fresh_set c]) tr1
      else (tr1 ++ map (fun j => EvFreeLines (Z.of_nat j)) (seq 0 (Z.to_nat i))
                ++ [EvFreeSets],
            Fatal "Fail to alloc memory for cache line.")
  end.

Definition init_cache (mem : nat -> bool) (c0 : cache_config_t)
  : list event * outcome (cache_config_t * list cache_set_t) :=
  match derive_geometry c0 with
  | Done c =>
      let tr0 := [EvAllocSets (set_num c)] in
      if mem O then
        match alloc_lines mem c (Z.to_nat (u32 (set_num c))) 0 [] tr0 with
        | (tr1, Done store) =>
            let tr2 := match policy c with
                       | POLICY_RANDOM => tr1 ++ [EvSeedRandom]
                       | _ => tr1
                       end in
            match check_config c with
            | (tr3, Done _) => (tr2 ++ tr3 ++ [EvReport], Done (c, store))
            | (tr3, Fatal msg) => (tr2 ++ tr3, Fatal msg)
            | (tr3, Undefined) => (tr2 ++ tr3, Undefined)
            | (tr3, Diverges) => (tr2 ++ tr3, Diverges)
            end
        | (tr1, Fatal msg) => (tr1, Fatal msg)
        | (tr1, Undefined) => (tr1, Undefined)
        | (tr1, Diverges) => (tr1, Diverges)
        end
      else (tr0, Fatal "Fail to alloc memory for cache.")
  | Fatal msg => ([], Fatal msg)
  | Undefined => ([], Undefined)
  | Diverges => ([], Diverges)
  end.

(** A command-line size: a positive [int]. *)
Definition pos_int (x : Z) : Prop := 0 < x <= INT_MAX.

(** A configuration is valid when its three sizes are positive [int]s, its
    derived fields are the ones [init_cache] computes, and [check_config]
    accepts it. *)
Definition valid_config (c : cache_config_t) : Prop :=
  pos_int (total_size c) /\ pos_int (block_size c) /\
  pos_int (associativity c) /\
  derive_geometry c = Done c /\ snd (check_config c) = Done tt.

(** ** Address decoding *)

(** [BIT_MASK(bits)] is [(1ull << bits) - 1]. *)
Definition BIT_MASK (bits : Z) : outcome Z :=
  do s <- shl64 1 bits;
  Done (u64 (s - 1)).

Definition GET_BITS (a hi lo : Z) : outcome Z :=
  do m <- BIT_MASK (hi + 1);
  shr64 (Z.land a m) lo.

Definition GET_OFFSET (c : cache_config_t) (addr : Z) : outcome Z :=
  GET_BITS addr (bits_for_offset c - 1) 0.

Definition GET_INDEX (c : cache_config_t) (addr : Z) : outcome Z :=
  GET_BITS addr (bits_for_offset c + bits_for_index c - 1) (bits_for_offset c).

Definition GET_TAG (c : cache_config_t) (addr : Z) : outcome Z :=
  GET_BITS addr (ADDR_WIDTH - 1) (bits_for_offset c + bits_for_index c).

(** ** Replacement policies *)

Definition with_plru_bits (s : cache_set_t) (b : Z) : cache_set_t :=
  mk_set (cache_line s) b (fifo_pointer s).

Definition with_fifo_pointer (s : cache_set_t) (p : Z) : cache_set_t :=
  mk_set (cache_line s) (plru_bits s) p.

Definition with_cache_line (s : cache_set_t) (l : list cache_line_t) : cache_set_t :=
  mk_set l (plru_bits s) (fifo_pointer s).

(** The loop of [update_plru_victim_way]; [n] iterations remain, [i] is the
    loop counter and [node] is [current_node_index]. *)
Fixpoint plru_hit_loop (n : nat) (i tree_level bits node hit_way : Z) : outcome Z :=
  match n with
  | O => Done bits
  | S n' =>
      let shift := u32 (tree_level - 1 - i) in
      do d <- shr32 hit_way shift;
      let direction := Z.land d 1 in
      do m <- shl64 1 node;
      let bits' := if negb (direction =? 0) then Z.land bits (not64 m)
                   else Z.lor bits m in
      plru_hit_loop n' (i + 1) tree_level bits'
        (u32 (node * 2 + 1 + direction)) hit_way
  end.

Definition update_plru_victim_way (c : cache_config_t) (s : cache_set_t)
    (hit_way : Z) : outcome cache_set_t :=
  if associativity c =? 1 then Done s
  else
    do l <- LOG2 (associativity c);
    let tree_level := u32 l in
    do bits <- plru_hit_loop (Z.to_nat tree_level) 0 tree_level
                 (plru_bits s) 0 hit_way;
    Done (with_plru_bits s bits).

(** The loop of [find_and_updata_plru_victim_way]. *)
Fixpoint plru_victim_loop (n : nat) (bits node victim_way : Z) : outcome (Z * Z) :=
  match n with
  | O => Done (bits, victim_way)
  | S n' =>
      do sh <- shr64 bits node;
      let bit := Z.land sh 1 in
      do m <- shl64 1 node;
      let bits' := if negb (bit =? 0) then Z.land bits (not64 m)
                   else Z.lor bits m in
      plru_victim_loop n' bits' (u32 (node * 2 + 1 + bit))
        (Z.lor (u64 (Z.shiftl victim_way 1)) bit)
  end.

Definition find_and_updata_plru_victim_way (c : cache_config_t) (s : cache_set_t)
  : outcome (cache_set_t * Z) :=
  if associativity c =? 1 then Done (s, 0)
  else
    do l <- LOG2 (associativity c);
    let tree_level := u32 l in
    do r <- plru_victim_loop (Z.to_nat tree_level) (plru_bits s) 0 0;
    Done (with_plru_bits s (fst r), snd r).

(** [%] on [uint64_t]; the [int] associativity is converted first. *)
Definition find_and_update_fifo_victim_way (c : cache_config_t) (s : cache_set_t)
  : outcome (cache_set_t * Z) :=
  let a := u64 (associativity c) in
  if a =? 0 then Undefined
  else Done (with_fifo_pointer s (u64 (fifo_pointer s + 1) mod a), fifo_pointer s).

(** [rand() % associativity] on [int]; [r] is what [rand()] returned. *)
Definition find_random_victim_way (c : cache_config_t) (r : Z) : outcome Z :=
  if associativity c =? 0 then Undefined
  else Done (Z.rem r (associativity c)).

(** ** One access *)

Record sim_state : Type := mk_state {
  cache : list cache_set_t;
  total_access_times : Z;    (* uint64_t *)
  total_hit_times : Z;       (* uint64_t *)
  rand_calls : nat           (* how many times rand() has been called *)
}.

(** What one access did: a hit in a way, or a miss that evicted a way. *)
Inductive access_result : Type :=
| Hit (way : Z)
| Miss (victim : Z).

(** The lookup loop of [access_cache]: [-1] when no way matches. *)
Fixpoint scan_ways (n : nat) (i : Z) (lines : list cache_line_t) (t : Z)
  : outcome Z :=
  match n with
  | O => Done (-1)
  | S n' =>
      match lines !! Z.to_nat i with
      | None => Undefined
      | Some l =>
          if (t =? tag l) && negb (valid l =? 0) then Done (to_int i)
          else scan_ways n' (i + 1) lines t
      end
  end.

(** [access_cache].  [rnd k] is the value of the [k]-th call of [rand()].
    Besides the new state the model returns the set index and what happened
    there, which the C function leaves implicit. *)
Definition access_cache (rnd : nat -> Z) (c : cache_config_t) (st : sim_state)
    (addr : Z) : outcome (sim_state * (Z * access_result)) :=
  let accesses := u64 (total_access_times st + 1) in
  do index <- GET_INDEX c addr;
  do t <- GET_TAG c addr;
  match cache st !! Z.to_nat index with
  | None => Undefined
  | Some cs =>
      do hit_way <- scan_ways (Z.to_nat (u32 (associativity c))) 0
                      (cache_line cs) t;
      if negb (hit_way =? -1) then
        let hits := u64 (total_hit_times st + 1) in
        do cs' <- match policy c with
                  | POLICY_PLRU => update_plru_victim_way c cs (u32 hit_way)
                  | _ => Done cs
                  end;
        Done (mk_state (<[Z.to_nat index := cs']> (cache st)) accesses hits
                (rand_calls st),
              (index, Hit hit_way))
      else
        do r <- match policy c with
                | POLICY_PLRU =>
                    do r <- find_and_updata_plru_victim_way c cs;
                    Done (fst r, to_int (snd r), rand_calls st)
                | POLICY_FIFO =>
                    do r <- find_and_update_fifo_victim_way c cs;
                    Done (fst r, to_int (snd r), rand_calls st)
                | POLICY_RANDOM =>
                    do v <- find_random_victim_way c (rnd (rand_calls st));
                    Done (cs, to_int (u64 v), S (rand_calls st))
                end;
        let '(cs1, victim_way, calls) := r in
        do _ <- Assert ((0 <=? victim_way) && (victim_way <? associativity c))
                  "Error victim way.";
        match cache_line cs1 !! Z.to_nat victim_way with
        | None => Undefined
        | Some _ =>
            let cs2 := with_cache_line cs1
                         (<[Z.to_nat victim_way := mk_line 1 t]> (cache_line cs1)) in
            Done (mk_state (<[Z.to_nat index := cs2]> (cache st)) accesses
                    (total_hit_times st) calls,
                  (index, Miss victim_way))
        end
  end.

(** The loop of [sim_cache] over the addresses read from the trace. *)
Fixpoint sim_cache (rnd : nat -> Z) (c : cache_config_t) (st : sim_state)
    (addrs : list Z) : outcome (sim_state * list (Z * access_result)) :=
  match addrs with
  | [] => Done (st, [])
  | a :: rest =>
      do r <- access_cache rnd c st a;
      do r' <- sim_cache rnd c (fst r) rest;
      Done (fst r', snd r :: snd r')
  end.

Definition initial_state (store : list cache_set_t) : sim_state :=
  mk_state store 0 0 O.

Definition all_ok : nat -> bool := fun _ => true.
Definition no_rand : nat -> Z := fun _ => 0.

(** ** The PLRU tree as the specification words it

    These two definitions follow the prose of the specification, not the C
    loops; the theorems below compare them with the loops. *)

Definition flip_bit (s node : Z) : Z := Z.lxor s (2 ^ node).

Definition set_bit_to (s node : Z) (b : bool) : Z :=
  if b then Z.setbit s node else Z.clearbit s node.

(** Read the node's bit, flip it, descend to child [2*i + 1 + bit]; the bits
    read are collected in the order they are read. *)
Fixpoint spec_victim_walk (levels : nat) (s node : Z) : Z * list bool :=
  match levels with
  | O => (s, [])
  | S n =>
      let b := Z.testbit s node in
      let r := spec_victim_walk n (flip_bit s node) (2 * node + 1 + Z.b2z b) in
      (fst r, b :: snd r)
  end.

(** The number whose binary digits, most significant first, are [bs]. *)
Definition msb_first (bs : list bool) : Z :=
  fold_left (fun acc b => 2 * acc + Z.b2z b) bs 0.

Definition spec_select_victim (assoc s : Z) : Z * Z :=
  if assoc =? 1 then (s, 0)
  else
    let r := spec_victim_walk (Z.to_nat (Z.log2 assoc)) s 0 in
    (fst r, msb_first (snd r)).

(** The [levels] low bits of [w], most significant first. *)
Definition decision_bits (levels : nat) (w : Z) : list bool :=
  map (fun k => Z.testbit w (Z.of_nat k)) (rev (seq 0 levels)).

Fixpoint spec_hit_walk (dirs : list bool) (s node : Z) : Z :=
  match dirs with
  | [] => s
  | d :: ds => spec_hit_walk ds (set_bit_to s node (negb d)) (2 * node + 1 + Z.b2z d)
  end.

Definition spec_on_hit (assoc s w : Z) : Z :=
  if assoc =? 1 then s
  else spec_hit_walk (decision_bits (Z.to_nat (Z.log2 assoc)) w) s 0.

(** ** Well-formed stores *)

Definition wf_set (c : cache_config_t) (s : cache_set_t) : Prop :=
  length (cache_line s) = Z.to_nat (associativity c) /\
  0 <= fifo_pointer s < associativity c /\
  0 <= plru_bits s < 2 ^ 64.

Definition wf_state (c : cache_config_t) (st : sim_state) : Prop :=
  length (cache st) = Z.to_nat (set_num c) /\
  Forall (wf_set c) (cache st).

(** [rand()] returns a value in [0, RAND_MAX]. *)
Definition rand_ok (rnd : nat -> Z) : Prop :=
  forall k, 0 <= rnd k <= RAND_MAX.

(** The victims of the misses that fell into set [s], in order. *)
Fixpoint victims_of (s : Z) (evs : list (Z * access_result)) : list Z :=
  match evs with
  | [] => []
  | (i, Miss v) :: rest =>
      if i =? s then v :: victims_of s rest else victims_of s rest
  | (_, Hit _) :: rest => victims_of s rest
  end.

Definition is_hit (r : access_result) : bool :=
  match r with Hit _ => true | Miss _ => false end.


(** The two operations of the replacement engine, as [access_cache]
    dispatches them on the configured policy.  [r] is the value [rand()]
    returns if it is called. *)
Definition on_hit (c : cache_config_t) (cs : cache_set_t) (way : Z)
  : outcome cache_set_t :=
  match policy c with
  | POLICY_PLRU => update_plru_victim_way c cs way
  | _ => Done cs
  end.

Definition select_victim (c : cache_config_t) (r : Z) (cs : cache_set_t)
  : outcome (cache_set_t * Z) :=
  match policy c with
  | POLICY_PLRU => find_and_updata_plru_victim_way c cs
  | POLICY_FIFO => find_and_update_fifo_victim_way c cs
  | POLICY_RANDOM => do v <- find_random_victim_way c r; Done (cs, v)
  end.

(** The test of the lookup loop: same tag and a non-zero valid flag. *)
Definition line_matches (t : Z) (l : cache_line_t) : bool :=
  (t =? tag l) && negb (valid l =? 0).

(** The word the specification rebuilds from the three decoded fields:
    [(tag << (bits_for_offset + bits_for_index)) | (index << bits_for_offset)
    | offset].  It follows the specification; the C code never rebuilds an
    address. *)
Definition reconstruct (c : cache_config_t) (offset index t : Z) : Z :=
  Z.lor (Z.lor (Z.shiftl t (bits_for_offset c + bits_for_index c))
               (Z.shiftl index (bits_for_offset c)))
        offset.

(** The FIFO pointer of set [s], for stating how a run moves it. *)
Definition fifo_of (st : sim_state) (s : Z) : Z :=
  from_option fifo_pointer 0 (cache st !! Z.to_nat s).

(** Sample configurations: 16 bytes in 4-byte blocks, one 4-way PLRU set;
    8 bytes in 4-byte blocks, one 2-way FIFO set; 16 bytes in 4-byte blocks,
    direct mapped. *)
Definition cfg_plru4 : cache_config_t := mk_config 16 4 4 4 POLICY_PLRU 1 2 0 30.
Definition cfg_fifo2 : cache_config_t := mk_config 8 4 2 2 POLICY_FIFO 1 2 0 30.
Definition cfg_direct : cache_config_t := mk_config 16 4 4 1 POLICY_RANDOM 4 2 2 28.

Definition fresh_state (c : cache_config_t) : sim_state :=
  initial_state (replicate (Z.to_nat (set_num c)) (fresh_set c)).

Ltac valid_by_computation :=
  unfold valid_config, pos_int, INT_MAX; simpl;
  repeat split; try lia; reflexivity.

Ltac wf_by_computation :=
  split; [reflexivity|];
  repeat constructor; simpl; lia.

(** Every valid configuration is determined by three exponents. *)
Definition geometry (a b k : Z) (p : replacement_policy_t) : cache_config_t :=
  mk_config (2 ^ a) (2 ^ b) (2 ^ (a - b)) (2 ^ k) p (2 ^ (a - b - k))
    b (a - b - k) (ADDR_WIDTH - b - (a - b - k)).

(** A whole run: [init_cache] with every allocation succeeding, then
    [sim_cache] over the trace; the result is the two counters and what each
    access did. *)
Definition run (c0 : cache_config_t) (addrs : list Z)
  : outcome (Z * Z * list (Z * access_result)) :=
  do r <- snd (init_cache all_ok c0);
  do r' <- sim_cache no_rand (fst r) (initial_state (snd r)) addrs;
  Done (total_access_times (fst r'), total_hit_times (fst r'), snd r').

(** ** The rest of the program *)

(** No two valid lines of a set hold the same tag. *)
Definition distinct_tags (cs : cache_set_t) : Prop :=
  forall (i j : nat) (l l' : cache_line_t),
    cache_line cs !! i = Some l -> cache_line cs !! j = Some l' ->
    valid l <> 0 -> valid l' <> 0 -> tag l = tag l' -> i = j.

(** What [display_statistics] prints: the two counters, the misses as the
    [uint64_t] difference, and whether a hit rate is printed at all.  The
    rate itself is a [double] and is left out. *)
Record statistics : Type := mk_statistics {
  stat_accesses : Z;
  stat_hits : Z;
  stat_misses : Z;
  stat_has_rate : bool
}.

Definition display_statistics (st : sim_state) : statistics :=
  mk_statistics (total_access_times st) (total_hit_times st)
    (u64 (total_access_times st - total_hit_times st))
    (0 <? total_access_times st).

(** [cleanup_memory] on the store [init_cache] built ([None] is the null
    pointer): the lines of every set below [set_num], then the array. *)
Definition cleanup_memory (c : cache_config_t) (store : option (list cache_set_t))
  : list event :=
  match store with
  | None => []
  | Some _ =>
      map (fun i => EvFreeLines (Z.of_nat i)) (seq 0 (Z.to_nat (u32 (set_num c))))
        ++ [EvFreeSets]
  end.

Definition count_hits (evs : list (Z * access_result)) : Z :=
  Z.of_nat (length (filter (fun e => is_hit (snd e) = true) evs)).

Definition count_misses (evs : list (Z * access_result)) : Z :=
  Z.of_nat (length (filter (fun e => is_hit (snd e) = false) evs)).

(** ** The PLRU bits as a tree

    The nodes a walk of [n] levels from [node] can visit, the tree of bits
    they hold, and the victim walk on that tree; used to follow several
    victim selections in a row. *)

Fixpoint in_subtree (n : nat) (node j : Z) : bool :=
  match n with
  | O => false
  | S n' =>
      (j =? node) || in_subtree n' (2 * node + 1) j
                  || in_subtree n' (2 * node + 2) j
  end.

Inductive plru_tree : Type :=
| PLeaf
| PNode (b : bool) (l r : plru_tree).

Fixpoint tree_of (n : nat) (s node : Z) : plru_tree :=
  match n with
  | O => PLeaf
  | S n' =>
      PNode (Z.testbit s node) (tree_of n' s (2 * node + 1))
            (tree_of n' s (2 * node + 2))
  end.

Fixpoint tree_walk (t : plru_tree) : plru_tree * list bool :=
  match t with
  | PLeaf => (PLeaf, [])
  | PNode b l r =>
      if b then (PNode false l (fst (tree_walk r)), true :: snd (tree_walk r))
      else (PNode true (fst (tree_walk l)) r, false :: snd (tree_walk l))
  end.

Fixpoint tree_iter (m : nat) (t : plru_tree) : plru_tree * list (list bool) :=
  match m with
  | O => (t, [])
  | S m' =>
      let r := tree_walk t in
      let r' := tree_iter m' (fst r) in
      (fst r', snd r :: snd r')
  end.

Fixpoint spec_iter (n m : nat) (s : Z) : Z * list (list bool) :=
  match m with
  | O => (s, [])
  | S m' =>
      let r := spec_victim_walk n s 0 in
      let r' := spec_iter n m' (fst r) in
      (fst r', snd r :: snd r')
  end.

Fixpoint all_paths (n : nat) : list (list bool) :=
  match n with
  | O => [[]]
  | S n' => map (cons false) (all_paths n') ++ map (cons true) (all_paths n')
  end.

(** [m] victim selections in a row on one set, with no hit in between: the
    set after the last one and the ways selected, in order. *)
Fixpoint plru_misses (m : nat) (c : cache_config_t) (s : cache_set_t)
  : outcome (cache_set_t * list Z) :=
  match m with
  | O => Done (s, [])
  | S m' =>
      do r <- find_and_updata_plru_victim_way c s;
      do r' <- plru_misses m' c (fst r);
      Done (fst r', snd r :: snd r')
  end.

(** ** Command line

    [parse_arguments] over what [getopt] hands to the loop, one pair of
    option character and argument per iteration ([?] for whatever [getopt]
    rejects).  [atoi] is the C library's and is taken as given. *)

Inductive parse_result : Type :=
| Parsed (c : cache_config_t) (trace_file : option string)
| ExitHelp                       (* display_usage, exit(0) *)
| ParseFatal (msg : string).     (* Assert(0, msg) *)

(** [config] and [trace_file] as static storage starts them: all zero, which
    for the policy is [POLICY_PLRU], and the null pointer. *)
Definition static_config : cache_config_t :=
  mk_config 0 0 0 0 POLICY_PLRU 0 0 0 0.

Definition with_total_size (c : cache_config_t) (v : Z) : cache_config_t :=
  mk_config v (block_size c) (block_num c) (associativity c) (policy c)
    (set_num c) (bits_for_offset c) (bits_for_index c) (bits_for_tag c).

Definition with_block_size (c : cache_config_t) (v : Z) : cache_config_t :=
  mk_config (total_size c) v (block_num c) (associativity c) (policy c)
    (set_num c) (bits_for_offset c) (bits_for_index c) (bits_for_tag c).

Definition with_associativity (c : cache_config_t) (v : Z) : cache_config_t :=
  mk_config (total_size c) (block_size c) (block_num c) v (policy c)
    (set_num c) (bits_for_offset c) (bits_for_index c) (bits_for_tag c).

Definition with_policy (c : cache_config_t) (p : replacement_policy_t)
  : cache_config_t :=
  mk_config (total_size c) (block_size c) (block_num c) (associativity c) p
    (set_num c) (bits_for_offset c) (bits_for_index c) (bits_for_tag c).

Fixpoint parse_arguments (atoi : string -> Z) (opts : list (ascii * string))
    (c : cache_config_t) (tf : option string) : parse_result :=
  match opts with
  | [] => Parsed c tf
  | (opt, optarg) :: rest =>
      if Ascii.eqb opt "s" then
        parse_arguments atoi rest (with_total_size c (atoi optarg)) tf
      else if Ascii.eqb opt "b" then
        parse_arguments atoi rest (with_block_size c (atoi optarg)) tf
      else if Ascii.eqb opt "a" then
        parse_arguments atoi rest (with_associativity c (atoi optarg)) tf
      else if Ascii.eqb opt "p" then
        if String.eqb optarg "FIFO" then
          parse_arguments atoi rest (with_policy c POLICY_FIFO) tf
        else if String.eqb optarg "PLRU" then
          parse_arguments atoi rest (with_policy c POLICY_PLRU) tf
        else if String.eqb optarg "RANDOM" then
          parse_arguments atoi rest (with_policy c POLICY_RANDOM) tf
        else ParseFatal "Invalid replacement policy."
      else if Ascii.eqb opt "t" then
        parse_arguments atoi rest c (Some optarg)
      else if Ascii.eqb opt "h" then ExitHelp
      else ParseFatal "Unknown argument(s)!"
  end.

(** The argument of the last occurrence of option [o]. *)
Fixpoint last_arg (o : ascii) (opts : list (ascii * string)) : option string :=
  match opts with
  | [] => None
  | (opt, optarg) :: rest =>
      match last_arg o rest with
      | Some a => Some a
      | None => if Ascii.eqb opt o then Some optarg else None
      end
  end.

Definition policy_of_name (name : string) : option replacement_policy_t :=
  if String.eqb name "FIFO" then Some POLICY_FIFO
  else if String.eqb name "PLRU" then Some POLICY_PLRU
  else if String.eqb name "RANDOM" then Some POLICY_RANDOM
  else None.

(** What a trace of events requests from the allocator and gives back:
    [None] is the array of sets, [Some i] the lines of set [i]. *)
Fixpoint allocated (tr : list event) : list (option Z) :=
  match tr with
  | [] => []
  | EvAllocSets _ :: rest => None :: allocated rest
  | EvAllocLines i _ :: rest => Some i :: allocated rest
  | _ :: rest => allocated rest
  end.

Fixpoint freed (tr : list event) : list (option Z) :=
  match tr with
  | [] => []
  | EvFreeSets :: rest => None :: freed rest
  | EvFreeLines i :: rest => Some i :: freed rest
  | _ :: rest => freed rest
  end.

Ltac parse_step H :=
  repeat match type of H with
         | context [Ascii.eqb ?o ?x] =>
             let E := fresh "E" in
             destruct (Ascii.eqb o x) eqn:E;
             [apply Ascii.eqb_eq in E; subst o|]
         | context [String.eqb ?a ?x] =>
             let E := fresh "E" in destruct (String.eqb a x) eqn:E
         end.

(** ** Blocks and what a store holds of a trace *)

(** Two addresses of the same block: same decoded index and tag. *)
Definition same_block (c : cache_config_t) (a a' : Z) : Prop :=
  GET_INDEX c a' = GET_INDEX c a /\ GET_TAG c a' = GET_TAG c a.

(** Every valid line of the store holds the block of an address of [seen]. *)
Definition lines_from (c : cache_config_t) (st : sim_state) (seen : list Z)
  : Prop :=
  forall (i : nat) (cs : cache_set_t) (l : cache_line_t),
    cache st !! i = Some cs -> l ∈ cache_line cs -> valid l <> 0 ->
    exists a, a ∈ seen /\ GET_INDEX c a = Done (Z.of_nat i) /\
              GET_TAG c a = Done (tag l).

(** * Properties *)

(** ** Machine arithmetic *)

Lemma pow2_pos (n : Z) : 0 <= n -> 0 < 2 ^ n.
Proof. intros; apply Z.pow_pos_nonneg; lia. Qed.

Lemma pow2_le (n m : Z) : 0 <= n <= m -> 2 ^ n <= 2 ^ m.
Proof. intros; apply Z.pow_le_mono_r; lia. Qed.

Lemma pow2_lt (n m : Z) : 0 <= n < m -> 2 ^ n < 2 ^ m.
Proof. intros; apply Z.pow_lt_mono_r; lia. Qed.

Lemma u32_small (x : Z) : 0 <= x < 2 ^ 32 -> u32 x = x.
Proof. intros; unfold u32; apply Z.mod_small; lia. Qed.

Lemma u64_small (x : Z) : 0 <= x < 2 ^ 64 -> u64 x = x.
Proof. intros; unfold u64; apply Z.mod_small; lia. Qed.

Lemma to_int_small (x : Z) : 0 <= x < 2 ^ 31 -> to_int x = x.
Proof. intros; unfold to_int; rewrite Z.mod_small; lia. Qed.

Lemma LOG2_loop_eq (fuel : nat) (num r : Z) :
  LOG2_loop fuel num r =
  if num =? 0 then Done r
  else match fuel with
       | O => Undefined
       | S fuel' => LOG2_loop fuel' (Z.shiftr num 1) (r + 1)
       end.
Proof. destruct fuel; reflexivity. Qed.

Lemma LOG2_loop_pow2 (k : nat) : forall (fuel : nat) (r : Z),
  (k < fuel)%nat ->
  LOG2_loop fuel (2 ^ Z.of_nat k) r = Done (r + Z.of_nat k + 1).
Proof.
  induction k as [|k IH]; intros fuel r Hk; rewrite LOG2_loop_eq.
  - destruct fuel as [|fuel]; [lia|].
    change (2 ^ Z.of_nat 0) with 1. simpl (1 =? 0).
    cbv iota. change (Z.shiftr 1 1) with 0.
    rewrite LOG2_loop_eq. simpl. f_equal. lia.
  - destruct fuel as [|fuel]; [lia|].
    assert (Hp : 0 < 2 ^ Z.of_nat (S k)) by (apply pow2_pos; lia).
    destruct (Z.eqb_spec (2 ^ Z.of_nat (S k)) 0) as [E|_]; [lia|].
    rewrite Z.shiftr_div_pow2 by lia.
    replace (2 ^ Z.of_nat (S k) / 2 ^ 1) with (2 ^ Z.of_nat k).
    + rewrite IH by lia. f_equal. lia.
    + rewrite Nat2Z.inj_succ, Z.pow_succ_r by lia.
      change (2 ^ 1) with 2. rewrite Z.mul_comm, Z.div_mul; lia.
Qed.

Lemma LOG2_pow2 (k : Z) : 0 <= k <= 31 -> LOG2 (2 ^ k) = Done k.
Proof.
  intros Hk. unfold LOG2.
  rewrite <- (Z2Nat.id k) at 1 by lia.
  rewrite LOG2_loop_pow2 by lia.
  f_equal. lia.
Qed.

(** The fuel of [LOG2] is enough for every non-negative [int]; on a negative
    one the shifted value stays negative, so no amount of fuel ends the loop
    before the counter overflows. *)
Lemma LOG2_loop_nonneg (fuel : nat) : forall num r,
  0 <= num < 2 ^ Z.of_nat fuel -> exists q, LOG2_loop fuel num r = Done q.
Proof.
  induction fuel as [|fuel IH]; intros num r Hn; rewrite LOG2_loop_eq.
  - change (2 ^ Z.of_nat 0) with 1 in Hn.
    replace num with 0 by lia. simpl. eauto.
  - destruct (Z.eqb_spec num 0); [eauto|].
    apply IH. rewrite Z.shiftr_div_pow2 by lia. change (2 ^ 1) with 2.
    rewrite Nat2Z.inj_succ, Z.pow_succ_r in Hn by lia.
    split; [apply Z.div_pos; lia|].
    apply Z.div_lt_upper_bound; lia.
Qed.

Lemma LOG2_nonneg (n : Z) : 0 <= n <= INT_MAX -> exists q, LOG2 n = Done q.
Proof.
  unfold INT_MAX. intros Hn. apply LOG2_loop_nonneg.
  change (Z.of_nat 32) with 32. lia.
Qed.

Lemma LOG2_loop_negative (fuel : nat) : forall num r,
  num < 0 -> LOG2_loop fuel num r = Undefined.
Proof.
  induction fuel as [|fuel IH]; intros num r Hn; rewrite LOG2_loop_eq;
    (destruct (Z.eqb_spec num 0); [lia|]).
  - reflexivity.
  - apply IH. apply Z.shiftr_neg. exact Hn.
Qed.

(** [n & (n - 1) == 0] characterises the powers of two. *)
Lemma is_pow_2_inv (n : Z) :
  0 <= n < 2 ^ 32 -> is_pow_2 n = true -> exists k, 0 <= k < 32 /\ n = 2 ^ k.
Proof.
  intros Hn H. unfold is_pow_2 in H.
  apply andb_true_iff in H as [Hpos Hland].
  apply Z.ltb_lt in Hpos. apply Z.eqb_eq in Hland.
  rewrite u32_small in Hland by lia.
  pose proof (Z.log2_spec n Hpos) as [Hlo Hhi].
  pose proof (Z.log2_nonneg n) as Hk.
  exists (Z.log2 n). split.
  - split; [lia|].
    apply Z.log2_lt_pow2; lia.
  - destruct (Z.eq_dec n (2 ^ Z.log2 n)) as [E|NE]; [exact E|exfalso].
    assert (Hlog : Z.log2 (n - 1) = Z.log2 n).
    { apply Z.log2_unique; lia. }
    assert (Hb : Z.testbit (Z.land n (n - 1)) (Z.log2 n) = true).
    { rewrite Z.land_spec, Z.bit_log2 by lia.
      rewrite <- Hlog. rewrite Z.bit_log2 by lia. reflexivity. }
    rewrite Hland, Z.bits_0 in Hb. discriminate.
Qed.

Lemma pow2_quot (a b : Z) :
  0 <= b <= a -> Z.quot (2 ^ a) (2 ^ b) = 2 ^ (a - b).
Proof.
  intros H. pose proof (pow2_pos a) as Ha. pose proof (pow2_pos b) as Hb.
  rewrite Z.quot_div_nonneg by lia.
  replace a with ((a - b) + b) at 1 by lia.
  rewrite Z.pow_add_r by lia.
  apply Z.div_mul. lia.
Qed.

Lemma bind_done {A B : Type} (m : outcome A) (k : A -> outcome B) (b : B) :
  bind m k = Done b -> exists a, m = Done a /\ k a = Done b.
Proof. destruct m; simpl; intros H; try discriminate. eauto. Qed.

Lemma Assert_done (cond : bool) (msg : string) (u : unit) :
  Assert cond msg = Done u -> cond = true.
Proof. unfold Assert. destruct cond; [reflexivity|discriminate]. Qed.

Lemma int_div_done (a b q : Z) :
  int_div a b = Done q -> b <> 0 /\ q = Z.quot a b.
Proof.
  unfold int_div. destruct (Z.eqb_spec b 0); [discriminate|].
  destruct (_ && _); [discriminate|].
  intros H; inversion H; auto.
Qed.

(** A positive [int] accepted by [is_pow_2] is [2 ^ k] with [k <= 30]. *)
Lemma pos_int_pow2 (x : Z) :
  pos_int x -> is_pow_2 (u32 x) = true ->
  exists k, 0 <= k <= 30 /\ x = 2 ^ k.
Proof.
  unfold pos_int, INT_MAX. intros Hp H.
  rewrite u32_small in H by lia.
  destruct (is_pow_2_inv x) as (k & Hk & E); [lia|exact H|].
  exists k. split; [|exact E].
  split; [lia|].
  destruct (Z_le_gt_dec k 30) as [|Hgt]; [lia|].
  assert (2 ^ 31 <= 2 ^ k) by (apply pow2_le; lia). lia.
Qed.

(** ** Geometry of a valid configuration *)

Lemma valid_geometry (c : cache_config_t) :
  valid_config c ->
  exists a b k, 0 <= b /\ 0 <= k <= 6 /\ b + k <= a <= 30 /\
                c = geometry a b k (policy c).
Proof.
  intros (Hts & Hbs & Has & Hd & Hc).
  unfold check_config in Hc.
  destruct (_ || _); [discriminate|]. simpl in Hc.
  apply bind_done in Hc as ([] & H1 & Hc). apply Assert_done in H1.
  apply bind_done in Hc as ([] & H2 & Hc). apply Assert_done in H2.
  apply bind_done in Hc as ([] & H3 & Hc). apply Assert_done in H3.
  apply bind_done in Hc as ([] & H4 & H5).
  apply Assert_done in H4. apply Assert_done in H5.
  apply negb_true_iff, Z.ltb_ge in H4. apply negb_true_iff, Z.ltb_ge in H5.
  destruct (pos_int_pow2 _ Hts H1) as (a & Ha & Ea).
  destruct (pos_int_pow2 _ Hbs H2) as (b & Hb & Eb).
  destruct (pos_int_pow2 _ Has H3) as (k & Hk & Ek).
  unfold derive_geometry in Hd.
  apply bind_done in Hd as (bn & Hbn & Hd). apply int_div_done in Hbn as [_ Hbn].
  apply bind_done in Hd as (sn & Hsn & Hd). apply int_div_done in Hsn as [_ Hsn].
  apply bind_done in Hd as (off & Hoff & Hd).
  apply bind_done in Hd as (idx & Hidx & Hd).
  injection Hd as Hd.
  assert (Hbnc : block_num c = bn) by (rewrite <- Hd; reflexivity).
  rewrite Hbnc in H4.
  assert (Hk6 : k <= 6).
  { destruct (Z_le_gt_dec k 6) as [|Hgt]; [lia|].
    assert (2 ^ 7 <= 2 ^ k) by (apply pow2_le; lia). lia. }
  assert (Hab : b <= a).
  { destruct (Z_le_gt_dec b a) as [|Hgt]; [lia|exfalso].
    assert (Hlt : 2 ^ a < 2 ^ b) by (apply pow2_lt; lia).
    pose proof (pow2_pos a) as Hpa.
    rewrite Ea, Eb, Z.quot_small in Hbn by lia. lia. }
  rewrite Ea, Eb, pow2_quot in Hbn by lia.
  assert (Hka : k <= a - b).
  { destruct (Z_le_gt_dec k (a - b)) as [|Hgt]; [lia|exfalso].
    assert (Hlt : 2 ^ (a - b) < 2 ^ k) by (apply pow2_lt; lia). lia. }
  rewrite Hbn, Ek, pow2_quot in Hsn by lia.
  rewrite Eb, LOG2_pow2 in Hoff by lia. inversion Hoff; subst off.
  rewrite Hsn, LOG2_pow2 in Hidx by lia. inversion Hidx; subst idx.
  exists a, b, k. repeat split; try lia.
  destruct c; simpl in *. injection Hd; intros.
  unfold geometry. f_equal; lia.
Qed.

(** Conversely each such triple of exponents is a valid configuration. *)
Lemma geometry_valid (a b k : Z) (p : replacement_policy_t) :
  0 <= b -> 0 <= k <= 6 -> b + k <= a <= 30 ->
  valid_config (geometry a b k p).
Proof.
  intros Hb Hk Ha.
  pose proof (pow2_pos a) as Pa. pose proof (pow2_pos b) as Pb.
  pose proof (pow2_pos k) as Pk.
  assert (La : 2 ^ a < 2 ^ 31) by (apply pow2_lt; lia).
  assert (Lb : 2 ^ b < 2 ^ 31) by (apply pow2_lt; lia).
  assert (Lk : 2 ^ k <= 2 ^ 6) by (apply pow2_le; lia).
  unfold valid_config, pos_int, INT_MAX; simpl.
  repeat split; try lia.
  - unfold derive_geometry, geometry, int_div; simpl.
    destruct (Z.eqb_spec (2 ^ b) 0); [lia|].
    replace (2 ^ a =? INT_MIN) with false
      by (symmetry; apply Z.eqb_neq; unfold INT_MIN; lia).
    simpl. rewrite pow2_quot by lia.
    destruct (Z.eqb_spec (2 ^ k) 0); [lia|].
    replace (2 ^ (a - b) =? INT_MIN) with false
      by (symmetry; apply Z.eqb_neq; unfold INT_MIN;
          pose proof (pow2_pos (a - b)); lia).
    simpl. rewrite pow2_quot by lia.
    rewrite !LOG2_pow2 by lia. reflexivity.
  - unfold check_config, geometry; simpl.
    destruct (Z.eqb_spec (2 ^ k) 0); [lia|].
    destruct (Z.eqb_spec (2 ^ a) 0); [lia|].
    destruct (Z.eqb_spec (2 ^ b) 0); [lia|]. simpl.
    assert (Hp2 : forall e, 0 <= e <= 30 -> is_pow_2 (u32 (2 ^ e)) = true).
    { intros e He. pose proof (pow2_pos e).
      assert (2 ^ e < 2 ^ 31) by (apply pow2_lt; lia).
      rewrite u32_small by lia. unfold is_pow_2.
      rewrite u32_small by lia.
      apply andb_true_iff. split; [apply Z.ltb_lt; lia|].
      apply Z.eqb_eq.
      replace (2 ^ e - 1) with (Z.ones e) by (rewrite Z.ones_equiv; lia).
      apply Z.bits_inj'. intros i Hi.
      rewrite Z.land_spec, Z.bits_0, Z.pow2_bits_eqb by lia.
      destruct (Z.eqb_spec e i); [subst; rewrite Z.ones_spec_high by lia|];
        reflexivity. }
    rewrite !Hp2 by lia. simpl.
    assert (2 ^ k <= 2 ^ (a - b)) by (apply pow2_le; lia).
    replace (2 ^ (a - b) <? 2 ^ k) with false by (symmetry; apply Z.ltb_ge; lia).
    replace (64 <? 2 ^ k) with false by (symmetry; apply Z.ltb_ge; lia).
    reflexivity.
Qed.

(** ** Address decoding *)

Lemma BIT_MASK_ones (n : Z) : 0 <= n < 64 -> BIT_MASK n = Done (Z.ones n).
Proof.
  intros Hn. unfold BIT_MASK, shl64.
  replace ((0 <=? n) && (n <? 64)) with true
    by (symmetry; apply andb_true_iff; split; [apply Z.leb_le|apply Z.ltb_lt]; lia).
  simpl. rewrite Z.shiftl_1_l.
  pose proof (pow2_pos n) as Hp.
  assert (2 ^ n < 2 ^ 64) by (apply pow2_lt; lia).
  rewrite (u64_small (2 ^ n)) by lia.
  rewrite u64_small by lia.
  rewrite Z.ones_equiv. f_equal; lia.
Qed.

Lemma GET_BITS_done (a hi lo : Z) :
  0 <= hi + 1 < 64 -> 0 <= lo < 64 ->
  GET_BITS a hi lo = Done (Z.shiftr (Z.land a (Z.ones (hi + 1))) lo).
Proof.
  intros Hhi Hlo. unfold GET_BITS. rewrite BIT_MASK_ones by lia. simpl.
  unfold shr64.
  replace ((0 <=? lo) && (lo <? 64)) with true
    by (symmetry; apply andb_true_iff; split; [apply Z.leb_le|apply Z.ltb_lt]; lia).
  reflexivity.
Qed.

Section Decode.
Variables a b k : Z.
Variable p : replacement_policy_t.
Hypothesis Hb : 0 <= b.
Hypothesis Hk : 0 <= k <= 6.
Hypothesis Ha : b + k <= a <= 30.

Lemma GET_OFFSET_geometry (addr : Z) :
  GET_OFFSET (geometry a b k p) addr = Done (Z.land addr (Z.ones b)).
Proof.
  unfold GET_OFFSET; simpl. rewrite GET_BITS_done by lia.
  rewrite Z.shiftr_0_r. do 3 f_equal. lia.
Qed.

Lemma GET_INDEX_geometry (addr : Z) :
  GET_INDEX (geometry a b k p) addr =
  Done (Z.shiftr (Z.land addr (Z.ones (a - k))) b).
Proof.
  unfold GET_INDEX; simpl. rewrite GET_BITS_done by lia.
  do 4 f_equal. lia.
Qed.

Lemma GET_TAG_geometry (addr : Z) :
  GET_TAG (geometry a b k p) addr =
  Done (Z.shiftr (Z.land addr (Z.ones 32)) (a - k)).
Proof.
  unfold GET_TAG, ADDR_WIDTH; simpl. rewrite GET_BITS_done by lia.
  do 2 f_equal. lia.
Qed.

Lemma index_range (addr : Z) :
  0 <= Z.shiftr (Z.land addr (Z.ones (a - k))) b < 2 ^ (a - b - k).
Proof.
  rewrite Z.land_ones, Z.shiftr_div_pow2 by lia.
  assert (Pb : 0 < 2 ^ b) by (apply pow2_pos; lia).
  assert (Pa : 0 < 2 ^ (a - k)) by (apply pow2_pos; lia).
  pose proof (Z.mod_pos_bound addr (2 ^ (a - k)) Pa) as Hm.
  split; [apply Z.div_pos; lia|].
  apply Z.div_lt_upper_bound; [lia|].
  rewrite <- Z.pow_add_r by lia.
  replace (b + (a - b - k)) with (a - k) by lia. lia.
Qed.

Lemma tag_range (addr : Z) :
  0 <= Z.shiftr (Z.land addr (Z.ones 32)) (a - k) < 2 ^ 32.
Proof.
  rewrite Z.land_ones, Z.shiftr_div_pow2 by lia.
  assert (Pa : 0 < 2 ^ (a - k)) by (apply pow2_pos; lia).
  assert (P32 : 0 < 2 ^ 32) by lia.
  pose proof (Z.mod_pos_bound addr (2 ^ 32) P32) as Hm.
  split; [apply Z.div_pos; lia|].
  apply Z.div_lt_upper_bound; [lia|]. nia.
Qed.

Lemma reconstruct_geometry (addr : Z) :
  Z.lor (Z.lor (Z.shiftl (Z.shiftr (Z.land addr (Z.ones 32)) (a - k)) (a - k))
               (Z.shiftl (Z.shiftr (Z.land addr (Z.ones (a - k))) b) b))
        (Z.land addr (Z.ones b))
  = addr mod 2 ^ 32.
Proof.
  apply Z.bits_inj'. intros i Hi.
  rewrite !Z.lor_spec, Z.land_spec, Z.testbit_ones_nonneg by lia.
  rewrite Z.testbit_mod_pow2 by lia.
  destruct (Z.ltb_spec i b) as [Hib|Hib].
  - rewrite !Z.shiftl_spec_low by lia. simpl.
    destruct (Z.ltb_spec i 32); [|lia]. rewrite andb_true_r. reflexivity.
  - rewrite andb_false_r, orb_false_r.
    rewrite (Z.shiftl_spec _ b) by lia.
    rewrite Z.shiftr_spec, Z.land_spec, Z.testbit_ones_nonneg by lia.
    replace (i - b + b) with i by lia.
    destruct (Z.ltb_spec i (a - k)) as [Hik|Hik].
    + rewrite Z.shiftl_spec_low by lia. simpl.
      destruct (Z.ltb_spec i 32); [|lia]. rewrite andb_true_r. reflexivity.
    + rewrite andb_false_r, orb_false_r.
      rewrite Z.shiftl_spec by lia.
      rewrite Z.shiftr_spec, Z.land_spec, Z.testbit_ones_nonneg by lia.
      replace (i - (a - k) + (a - k)) with i by lia.
      apply andb_comm.
Qed.
End Decode.

(** ** Bits of a 64-bit word *)

Lemma u64_high_bits (x i : Z) : 0 <= x < 2 ^ 64 -> 64 <= i -> Z.testbit x i = false.
Proof.
  intros Hx Hi. rewrite <- (Z.mod_small x (2 ^ 64)) by lia.
  apply Z.mod_pow2_bits_high. lia.
Qed.

Lemma u64_of_bits (x : Z) :
  0 <= x -> (forall i, 64 <= i -> Z.testbit x i = false) -> 0 <= x < 2 ^ 64.
Proof.
  intros Hx Hb. split; [exact Hx|].
  destruct (Z_lt_ge_dec x (2 ^ 64)) as [|Hge]; [assumption|exfalso].
  assert (Hpos : 0 < x) by lia.
  assert (Hl : 64 <= Z.log2 x) by (apply Z.log2_le_pow2; lia).
  pose proof (Z.bit_log2 x Hpos) as Ht.
  rewrite Hb in Ht by lia. discriminate.
Qed.

Lemma low_bit_of_shift (s node : Z) :
  0 <= node -> Z.land (Z.shiftr s node) 1 = Z.b2z (Z.testbit s node).
Proof.
  intros Hn. change 1 with (Z.ones 1) at 1.
  rewrite Z.land_ones by lia. change (2 ^ 1) with 2.
  rewrite <- Z.bit0_mod, Z.shiftr_spec by lia. reflexivity.
Qed.

Lemma one_shl64 (node : Z) : 0 <= node < 64 -> u64 (Z.shiftl 1 node) = 2 ^ node.
Proof.
  intros Hn. rewrite Z.shiftl_1_l.
  assert (0 < 2 ^ node) by (apply pow2_pos; lia).
  assert (2 ^ node < 2 ^ 64) by (apply pow2_lt; lia).
  apply u64_small. lia.
Qed.

Lemma or_bit64 (s node : Z) :
  0 <= node -> Z.lor s (2 ^ node) = Z.setbit s node.
Proof.
  intros Hn. unfold Z.setbit. rewrite Z.shiftl_1_l. reflexivity.
Qed.

Lemma and_not_bit64 (s node : Z) :
  0 <= s < 2 ^ 64 -> 0 <= node ->
  Z.land s (not64 (2 ^ node)) = Z.clearbit s node.
Proof.
  intros Hs Hn. apply Z.bits_inj'. intros i Hi.
  unfold not64, u64.
  rewrite Z.land_spec, Z.testbit_mod_pow2, Z.lnot_spec, Z.pow2_bits_eqb by lia.
  rewrite Z.clearbit_eqb by lia.
  destruct (Z.ltb_spec i 64) as [Hlt|Hge]; simpl.
  - reflexivity.
  - rewrite (u64_high_bits s i) by lia. reflexivity.
Qed.

Lemma setbit_range (s node : Z) :
  0 <= s < 2 ^ 64 -> 0 <= node < 64 -> 0 <= Z.setbit s node < 2 ^ 64.
Proof.
  intros Hs Hn. apply u64_of_bits.
  - unfold Z.setbit. apply Z.lor_nonneg. split; [lia|].
    apply Z.shiftl_nonneg. lia.
  - intros i Hi. rewrite Z.setbit_eqb by lia.
    rewrite (u64_high_bits s i) by lia.
    destruct (Z.eqb_spec node i); [lia|reflexivity].
Qed.

Lemma clearbit_range (s node : Z) :
  0 <= s < 2 ^ 64 -> 0 <= node -> 0 <= Z.clearbit s node < 2 ^ 64.
Proof.
  intros Hs Hn. apply u64_of_bits.
  - unfold Z.clearbit. apply Z.ldiff_nonneg. lia.
  - intros i Hi. rewrite Z.clearbit_eqb by lia.
    rewrite (u64_high_bits s i) by lia. reflexivity.
Qed.

Lemma set_bit_to_range (s node : Z) (b : bool) :
  0 <= s < 2 ^ 64 -> 0 <= node < 64 -> 0 <= set_bit_to s node b < 2 ^ 64.
Proof.
  intros. destruct b; simpl; [apply setbit_range|apply clearbit_range]; lia.
Qed.

Lemma set_bit_to_spec (s node i : Z) (b : bool) :
  0 <= node -> 0 <= i ->
  Z.testbit (set_bit_to s node b) i = if node =? i then b else Z.testbit s i.
Proof.
  intros Hn Hi. destruct b; simpl.
  - rewrite Z.setbit_eqb by lia. destruct (node =? i); reflexivity.
  - rewrite Z.clearbit_eqb by lia. destruct (node =? i); simpl;
      [apply andb_false_r|apply andb_true_r].
Qed.

Lemma set_bit_to_same (s node : Z) (b : bool) :
  0 <= node -> Z.testbit s node = b -> set_bit_to s node b = s.
Proof.
  intros Hn Hb. apply Z.bits_inj'. intros i Hi.
  rewrite set_bit_to_spec by lia.
  destruct (Z.eqb_spec node i); [subst; reflexivity|reflexivity].
Qed.

(** Flipping a bit sets it to the complement of what it was. *)
Lemma flip_bit_set (s node : Z) :
  0 <= node -> flip_bit s node = set_bit_to s node (negb (Z.testbit s node)).
Proof.
  intros Hn. apply Z.bits_inj'. intros i Hi.
  unfold flip_bit. rewrite set_bit_to_spec, Z.lxor_spec, Z.pow2_bits_eqb by lia.
  destruct (Z.eqb_spec node i).
  - subst. apply xorb_true_r.
  - apply xorb_false_r.
Qed.

Lemma msb_fold (bs : list bool) : forall acc,
  fold_left (fun acc b => 2 * acc + Z.b2z b) bs acc =
  acc * 2 ^ Z.of_nat (length bs) + msb_first bs.
Proof.
  unfold msb_first.
  induction bs as [|b bs IH]; intros acc.
  - simpl. lia.
  - cbn [fold_left length]. rewrite IH, (IH (2 * 0 + Z.b2z b)).
    rewrite Nat2Z.inj_succ, Z.pow_succ_r by lia. ring.
Qed.

Lemma msb_first_cons (b : bool) (bs : list bool) :
  msb_first (b :: bs) = Z.b2z b * 2 ^ Z.of_nat (length bs) + msb_first bs.
Proof.
  unfold msb_first at 1. cbn [fold_left]. rewrite msb_fold. f_equal.
Qed.

Lemma msb_first_range (bs : list bool) :
  0 <= msb_first bs < 2 ^ Z.of_nat (length bs).
Proof.
  induction bs as [|b bs IH].
  - cbn. lia.
  - rewrite msb_first_cons. cbn [length].
    rewrite Nat2Z.inj_succ, Z.pow_succ_r by lia.
    destruct b; simpl Z.b2z; lia.
Qed.

Lemma spec_victim_walk_length (n : nat) : forall s node,
  length (snd (spec_victim_walk n s node)) = n.
Proof.
  induction n as [|n IH]; intros s node; simpl; [reflexivity|].
  rewrite IH. reflexivity.
Qed.

(** ** The PLRU loops against the tree walks *)

Lemma shl64_one (node : Z) : 0 <= node < 64 -> shl64 1 node = Done (2 ^ node).
Proof.
  intros Hn. unfold shl64.
  replace ((0 <=? node) && (node <? 64)) with true
    by (symmetry; apply andb_true_iff; split; [apply Z.leb_le|apply Z.ltb_lt]; lia).
  rewrite one_shl64 by lia. reflexivity.
Qed.

Lemma shr64_done (x node : Z) : 0 <= node < 64 -> shr64 x node = Done (Z.shiftr x node).
Proof.
  intros Hn. unfold shr64.
  replace ((0 <=? node) && (node <? 64)) with true
    by (symmetry; apply andb_true_iff; split; [apply Z.leb_le|apply Z.ltb_lt]; lia).
  reflexivity.
Qed.

Lemma shr32_done (x n : Z) : 0 <= n < 32 -> shr32 x n = Done (Z.shiftr x n).
Proof.
  intros Hn. unfold shr32.
  replace ((0 <=? n) && (n <? 32)) with true
    by (symmetry; apply andb_true_iff; split; [apply Z.leb_le|apply Z.ltb_lt]; lia).
  reflexivity.
Qed.

(** The two branches of the loops write [1 - direction] into the node. *)
Lemma branch_sets_bit (bits node : Z) (b : bool) :
  0 <= bits < 2 ^ 64 -> 0 <= node ->
  (if negb (Z.b2z b =? 0) then Z.land bits (not64 (2 ^ node))
   else Z.lor bits (2 ^ node))
  = set_bit_to bits node (negb b).
Proof.
  intros Hb Hn. destruct b; simpl.
  - apply and_not_bit64; lia.
  - apply or_bit64; lia.
Qed.

Lemma append_bit (v : Z) (b : bool) :
  0 <= v -> 2 * v + 2 <= 2 ^ 64 ->
  Z.lor (u64 (Z.shiftl v 1)) (Z.b2z b) = 2 * v + Z.b2z b.
Proof.
  intros Hv Hlt. rewrite Z.shiftl_mul_pow2 by lia. change (2 ^ 1) with 2.
  rewrite u64_small by lia.
  replace (v * 2) with (2 * v) by lia.
  destruct b; simpl Z.b2z.
  - assert (Hl : Z.land (2 * v) 1 = 0).
    { change 1 with (Z.ones 1). rewrite Z.land_ones by lia.
      change (2 ^ 1) with 2. rewrite Z.mul_comm. apply Z.mod_mul. lia. }
    rewrite <- Z.lxor_lor by exact Hl.
    symmetry. apply Z.add_nocarry_lxor. exact Hl.
  - rewrite Z.lor_0_r. lia.
Qed.

Lemma child_node (node : Z) (b : bool) :
  0 <= node <= 62 -> u32 (node * 2 + 1 + Z.b2z b) = 2 * node + 1 + Z.b2z b.
Proof.
  intros Hn. rewrite u32_small; destruct b; simpl Z.b2z; lia.
Qed.

Lemma plru_victim_loop_spec (n : nat) : forall bits node v,
  0 <= bits < 2 ^ 64 ->
  0 <= node -> (node + 2) * 2 ^ Z.of_nat n <= 128 ->
  0 <= v -> (v + 1) * 2 ^ Z.of_nat n <= 2 ^ 64 ->
  plru_victim_loop n bits node v =
  Done (fst (spec_victim_walk n bits node),
        v * 2 ^ Z.of_nat n + msb_first (snd (spec_victim_walk n bits node))).
Proof.
  induction n as [|n IH]; intros bits node v Hbits Hnode Hnb Hv Hvb.
  - simpl. f_equal. f_equal. cbn. lia.
  - rewrite Nat2Z.inj_succ, Z.pow_succ_r in Hnb, Hvb by lia.
    assert (Hp : 0 < 2 ^ Z.of_nat n) by (apply pow2_pos; lia).
    assert (Hn62 : node <= 62) by nia.
    cbn [plru_victim_loop spec_victim_walk fst snd].
    rewrite shr64_done by lia. cbn [bind].
    rewrite shl64_one by lia. cbn [bind].
    rewrite low_bit_of_shift by lia.
    set (b := Z.testbit bits node).
    rewrite branch_sets_bit by lia.
    rewrite child_node by lia.
    rewrite append_bit by nia.
    rewrite <- flip_bit_set by lia.
    rewrite IH.
    + f_equal. f_equal.
      rewrite msb_first_cons, spec_victim_walk_length.
      rewrite Nat2Z.inj_succ, Z.pow_succ_r by lia. ring.
    + subst b. rewrite flip_bit_set by lia.
      apply set_bit_to_range; lia.
    + destruct b; simpl Z.b2z; lia.
    + destruct b; simpl Z.b2z; nia.
    + destruct b; simpl Z.b2z; lia.
    + destruct b; simpl Z.b2z; nia.
Qed.

Lemma decision_bits_S (n : nat) (w : Z) :
  decision_bits (S n) w = Z.testbit w (Z.of_nat n) :: decision_bits n w.
Proof.
  unfold decision_bits. rewrite seq_S, rev_app_distr. reflexivity.
Qed.

Lemma plru_hit_loop_spec (n : nat) : forall i L bits node w,
  0 <= bits < 2 ^ 64 ->
  0 <= node -> (node + 2) * 2 ^ Z.of_nat n <= 128 ->
  0 <= i -> L = i + Z.of_nat n -> L <= 32 ->
  plru_hit_loop n i L bits node w =
  Done (spec_hit_walk (decision_bits n w) bits node).
Proof.
  induction n as [|n IH]; intros i L bits node w Hbits Hnode Hnb Hi HL HL32.
  - reflexivity.
  - rewrite Nat2Z.inj_succ, Z.pow_succ_r in Hnb by lia.
    assert (Hp : 0 < 2 ^ Z.of_nat n) by (apply pow2_pos; lia).
    assert (Hn62 : node <= 62) by nia.
    rewrite decision_bits_S.
    cbn [plru_hit_loop spec_hit_walk].
    replace (L - 1 - i) with (Z.of_nat n) by lia.
    rewrite u32_small by lia.
    rewrite shr32_done by lia. cbn [bind].
    rewrite shl64_one by lia. cbn [bind].
    rewrite low_bit_of_shift by lia.
    set (d := Z.testbit w (Z.of_nat n)).
    rewrite branch_sets_bit by lia.
    rewrite child_node by lia.
    apply IH; try lia.
    + apply set_bit_to_range; lia.
    + destruct d; simpl Z.b2z; lia.
    + destruct d; simpl Z.b2z; nia.
Qed.

(** ** Properties of the tree walks *)

(** A victim walk only writes the nodes it visits, and these have indices
    at least the node it starts from. *)
Lemma spec_victim_walk_low (n : nat) : forall s node j,
  0 <= j < node ->
  Z.testbit (fst (spec_victim_walk n s node)) j = Z.testbit s j.
Proof.
  induction n as [|n IH]; intros s node j Hj; cbn [spec_victim_walk fst].
  - reflexivity.
  - rewrite IH by (destruct (Z.testbit s node); simpl Z.b2z; lia).
    rewrite flip_bit_set, set_bit_to_spec by lia.
    destruct (Z.eqb_spec node j); [lia|reflexivity].
Qed.

(** After a walk the first node visited holds the complement of the bit
    that was read there. *)
Lemma spec_victim_walk_first (n : nat) (s node : Z) :
  0 <= node ->
  Z.testbit (fst (spec_victim_walk (S n) s node)) node = negb (Z.testbit s node).
Proof.
  intros Hn. cbn [spec_victim_walk fst].
  rewrite spec_victim_walk_low by (destruct (Z.testbit s node); simpl Z.b2z; lia).
  rewrite flip_bit_set, set_bit_to_spec by lia.
  rewrite Z.eqb_refl. reflexivity.
Qed.

Lemma spec_victim_walk_range (n : nat) : forall s node,
  0 <= s < 2 ^ 64 -> 0 <= node -> (node + 2) * 2 ^ Z.of_nat n <= 128 ->
  0 <= fst (spec_victim_walk n s node) < 2 ^ 64.
Proof.
  induction n as [|n IH]; intros s node Hs Hn Hb; cbn [spec_victim_walk fst].
  - exact Hs.
  - rewrite Nat2Z.inj_succ, Z.pow_succ_r in Hb by lia.
    assert (Hp : 0 < 2 ^ Z.of_nat n) by (apply pow2_pos; lia).
    apply IH.
    + rewrite flip_bit_set by lia. apply set_bit_to_range; [lia|nia].
    + destruct (Z.testbit s node); simpl Z.b2z; lia.
    + destruct (Z.testbit s node); simpl Z.b2z; nia.
Qed.

Lemma spec_hit_walk_range (dirs : list bool) : forall s node,
  0 <= s < 2 ^ 64 -> 0 <= node ->
  (node + 2) * 2 ^ Z.of_nat (length dirs) <= 128 ->
  0 <= spec_hit_walk dirs s node < 2 ^ 64.
Proof.
  induction dirs as [|d ds IH]; intros s node Hs Hn Hb; cbn [spec_hit_walk].
  - exact Hs.
  - cbn [length] in Hb. rewrite Nat2Z.inj_succ, Z.pow_succ_r in Hb by lia.
    assert (Hp : 0 < 2 ^ Z.of_nat (length ds)) by (apply pow2_pos; lia).
    apply IH.
    + apply set_bit_to_range; [lia|nia].
    + destruct d; simpl Z.b2z; lia.
    + destruct d; simpl Z.b2z; nia.
Qed.

(** Walking again along the bits a victim walk has read changes nothing. *)
Lemma spec_hit_walk_after_victim (n : nat) : forall s node,
  0 <= node ->
  spec_hit_walk (snd (spec_victim_walk n s node))
    (fst (spec_victim_walk n s node)) node
  = fst (spec_victim_walk n s node).
Proof.
  induction n as [|n IH]; intros s node Hn.
  - reflexivity.
  - pose proof (spec_victim_walk_first n s node Hn) as Hf.
    cbn [spec_victim_walk fst snd] in *. cbn [spec_hit_walk].
    rewrite set_bit_to_same by (lia || exact Hf).
    apply IH. destruct (Z.testbit s node); simpl Z.b2z; lia.
Qed.

Lemma testbit_above_low (b : bool) (m n : Z) :
  0 <= n -> 0 <= m < 2 ^ n -> Z.testbit (Z.b2z b * 2 ^ n + m) n = b.
Proof.
  intros Hn Hm.
  replace n with (0 + n) at 2 by lia.
  rewrite <- Z.div_pow2_bits by lia.
  rewrite Z.add_comm, Z.div_add by lia.
  rewrite Z.div_small by lia. simpl. apply Z.b2z_bit0.
Qed.

Lemma testbit_below_high (b : bool) (m n j : Z) :
  0 <= j < n -> Z.testbit (Z.b2z b * 2 ^ n + m) j = Z.testbit m j.
Proof.
  intros Hj.
  rewrite <- (Z.mod_pow2_bits_low _ n j) by lia.
  rewrite Z.add_comm, Z.mod_add by lia.
  apply Z.mod_pow2_bits_low. lia.
Qed.

Lemma decision_bits_ext (n : nat) (w w' : Z) :
  (forall j, 0 <= j < Z.of_nat n -> Z.testbit w j = Z.testbit w' j) ->
  decision_bits n w = decision_bits n w'.
Proof.
  induction n as [|n IH]; intros H; [reflexivity|].
  rewrite !decision_bits_S. f_equal.
  - apply H. lia.
  - apply IH. intros j Hj. apply H. lia.
Qed.

(** The decision bits of a way, most significant first, are the bits it
    was assembled from. *)
Lemma decision_bits_msb_first (bs : list bool) :
  decision_bits (length bs) (msb_first bs) = bs.
Proof.
  induction bs as [|b bs IH]; [reflexivity|].
  cbn [length]. rewrite decision_bits_S, msb_first_cons.
  pose proof (msb_first_range bs) as Hr.
  f_equal.
  - apply testbit_above_low; lia.
  - etransitivity; [|exact IH]. apply decision_bits_ext.
    intros j Hj. apply testbit_below_high. lia.
Qed.

Lemma decision_bits_length (n : nat) (w : Z) : length (decision_bits n w) = n.
Proof.
  unfold decision_bits. rewrite length_map, length_rev, length_seq. reflexivity.
Qed.

(** ** The tree height of a valid configuration *)

Lemma tree_level_valid (c : cache_config_t) :
  valid_config c ->
  exists k, 0 <= k <= 6 /\ associativity c = 2 ^ k /\
            LOG2 (associativity c) = Done k /\ Z.log2 (associativity c) = k.
Proof.
  intros Hv. destruct (valid_geometry c Hv) as (a & b & k & Hb & Hk & Ha & E).
  exists k. rewrite E; simpl.
  repeat split; try lia.
  - apply LOG2_pow2; lia.
  - apply Z.log2_pow2; lia.
Qed.

Lemma with_plru_bits_same (s : cache_set_t) : with_plru_bits s (plru_bits s) = s.
Proof. destruct s; reflexivity. Qed.

Lemma find_plru_done (c : cache_config_t) (s : cache_set_t) :
  valid_config c -> 0 <= plru_bits s < 2 ^ 64 ->
  find_and_updata_plru_victim_way c s =
  Done (with_plru_bits s (fst (spec_select_victim (associativity c) (plru_bits s))),
        snd (spec_select_victim (associativity c) (plru_bits s))).
Proof.
  intros Hv Hs. destruct (tree_level_valid c Hv) as (k & Hk & Ek & El & Elog).
  unfold find_and_updata_plru_victim_way, spec_select_victim.
  destruct (Z.eqb_spec (associativity c) 1) as [E1|N1].
  - cbn [fst snd]. rewrite with_plru_bits_same. reflexivity.
  - rewrite El, Elog. cbn [bind]. rewrite u32_small by lia.
    assert (2 ^ Z.of_nat (Z.to_nat k) <= 2 ^ 6) by (apply pow2_le; lia).
    rewrite plru_victim_loop_spec by lia.
    cbn [bind fst snd]. rewrite Z.mul_0_l, Z.add_0_l. reflexivity.
Qed.

Lemma update_plru_done (c : cache_config_t) (s : cache_set_t) (w : Z) :
  valid_config c -> 0 <= plru_bits s < 2 ^ 64 ->
  update_plru_victim_way c s w =
  Done (with_plru_bits s (spec_on_hit (associativity c) (plru_bits s) w)).
Proof.
  intros Hv Hs. destruct (tree_level_valid c Hv) as (k & Hk & Ek & El & Elog).
  unfold update_plru_victim_way, spec_on_hit.
  destruct (Z.eqb_spec (associativity c) 1) as [E1|N1].
  - rewrite with_plru_bits_same. reflexivity.
  - rewrite El, Elog. cbn [bind]. rewrite u32_small by lia.
    assert (2 ^ Z.of_nat (Z.to_nat k) <= 2 ^ 6) by (apply pow2_le; lia).
    rewrite plru_hit_loop_spec by lia.
    reflexivity.
Qed.

Lemma spec_select_victim_range (assoc s : Z) (k : Z) :
  0 <= k <= 6 -> assoc = 2 ^ k -> 0 <= s < 2 ^ 64 ->
  0 <= fst (spec_select_victim assoc s) < 2 ^ 64 /\
  0 <= snd (spec_select_victim assoc s) < assoc.
Proof.
  intros Hk -> Hs. unfold spec_select_victim.
  destruct (Z.eqb_spec (2 ^ k) 1) as [E1|N1]; cbn [fst snd].
  - rewrite E1. lia.
  - rewrite Z.log2_pow2 by lia.
    assert (2 ^ Z.of_nat (Z.to_nat k) <= 2 ^ 6) by (apply pow2_le; lia).
    split.
    + apply spec_victim_walk_range; lia.
    + pose proof (msb_first_range (snd (spec_victim_walk (Z.to_nat k) s 0))) as Hr.
      rewrite spec_victim_walk_length, Z2Nat.id in Hr by lia. exact Hr.
Qed.

(** ** The lookup loop *)

Lemma scan_ways_spec (n : nat) : forall (i : nat) lines t,
  (i + n = length lines)%nat -> (length lines <= 64)%nat ->
  (forall j l, (j < i)%nat -> lines !! j = Some l -> line_matches t l = false) ->
  (scan_ways n (Z.of_nat i) lines t = Done (-1) /\
   forall j l, lines !! j = Some l -> line_matches t l = false)
  \/
  (exists (w : nat) l,
      scan_ways n (Z.of_nat i) lines t = Done (Z.of_nat w) /\
      (w < length lines)%nat /\
      lines !! w = Some l /\ line_matches t l = true /\
      forall j l', (j < w)%nat -> lines !! j = Some l' -> line_matches t l' = false).
Proof.
  induction n as [|n IH]; intros i lines t Hlen H64 Hbefore.
  - left. split; [reflexivity|].
    intros j l Hj. apply (Hbefore j l); [|exact Hj].
    apply lookup_lt_Some in Hj. lia.
  - cbn [scan_ways]. rewrite Nat2Z.id.
    destruct (lookup_lt_is_Some_2 lines i) as [l Hl]; [lia|].
    rewrite Hl. fold (line_matches t l).
    destruct (line_matches t l) eqn:Hm.
    + right. exists i, l. rewrite to_int_small by lia.
      repeat split; try assumption. lia.
    + replace (Z.of_nat i + 1) with (Z.of_nat (S i)) by lia.
      apply IH; [lia|lia|].
      intros j l' Hj Hl'.
      destruct (Nat.eq_dec j i) as [->|Hne].
      * rewrite Hl in Hl'. inversion Hl'; subst. exact Hm.
      * apply (Hbefore j l'); [lia|exact Hl'].
Qed.

(** ** The replacement engine on a well-formed set *)

Lemma assoc_bounds (c : cache_config_t) :
  valid_config c -> 1 <= associativity c <= 64.
Proof.
  intros Hv. destruct (tree_level_valid c Hv) as (k & Hk & Ek & _).
  rewrite Ek. pose proof (pow2_pos k).
  assert (2 ^ k <= 2 ^ 6) by (apply pow2_le; lia). lia.
Qed.

Lemma wf_set_with_plru_bits (c : cache_config_t) (cs : cache_set_t) (b : Z) :
  wf_set c cs -> 0 <= b < 2 ^ 64 -> wf_set c (with_plru_bits cs b).
Proof. intros (Hlen & Hfifo & Hbits) Hb. repeat split; simpl; lia. Qed.

Lemma spec_on_hit_range (assoc s w k : Z) :
  0 <= k <= 6 -> assoc = 2 ^ k -> 0 <= s < 2 ^ 64 ->
  0 <= spec_on_hit assoc s w < 2 ^ 64.
Proof.
  intros Hk -> Hs. unfold spec_on_hit.
  destruct (_ =? 1); [exact Hs|].
  rewrite Z.log2_pow2 by lia.
  assert (2 ^ Z.of_nat (Z.to_nat k) <= 2 ^ 6) by (apply pow2_le; lia).
  apply spec_hit_walk_range; try lia.
  rewrite decision_bits_length. lia.
Qed.

Lemma on_hit_done (c : cache_config_t) (cs : cache_set_t) (w : Z) :
  valid_config c -> wf_set c cs ->
  exists cs', on_hit c cs w = Done cs' /\
              cache_line cs' = cache_line cs /\
              fifo_pointer cs' = fifo_pointer cs /\
              wf_set c cs'.
Proof.
  intros Hv Hwf. pose proof Hwf as (Hlen & Hfifo & Hbits).
  unfold on_hit. destruct (policy c).
  - rewrite update_plru_done by assumption.
    eexists. split; [reflexivity|].
    split; [reflexivity|]. split; [reflexivity|].
    destruct (tree_level_valid c Hv) as (k & Hk & Ek & _).
    apply wf_set_with_plru_bits; [exact Hwf|].
    apply (spec_on_hit_range _ _ _ k); assumption.
  - exists cs. auto.
  - exists cs. auto.
Qed.

Lemma select_victim_done (c : cache_config_t) (r : Z) (cs : cache_set_t) :
  valid_config c -> wf_set c cs -> 0 <= r <= RAND_MAX ->
  exists cs1 v, select_victim c r cs = Done (cs1, v) /\
                0 <= v < associativity c /\
                cache_line cs1 = cache_line cs /\
                wf_set c cs1.
Proof.
  intros Hv Hwf Hr. pose proof Hwf as (Hlen & Hfifo & Hbits).
  pose proof (assoc_bounds c Hv) as Ha.
  unfold select_victim. destruct (policy c).
  - rewrite find_plru_done by assumption.
    destruct (tree_level_valid c Hv) as (k & Hk & Ek & _).
    destruct (spec_select_victim_range (associativity c) (plru_bits cs) k Hk Ek Hbits)
      as [Hs Hw].
    do 2 eexists. split; [reflexivity|].
    split; [exact Hw|]. split; [reflexivity|].
    apply wf_set_with_plru_bits; assumption.
  - unfold find_and_update_fifo_victim_way.
    rewrite u64_small by lia.
    destruct (Z.eqb_spec (associativity c) 0); [lia|].
    do 2 eexists. split; [reflexivity|].
    assert (Hm : 0 <= u64 (fifo_pointer cs + 1) mod associativity c < associativity c)
      by (apply Z.mod_pos_bound; lia).
    repeat split; simpl; try assumption; lia.
  - unfold find_random_victim_way.
    destruct (Z.eqb_spec (associativity c) 0); [lia|]. cbn [bind].
    do 2 eexists. split; [reflexivity|].
    pose proof (Z.rem_bound_pos r (associativity c)) as Hb.
    split; [lia|]. auto.
Qed.

(** ** One access, case by case *)

(** On a valid configuration and a well-formed store an access always
    returns: either the lookup loop stops at the first matching way and the
    hit path runs, or no line matches and the miss path installs the tag in
    the way the policy selects. *)
Lemma access_cache_cases (rnd : nat -> Z) (c : cache_config_t) (st : sim_state)
    (addr : Z) :
  valid_config c -> wf_state c st -> rand_ok rnd ->
  exists index t cs,
    GET_INDEX c addr = Done index /\ GET_TAG c addr = Done t /\
    0 <= index < set_num c /\
    cache st !! Z.to_nat index = Some cs /\ wf_set c cs /\
    ((exists (w : nat) l cs',
         (w < length (cache_line cs))%nat /\
         cache_line cs !! w = Some l /\ line_matches t l = true /\
         (forall j l', (j < w)%nat -> cache_line cs !! j = Some l' ->
                       line_matches t l' = false) /\
         on_hit c cs (Z.of_nat w) = Done cs' /\
         cache_line cs' = cache_line cs /\
         fifo_pointer cs' = fifo_pointer cs /\ wf_set c cs' /\
         access_cache rnd c st addr =
         Done (mk_state (<[Z.to_nat index := cs']> (cache st))
                 (u64 (total_access_times st + 1))
                 (u64 (total_hit_times st + 1)) (rand_calls st),
               (index, Hit (Z.of_nat w))))
     \/
     ((forall j l, cache_line cs !! j = Some l -> line_matches t l = false) /\
      exists cs1 v calls,
        select_victim c (rnd (rand_calls st)) cs = Done (cs1, v) /\
        0 <= v < associativity c /\
        cache_line cs1 = cache_line cs /\ wf_set c cs1 /\
        access_cache rnd c st addr =
        Done (mk_state
                (<[Z.to_nat index :=
                     with_cache_line cs1
                       (<[Z.to_nat v := mk_line 1 t]> (cache_line cs1))]>
                   (cache st))
                (u64 (total_access_times st + 1)) (total_hit_times st) calls,
              (index, Miss v)))).
Proof.
  intros Hv [Hlen Hall] Hr.
  destruct (valid_geometry c Hv) as (a & b & k & Hb & Hk & Ha & E).
  pose proof (assoc_bounds c Hv) as Hassoc.
  assert (Hidx : GET_INDEX c addr = Done (Z.shiftr (Z.land addr (Z.ones (a - k))) b))
    by (rewrite E; apply GET_INDEX_geometry; lia).
  assert (Htag : GET_TAG c addr = Done (Z.shiftr (Z.land addr (Z.ones 32)) (a - k)))
    by (rewrite E; apply GET_TAG_geometry; lia).
  assert (Hsn : set_num c = 2 ^ (a - b - k)) by (rewrite E; reflexivity).
  assert (Hir : 0 <= Z.shiftr (Z.land addr (Z.ones (a - k))) b < 2 ^ (a - b - k))
    by (apply index_range; lia).
  set (index := Z.shiftr (Z.land addr (Z.ones (a - k))) b) in *.
  set (t := Z.shiftr (Z.land addr (Z.ones 32)) (a - k)) in *.
  destruct (lookup_lt_is_Some_2 (cache st) (Z.to_nat index)) as [cs Hcs]; [lia|].
  pose proof (Forall_lookup_1 _ _ _ _ Hall Hcs) as Hwf.
  pose proof Hwf as (Hlines & Hfifo & Hbits).
  exists index, t, cs.
  do 3 (split; [first [assumption | lia]|]).
  split; [exact Hcs|]. split; [exact Hwf|].
  unfold access_cache. rewrite Hidx, Htag. cbn [bind]. rewrite Hcs.
  rewrite (u32_small (associativity c)) by lia.
  destruct (scan_ways_spec (Z.to_nat (associativity c)) 0 (cache_line cs) t)
    as [[Hscan Hnone]|(w & l & Hscan & Hw & Hl & Hm & Hfirst)];
    [lia | lia | intros j l Hj; lia | |];
    change (Z.of_nat 0) with 0 in Hscan; rewrite Hscan; cbn [bind].
  - right. split; [exact Hnone|].
    destruct (select_victim_done c (rnd (rand_calls st)) cs Hv Hwf (Hr _))
      as (cs1 & v & Hsel & Hvr & Hl1 & Hwf1).
    exists cs1, v.
    change (negb (-1 =? -1)) with false. cbv iota.
    assert (Hchk : (0 <=? v) && (v <? associativity c) = true)
      by (apply andb_true_iff; split; [apply Z.leb_le|apply Z.ltb_lt]; lia).
    destruct (lookup_lt_is_Some_2 (cache_line cs1) (Z.to_nat v)) as [l1 Hv1];
      [rewrite Hl1; lia|].
    pose proof Hsel as Hsel'. unfold select_victim in Hsel'.
    destruct (policy c).
    + exists (rand_calls st). do 4 (split; [assumption|]).
      rewrite Hsel'. cbn [bind fst snd]. rewrite to_int_small by lia.
      rewrite Hchk. cbn [Assert bind]. rewrite Hv1. reflexivity.
    + exists (rand_calls st). do 4 (split; [assumption|]).
      rewrite Hsel'. cbn [bind fst snd]. rewrite to_int_small by lia.
      rewrite Hchk. cbn [Assert bind]. rewrite Hv1. reflexivity.
    + exists (S (rand_calls st)). do 4 (split; [assumption|]).
      apply bind_done in Hsel' as (v0 & Hf & Heq).
      injection Heq as <- <-.
      rewrite Hf. cbn [bind]. rewrite u64_small, to_int_small by lia.
      rewrite Hchk. cbn [Assert bind]. rewrite Hv1. reflexivity.
  - left.
    destruct (on_hit_done c cs (Z.of_nat w) Hv Hwf) as (cs' & Hon & Hl' & Hf' & Hwf').
    exists w, l, cs'.
    do 8 (split; [assumption|]).
    replace (negb (Z.of_nat w =? -1)) with true
      by (symmetry; apply negb_true_iff, Z.eqb_neq; lia).
    cbv iota. unfold on_hit in Hon.
    rewrite (u32_small (Z.of_nat w)) by lia.
    destruct (policy c); rewrite ?Hon; cbn [bind];
      try (injection Hon as <-); reflexivity.
Qed.

Lemma wf_state_insert (c : cache_config_t) (st : sim_state) (i : nat)
    (cs : cache_set_t) (acc hits : Z) (calls : nat) :
  wf_state c st -> wf_set c cs ->
  wf_state c (mk_state (<[i := cs]> (cache st)) acc hits calls).
Proof.
  intros [Hlen Hall] Hcs. split; simpl.
  - rewrite length_insert. exact Hlen.
  - apply Forall_insert; assumption.
Qed.

Lemma wf_set_install (c : cache_config_t) (cs : cache_set_t) (v : nat)
    (l : cache_line_t) :
  wf_set c cs -> wf_set c (with_cache_line cs (<[v := l]> (cache_line cs))).
Proof.
  intros (Hlen & Hfifo & Hbits). repeat split; simpl; try lia.
  rewrite length_insert. exact Hlen.
Qed.

Lemma access_cache_wf (rnd : nat -> Z) (c : cache_config_t) (st : sim_state)
    (addr : Z) :
  valid_config c -> wf_state c st -> rand_ok rnd ->
  exists st' ev, access_cache rnd c st addr = Done (st', ev) /\ wf_state c st'.
Proof.
  intros Hv Hwf Hr.
  destruct (access_cache_cases rnd c st addr Hv Hwf Hr)
    as (index & t & cs & _ & _ & _ & _ & _ & [Hhit|Hmiss]).
  - destruct Hhit as (w & l & cs' & _ & _ & _ & _ & _ & _ & _ & Hwf' & Hacc).
    do 2 eexists. split; [exact Hacc|].
    apply wf_state_insert; assumption.
  - destruct Hmiss as (_ & cs1 & v & calls & _ & _ & _ & Hwf1 & Hacc).
    do 2 eexists. split; [exact Hacc|].
    apply wf_state_insert; [assumption|].
    apply wf_set_install. exact Hwf1.
Qed.

Lemma sim_cache_total (rnd : nat -> Z) (c : cache_config_t) :
  valid_config c -> rand_ok rnd ->
  forall addrs st, wf_state c st ->
  exists st' evs, sim_cache rnd c st addrs = Done (st', evs) /\
                  wf_state c st' /\ length evs = length addrs.
Proof.
  intros Hv Hr. induction addrs as [|a rest IH]; intros st Hwf.
  - exists st, []. auto.
  - destruct (access_cache_wf rnd c st a Hv Hwf Hr) as (st1 & ev & Hacc & Hwf1).
    destruct (IH st1 Hwf1) as (st2 & evs & Hsim & Hwf2 & Hlen).
    exists st2, (ev :: evs). cbn [sim_cache]. rewrite Hacc. cbn [bind fst snd].
    rewrite Hsim. cbn [bind fst snd length]. auto.
Qed.

(** The store [init_cache] builds. *)
Lemma alloc_lines_all_ok (c : cache_config_t) (n : nat) : forall i acc tr,
  snd (alloc_lines all_ok c n i acc tr) = Done (acc ++ replicate n (fresh_set c)).
Proof.
  induction n as [|n IH]; intros i acc tr; cbn [alloc_lines all_ok].
  - simpl. rewrite app_nil_r. reflexivity.
  - rewrite IH, <- app_assoc. reflexivity.
Qed.

Lemma wf_fresh_store (c : cache_config_t) :
  valid_config c ->
  wf_state c (fresh_state c).
Proof.
  intros Hv. pose proof (assoc_bounds c Hv) as Ha.
  split; simpl.
  - apply length_replicate.
  - apply Forall_replicate. repeat split; simpl; try lia.
    apply length_replicate.
Qed.

Lemma init_cache_all_ok (c : cache_config_t) :
  valid_config c ->
  snd (init_cache all_ok c) =
  Done (c, replicate (Z.to_nat (set_num c)) (fresh_set c)).
Proof.
  intros Hv. pose proof Hv as (_ & _ & _ & Hd & Hc).
  destruct (valid_geometry c Hv) as (a & b & k & Hb & Hk & Ha & E).
  assert (Hsn : set_num c = 2 ^ (a - b - k)) by (rewrite E; reflexivity).
  assert (0 < 2 ^ (a - b - k)) by (apply pow2_pos; lia).
  assert (2 ^ (a - b - k) < 2 ^ 32) by (apply pow2_lt; lia).
  unfold init_cache. rewrite Hd. cbn [all_ok].
  pose proof (alloc_lines_all_ok c (Z.to_nat (u32 (set_num c))) 0 []
                [EvAllocSets (set_num c)]) as Hal.
  destruct (alloc_lines _ _ _ _ _ _) as [tr1 o1]. simpl in Hal. subst o1.
  destruct (check_config c) as [tr3 o3]. simpl in Hc. subst o3.
  simpl. rewrite u32_small by lia. reflexivity.
Qed.

Lemma alloc_lines_done (mem : nat -> bool) (c : cache_config_t) (n : nat) :
  forall i acc tr tr' store,
  alloc_lines mem c n i acc tr = (tr', Done store) ->
  store = acc ++ replicate n (fresh_set c).
Proof.
  induction n as [|n IH]; intros i acc tr tr' store H; cbn [alloc_lines] in H.
  - injection H as _ <-. simpl. rewrite app_nil_r. reflexivity.
  - destruct (mem (S (Z.to_nat i))); [|discriminate].
    apply IH in H. rewrite H, <- app_assoc. reflexivity.
Qed.

(** Whenever [init_cache] returns on positive sizes, whatever the allocator
    does, the configuration is valid and the store is the fresh one. *)
Lemma init_cache_done (mem : nat -> bool) (c0 c : cache_config_t)
    (tr : list event) (store : list cache_set_t) :
  pos_int (total_size c0) -> pos_int (block_size c0) ->
  pos_int (associativity c0) ->
  init_cache mem c0 = (tr, Done (c, store)) ->
  valid_config c /\ initial_state store = fresh_state c.
Proof.
  intros Hts Hbs Has H. unfold init_cache in H.
  destruct (derive_geometry c0) as [c1| | |] eqn:Hd; try discriminate.
  destruct (mem O); [|discriminate].
  destruct (alloc_lines _ _ _ _ _ _) as [tr1 [store1| | |]] eqn:Hal;
    try discriminate.
  destruct (check_config c1) as [tr3 [[]| | |]] eqn:Hc; try discriminate.
  injection H as _ <- <-.
  assert (Hf : total_size c1 = total_size c0 /\ block_size c1 = block_size c0 /\
               associativity c1 = associativity c0 /\ policy c1 = policy c0).
  { unfold derive_geometry in Hd.
    apply bind_done in Hd as (bn & _ & Hd). apply bind_done in Hd as (sn & _ & Hd).
    apply bind_done in Hd as (off & _ & Hd). apply bind_done in Hd as (idx & _ & Hd).
    injection Hd as <-. auto. }
  destruct Hf as (Ets & Ebs & Eas & Ep).
  assert (Hv : valid_config c1).
  { unfold valid_config. rewrite Ets, Ebs, Eas, Hc.
    repeat split; try assumption; try (unfold pos_int in *; lia).
    unfold derive_geometry in *. rewrite Ets, Ebs, Eas, Ep. exact Hd. }
  split; [exact Hv|].
  apply alloc_lines_done in Hal. subst store1.
  destruct (valid_geometry c1 Hv) as (a & b & k & Hb & Hk & Ha & E).
  assert (Hsn : set_num c1 = 2 ^ (a - b - k)) by (rewrite E; reflexivity).
  assert (0 < 2 ^ (a - b - k)) by (apply pow2_pos; lia).
  assert (2 ^ (a - b - k) < 2 ^ 32) by (apply pow2_lt; lia).
  unfold fresh_state. rewrite u32_small by lia. reflexivity.
Qed.

(** * The claims *)

(** ** C7: decode round trip *)

(** C7.  For every valid configuration and every address, the three decoding
    macros return, and shifting the tag and the index back to their places
    and or-ing them with the offset gives the low [ADDR_WIDTH] bits of the
    address. *)
Theorem decode_roundtrip (c : cache_config_t) (addr : Z) :
  valid_config c ->
  exists offset index t,
    GET_OFFSET c addr = Done offset /\
    GET_INDEX c addr = Done index /\
    GET_TAG c addr = Done t /\
    reconstruct c offset index t = addr mod 2 ^ ADDR_WIDTH.
Proof.
  intros Hv.
  destruct (valid_geometry c Hv) as (a & b & k & Hb & Hk & Ha & E).
  rewrite E.
  exists (Z.land addr (Z.ones b)),
         (Z.shiftr (Z.land addr (Z.ones (a - k))) b),
         (Z.shiftr (Z.land addr (Z.ones 32)) (a - k)).
  split; [apply GET_OFFSET_geometry; lia|].
  split; [apply GET_INDEX_geometry; lia|].
  split; [apply GET_TAG_geometry; lia|].
  unfold reconstruct, ADDR_WIDTH; simpl.
  replace (b + (a - b - k)) with (a - k) by lia.
  apply reconstruct_geometry; lia.
Qed.

Lemma decode_roundtrip_witness :
  valid_config cfg_direct /\
  exists offset index t,
    GET_OFFSET cfg_direct 3735928559 = Done offset /\
    GET_INDEX cfg_direct 3735928559 = Done index /\
    GET_TAG cfg_direct 3735928559 = Done t /\
    reconstruct cfg_direct offset index t = 3735928559 mod 2 ^ ADDR_WIDTH.
Proof.
  split; [valid_by_computation|].
  apply (decode_roundtrip cfg_direct 3735928559). valid_by_computation.
Defined.

(** ** C9: the decoded index is in bounds *)

(** C9.  For every valid configuration, every well-formed store and every
    address, the decoded index lies in [[0, set_num)], the set it selects
    exists, and the access returns normally. *)
Theorem index_in_bounds (rnd : nat -> Z) (c : cache_config_t) (st : sim_state)
    (addr : Z) :
  valid_config c -> wf_state c st -> rand_ok rnd ->
  exists index,
    GET_INDEX c addr = Done index /\
    0 <= index < set_num c /\
    is_Some (cache st !! Z.to_nat index) /\
    exists r, access_cache rnd c st addr = Done r.
Proof.
  intros Hv Hwf Hr.
  destruct (access_cache_cases rnd c st addr Hv Hwf Hr)
    as (index & t & cs & Hidx & _ & Hrange & Hcs & _ & _).
  destruct (access_cache_wf rnd c st addr Hv Hwf Hr) as (st' & ev & Hacc & _).
  exists index. repeat split; try assumption; try lia.
  - exists cs. exact Hcs.
  - exists (st', ev). exact Hacc.
Qed.

Lemma index_in_bounds_witness :
  valid_config cfg_direct /\ wf_state cfg_direct (fresh_state cfg_direct) /\
  rand_ok no_rand /\
  exists index,
    GET_INDEX cfg_direct 4294967295 = Done index /\
    0 <= index < set_num cfg_direct /\
    is_Some (cache (fresh_state cfg_direct) !! Z.to_nat index) /\
    exists r, access_cache no_rand cfg_direct (fresh_state cfg_direct) 4294967295
              = Done r.
Proof.
  assert (Hv : valid_config cfg_direct) by valid_by_computation.
  assert (Hwf : wf_state cfg_direct (fresh_state cfg_direct)) by wf_by_computation.
  assert (Hr : rand_ok no_rand) by (intros k; unfold no_rand, RAND_MAX; lia).
  split; [exact Hv|]. split; [exact Hwf|]. split; [exact Hr|].
  exact (index_in_bounds no_rand cfg_direct (fresh_state cfg_direct)
           4294967295 Hv Hwf Hr).
Defined.

(** ** C3: PLRU victim selection *)

(** C3.  For every valid configuration and every 64-bit [plru_bits],
    [find_and_updata_plru_victim_way] returns the state and the way of the
    walk the specification describes: from node 0, for [log2 associativity]
    levels, read the node's bit, flip it, go to child [2*i + 1 + bit], the
    way being the bits read, most significant first.  With associativity 1
    it returns way 0 and the set untouched. *)
Theorem plru_select_victim_walk (c : cache_config_t) (s : cache_set_t) :
  valid_config c -> 0 <= plru_bits s < 2 ^ 64 ->
  find_and_updata_plru_victim_way c s =
    Done (with_plru_bits s
            (fst (spec_select_victim (associativity c) (plru_bits s))),
          snd (spec_select_victim (associativity c) (plru_bits s))) /\
  (associativity c = 1 -> find_and_updata_plru_victim_way c s = Done (s, 0)).
Proof.
  intros Hv Hs. split.
  - apply find_plru_done; assumption.
  - intros E1. unfold find_and_updata_plru_victim_way. rewrite E1. reflexivity.
Qed.

Lemma plru_select_victim_walk_witness :
  valid_config cfg_plru4 /\ 0 <= plru_bits (mk_set [] 5 0) < 2 ^ 64 /\
  find_and_updata_plru_victim_way cfg_plru4 (mk_set [] 5 0) =
    Done (with_plru_bits (mk_set [] 5 0)
            (fst (spec_select_victim (associativity cfg_plru4) 5)),
          snd (spec_select_victim (associativity cfg_plru4) 5)) /\
  (associativity cfg_plru4 = 1 ->
   find_and_updata_plru_victim_way cfg_plru4 (mk_set [] 5 0) =
   Done (mk_set [] 5 0, 0)).
Proof.
  assert (Hv : valid_config cfg_plru4) by valid_by_computation.
  assert (Hs : 0 <= plru_bits (mk_set [] 5 0) < 2 ^ 64) by (simpl; lia).
  split; [exact Hv|]. split; [exact Hs|].
  exact (plru_select_victim_walk cfg_plru4 (mk_set [] 5 0) Hv Hs).
Defined.

(** ** C4: PLRU update on a hit *)

(** C4.  For every valid configuration, every 64-bit [plru_bits] and every
    way [w] below the associativity, [update_plru_victim_way] returns the
    state of the walk the specification describes: from node 0, for
    [log2 associativity] levels, take the next most significant decision bit
    of [w] as direction, set the node's bit to [1 - direction], go to child
    [2*i + 1 + direction].  With associativity 1 the set is untouched. *)
Theorem plru_on_hit_walk (c : cache_config_t) (s : cache_set_t) (w : Z) :
  valid_config c -> 0 <= plru_bits s < 2 ^ 64 -> 0 <= w < associativity c ->
  update_plru_victim_way c s w =
    Done (with_plru_bits s (spec_on_hit (associativity c) (plru_bits s) w)) /\
  (associativity c = 1 -> update_plru_victim_way c s w = Done s).
Proof.
  intros Hv Hs Hw. split.
  - apply update_plru_done; assumption.
  - intros E1. unfold update_plru_victim_way. rewrite E1. reflexivity.
Qed.

Lemma plru_on_hit_walk_witness :
  valid_config cfg_plru4 /\ 0 <= plru_bits (mk_set [] 5 0) < 2 ^ 64 /\
  0 <= 2 < associativity cfg_plru4 /\
  update_plru_victim_way cfg_plru4 (mk_set [] 5 0) 2 =
    Done (with_plru_bits (mk_set [] 5 0)
            (spec_on_hit (associativity cfg_plru4) 5 2)) /\
  (associativity cfg_plru4 = 1 ->
   update_plru_victim_way cfg_plru4 (mk_set [] 5 0) 2 = Done (mk_set [] 5 0)).
Proof.
  assert (Hv : valid_config cfg_plru4) by valid_by_computation.
  assert (Hs : 0 <= plru_bits (mk_set [] 5 0) < 2 ^ 64) by (simpl; lia).
  assert (Hw : 0 <= 2 < associativity cfg_plru4) by (simpl; lia).
  split; [exact Hv|]. split; [exact Hs|]. split; [exact Hw|].
  exact (plru_on_hit_walk cfg_plru4 (mk_set [] 5 0) 2 Hv Hs Hw).
Defined.

(** ** C5: PLRU never evicts the same way twice in a row *)

Lemma msb_first_head_differs (b : bool) (bs bs' : list bool) :
  length bs = length bs' ->
  msb_first (b :: bs) <> msb_first (negb b :: bs').
Proof.
  intros Hlen. rewrite !msb_first_cons, <- Hlen.
  pose proof (msb_first_range bs) as H1.
  pose proof (msb_first_range bs') as H2. rewrite <- Hlen in H2.
  destruct b; simpl Z.b2z; lia.
Qed.

(** Two victim walks in a row from the root end in different ways. *)
Lemma spec_victim_walk_twice (n : nat) (s : Z) :
  msb_first (snd (spec_victim_walk (S n) (fst (spec_victim_walk (S n) s 0)) 0))
  <> msb_first (snd (spec_victim_walk (S n) s 0)).
Proof.
  pose proof (spec_victim_walk_first n s 0 ltac:(lia)) as Hroot.
  set (s1 := fst (spec_victim_walk (S n) s 0)) in *.
  cbn [spec_victim_walk fst snd].
  rewrite Hroot. apply not_eq_sym.
  apply msb_first_head_differs.
  rewrite !spec_victim_walk_length. reflexivity.
Qed.

(** C5.  For every valid configuration with associativity at least 2 and
    every 64-bit [plru_bits], two victim selections in a row on the same set,
    with no hit in between, both return, and the second way differs from the
    first. *)
Theorem plru_anti_thrash (c : cache_config_t) (s : cache_set_t) :
  valid_config c -> 2 <= associativity c -> 0 <= plru_bits s < 2 ^ 64 ->
  exists s1 w1 s2 w2,
    find_and_updata_plru_victim_way c s = Done (s1, w1) /\
    find_and_updata_plru_victim_way c s1 = Done (s2, w2) /\
    w2 <> w1.
Proof.
  intros Hv H2 Hs.
  destruct (tree_level_valid c Hv) as (k & Hk & Ek & _ & Elog).
  destruct (spec_select_victim_range (associativity c) (plru_bits s) k Hk Ek Hs)
    as [Hs1 _].
  rewrite (find_plru_done c s Hv Hs).
  do 4 eexists. split; [reflexivity|].
  split; [apply find_plru_done; [exact Hv|exact Hs1]|].
  cbn [plru_bits with_plru_bits]. unfold spec_select_victim.
  destruct (Z.eqb_spec (associativity c) 1) as [E1|_]; [lia|].
  rewrite Elog. cbn [fst snd].
  assert (Hk1 : 1 <= k).
  { destruct (Z.eq_dec k 0) as [->|]; [|lia]. change (2 ^ 0) with 1 in Ek. lia. }
  destruct (Z.to_nat k) as [|n] eqn:En; [lia|].
  apply spec_victim_walk_twice.
Qed.

Lemma plru_anti_thrash_witness :
  valid_config cfg_plru4 /\ 2 <= associativity cfg_plru4 /\
  0 <= plru_bits (mk_set [] 5 0) < 2 ^ 64 /\
  exists s1 w1 s2 w2,
    find_and_updata_plru_victim_way cfg_plru4 (mk_set [] 5 0) = Done (s1, w1) /\
    find_and_updata_plru_victim_way cfg_plru4 s1 = Done (s2, w2) /\
    w2 <> w1.
Proof.
  assert (Hv : valid_config cfg_plru4) by valid_by_computation.
  assert (Ha : 2 <= associativity cfg_plru4) by (simpl; lia).
  assert (Hs : 0 <= plru_bits (mk_set [] 5 0) < 2 ^ 64) by (simpl; lia).
  split; [exact Hv|]. split; [exact Ha|]. split; [exact Hs|].
  exact (plru_anti_thrash cfg_plru4 (mk_set [] 5 0) Hv Ha Hs).
Defined.

(** ** C10: the hit path agrees with the miss path *)

(** C10.  For every valid configuration with associativity at least 2 and
    every 64-bit [plru_bits], victim selection returns a way [w] and a set
    [s1], and the hit update for way [w] applied to [s1] returns [s1]
    unchanged. *)
Theorem plru_path_consistency (c : cache_config_t) (s : cache_set_t) :
  valid_config c -> 2 <= associativity c -> 0 <= plru_bits s < 2 ^ 64 ->
  exists s1 w,
    find_and_updata_plru_victim_way c s = Done (s1, w) /\
    0 <= w < associativity c /\
    update_plru_victim_way c s1 w = Done s1.
Proof.
  intros Hv H2 Hs.
  destruct (tree_level_valid c Hv) as (k & Hk & Ek & _ & Elog).
  destruct (spec_select_victim_range (associativity c) (plru_bits s) k Hk Ek Hs)
    as [Hs1 Hw].
  rewrite (find_plru_done c s Hv Hs).
  do 2 eexists. split; [reflexivity|]. split; [exact Hw|].
  rewrite update_plru_done by assumption.
  cbn [plru_bits with_plru_bits]. f_equal.
  unfold with_plru_bits; cbn [cache_line plru_bits fifo_pointer]. f_equal.
  unfold spec_on_hit, spec_select_victim.
  destruct (Z.eqb_spec (associativity c) 1) as [E1|_]; [lia|].
  rewrite Elog. cbn [fst snd].
  set (r := spec_victim_walk (Z.to_nat k) (plru_bits s) 0).
  rewrite <- (spec_victim_walk_length (Z.to_nat k) (plru_bits s) 0) at 1.
  fold r. rewrite decision_bits_msb_first.
  apply spec_hit_walk_after_victim. lia.
Qed.

Lemma plru_path_consistency_witness :
  valid_config cfg_plru4 /\ 2 <= associativity cfg_plru4 /\
  0 <= plru_bits (mk_set [] 5 0) < 2 ^ 64 /\
  exists s1 w,
    find_and_updata_plru_victim_way cfg_plru4 (mk_set [] 5 0) = Done (s1, w) /\
    0 <= w < associativity cfg_plru4 /\
    update_plru_victim_way cfg_plru4 s1 w = Done s1.
Proof.
  assert (Hv : valid_config cfg_plru4) by valid_by_computation.
  assert (Ha : 2 <= associativity cfg_plru4) by (simpl; lia).
  assert (Hs : 0 <= plru_bits (mk_set [] 5 0) < 2 ^ 64) by (simpl; lia).
  split; [exact Hv|]. split; [exact Ha|]. split; [exact Hs|].
  exact (plru_path_consistency cfg_plru4 (mk_set [] 5 0) Hv Ha Hs).
Defined.

(** ** C2: hit and miss *)

Lemma line_matches_iff (t : Z) (l : cache_line_t) :
  line_matches t l = true <-> valid l <> 0 /\ tag l = t.
Proof.
  unfold line_matches. rewrite andb_true_iff, negb_true_iff, Z.eqb_eq, Z.eqb_neq.
  intuition congruence.
Qed.

Lemma lines_after_hit (st : sim_state) (i : nat) (cs cs' : cache_set_t) :
  cache st !! i = Some cs -> cache_line cs' = cache_line cs ->
  cache_line <$> <[i := cs']> (cache st) = cache_line <$> cache st.
Proof.
  intros Hcs Hl. rewrite list_fmap_insert, Hl.
  apply list_insert_id. rewrite list_lookup_fmap, Hcs. reflexivity.
Qed.

(** C2.  For every valid configuration, well-formed store and address, the
    access returns; it is a hit exactly when some line of the set selected
    by the decoded index has a non-zero valid flag and the decoded tag.  On a
    hit the hit counter is incremented and every line of the store is as
    before.  On a miss the way is the one the configured policy selects, and
    the lines of the store are as before except that this way of this set
    holds the decoded tag with valid flag 1. *)
Theorem access_hit_or_miss (rnd : nat -> Z) (c : cache_config_t)
    (st : sim_state) (addr : Z) :
  valid_config c -> wf_state c st -> rand_ok rnd ->
  exists index t cs st' res,
    GET_INDEX c addr = Done index /\ GET_TAG c addr = Done t /\
    cache st !! Z.to_nat index = Some cs /\
    access_cache rnd c st addr = Done (st', (index, res)) /\
    (is_hit res = true <->
     exists l, l ∈ cache_line cs /\ valid l <> 0 /\ tag l = t) /\
    match res with
    | Hit w =>
        total_hit_times st' = u64 (total_hit_times st + 1) /\
        cache_line <$> cache st' = cache_line <$> cache st
    | Miss v =>
        total_hit_times st' = total_hit_times st /\
        (exists cs1, select_victim c (rnd (rand_calls st)) cs = Done (cs1, v)) /\
        0 <= v < associativity c /\
        cache_line <$> cache st' =
        <[Z.to_nat index := <[Z.to_nat v := mk_line 1 t]> (cache_line cs)]>
          (cache_line <$> cache st)
    end.
Proof.
  intros Hv Hwf Hr.
  destruct (access_cache_cases rnd c st addr Hv Hwf Hr)
    as (index & t & cs & Hidx & Htag & _ & Hcs & _ & [Hhit|Hmiss]).
  - destruct Hhit as (w & l & cs' & _ & Hl & Hm & _ & _ & Hl' & _ & _ & Hacc).
    exists index, t, cs. do 2 eexists.
    do 4 (split; [eassumption|]). split.
    + split; [intros _|reflexivity].
      exists l. split; [eapply list_elem_of_lookup_2; exact Hl|].
      apply line_matches_iff. exact Hm.
    + cbn [total_hit_times cache]. split; [reflexivity|].
      apply (lines_after_hit st _ cs cs'); assumption.
  - destruct Hmiss as (Hnone & cs1 & v & calls & Hsel & Hvr & Hl1 & _ & Hacc).
    exists index, t, cs. do 2 eexists.
    do 4 (split; [eassumption|]). split.
    + split; [discriminate|].
      intros (l & Hin & Hl). apply list_elem_of_lookup_1 in Hin as [j Hj].
      apply line_matches_iff in Hl. rewrite (Hnone j l Hj) in Hl. discriminate.
    + cbn [total_hit_times cache]. split; [reflexivity|].
      split; [exists cs1; exact Hsel|]. split; [exact Hvr|].
      rewrite list_fmap_insert. cbn [with_cache_line cache_line].
      rewrite Hl1. reflexivity.
Qed.

Lemma access_hit_or_miss_witness :
  valid_config cfg_direct /\ wf_state cfg_direct (fresh_state cfg_direct) /\
  rand_ok no_rand /\
  exists index t cs st' res,
    GET_INDEX cfg_direct 12 = Done index /\ GET_TAG cfg_direct 12 = Done t /\
    cache (fresh_state cfg_direct) !! Z.to_nat index = Some cs /\
    access_cache no_rand cfg_direct (fresh_state cfg_direct) 12
      = Done (st', (index, res)) /\
    (is_hit res = true <->
     exists l, l ∈ cache_line cs /\ valid l <> 0 /\ tag l = t) /\
    match res with
    | Hit w =>
        total_hit_times st' = u64 (total_hit_times (fresh_state cfg_direct) + 1) /\
        cache_line <$> cache st' = cache_line <$> cache (fresh_state cfg_direct)
    | Miss v =>
        total_hit_times st' = total_hit_times (fresh_state cfg_direct) /\
        (exists cs1,
            select_victim cfg_direct
              (no_rand (rand_calls (fresh_state cfg_direct))) cs
            = Done (cs1, v)) /\
        0 <= v < associativity cfg_direct /\
        cache_line <$> cache st' =
        <[Z.to_nat index := <[Z.to_nat v := mk_line 1 t]> (cache_line cs)]>
          (cache_line <$> cache (fresh_state cfg_direct))
    end.
Proof.
  assert (Hv : valid_config cfg_direct) by valid_by_computation.
  assert (Hwf : wf_state cfg_direct (fresh_state cfg_direct)) by wf_by_computation.
  assert (Hr : rand_ok no_rand) by (intros k; unfold no_rand, RAND_MAX; lia).
  split; [exact Hv|]. split; [exact Hwf|]. split; [exact Hr|].
  exact (access_hit_or_miss no_rand cfg_direct (fresh_state cfg_direct) 12
           Hv Hwf Hr).
Defined.

(** ** C8: the two counters *)

(** C8.  For every valid configuration and well-formed store whose counters
    satisfy [total_hit_times <= total_access_times] and have not reached the
    end of their 64-bit range, an access returns, increments
    [total_access_times] by exactly one and [total_hit_times] by zero or one,
    and [total_hit_times <= total_access_times] holds again. *)
Theorem counters_step (rnd : nat -> Z) (c : cache_config_t) (st : sim_state)
    (addr : Z) :
  valid_config c -> wf_state c st -> rand_ok rnd ->
  0 <= total_hit_times st <= total_access_times st ->
  total_access_times st < 2 ^ 64 - 1 ->
  exists st' ev,
    access_cache rnd c st addr = Done (st', ev) /\
    total_access_times st' = total_access_times st + 1 /\
    (total_hit_times st' = total_hit_times st \/
     total_hit_times st' = total_hit_times st + 1) /\
    0 <= total_hit_times st' <= total_access_times st'.
Proof.
  intros Hv Hwf Hr Hinv Hmax.
  destruct (access_cache_cases rnd c st addr Hv Hwf Hr)
    as (index & t & cs & _ & _ & _ & _ & _ & [Hhit|Hmiss]).
  - destruct Hhit as (w & l & cs' & _ & _ & _ & _ & _ & _ & _ & _ & Hacc).
    do 2 eexists. split; [exact Hacc|].
    cbn [total_access_times total_hit_times].
    rewrite !u64_small by lia. lia.
  - destruct Hmiss as (_ & cs1 & v & calls & _ & _ & _ & _ & Hacc).
    do 2 eexists. split; [exact Hacc|].
    cbn [total_access_times total_hit_times].
    rewrite !u64_small by lia. lia.
Qed.

Lemma counters_step_witness :
  valid_config cfg_direct /\ wf_state cfg_direct (fresh_state cfg_direct) /\
  rand_ok no_rand /\
  0 <= total_hit_times (fresh_state cfg_direct)
    <= total_access_times (fresh_state cfg_direct) /\
  total_access_times (fresh_state cfg_direct) < 2 ^ 64 - 1 /\
  exists st' ev,
    access_cache no_rand cfg_direct (fresh_state cfg_direct) 8 = Done (st', ev) /\
    total_access_times st' = total_access_times (fresh_state cfg_direct) + 1 /\
    (total_hit_times st' = total_hit_times (fresh_state cfg_direct) \/
     total_hit_times st' = total_hit_times (fresh_state cfg_direct) + 1) /\
    0 <= total_hit_times st' <= total_access_times st'.
Proof.
  assert (Hv : valid_config cfg_direct) by valid_by_computation.
  assert (Hwf : wf_state cfg_direct (fresh_state cfg_direct)) by wf_by_computation.
  assert (Hr : rand_ok no_rand) by (intros k; unfold no_rand, RAND_MAX; lia).
  assert (Hinv : 0 <= total_hit_times (fresh_state cfg_direct)
                   <= total_access_times (fresh_state cfg_direct))
    by (simpl; lia).
  assert (Hmax : total_access_times (fresh_state cfg_direct) < 2 ^ 64 - 1)
    by (simpl; lia).
  split; [exact Hv|]. split; [exact Hwf|]. split; [exact Hr|].
  split; [exact Hinv|]. split; [exact Hmax|].
  exact (counters_step no_rand cfg_direct (fresh_state cfg_direct) 8
           Hv Hwf Hr Hinv Hmax).
Defined.

(** ** C6: the FIFO pointer *)

Lemma field_after_insert {A : Type} (f : cache_set_t -> A) (l : list cache_set_t)
    (i : nat) (cs cs' : cache_set_t) :
  l !! i = Some cs -> f cs' = f cs -> f <$> <[i := cs']> l = f <$> l.
Proof.
  intros Hcs Hf. rewrite list_fmap_insert, Hf.
  apply list_insert_id. rewrite list_lookup_fmap, Hcs. reflexivity.
Qed.

Lemma fifo_of_fmap (st st' : sim_state) :
  fifo_pointer <$> cache st' = fifo_pointer <$> cache st ->
  forall s, fifo_of st' s = fifo_of st s.
Proof.
  intros H s. unfold fifo_of.
  assert (E : fifo_pointer <$> (cache st' !! Z.to_nat s) =
              fifo_pointer <$> (cache st !! Z.to_nat s))
    by (rewrite <- !list_lookup_fmap, H; reflexivity).
  destruct (cache st' !! Z.to_nat s), (cache st !! Z.to_nat s);
    simpl in *; congruence.
Qed.

Lemma fifo_of_range (c : cache_config_t) (st : sim_state) (s : Z) :
  valid_config c -> wf_state c st -> 0 <= fifo_of st s < associativity c.
Proof.
  intros Hv [_ Hall]. pose proof (assoc_bounds c Hv) as Ha.
  unfold fifo_of. destruct (cache st !! Z.to_nat s) as [cs|] eqn:Hcs; simpl.
  - apply (Forall_lookup_1 _ _ _ _ Hall Hcs).
  - lia.
Qed.

(** What one access does to the FIFO pointers under the FIFO policy. *)
Lemma fifo_step (rnd : nat -> Z) (c : cache_config_t) (st : sim_state) (addr : Z) :
  valid_config c -> policy c = POLICY_FIFO -> wf_state c st -> rand_ok rnd ->
  exists st' i res,
    access_cache rnd c st addr = Done (st', (i, res)) /\
    wf_state c st' /\ 0 <= i /\
    match res with
    | Hit _ => fifo_pointer <$> cache st' = fifo_pointer <$> cache st
    | Miss v =>
        v = fifo_of st i /\
        fifo_of st' i = (v + 1) mod associativity c /\
        forall s, 0 <= s -> s <> i -> fifo_of st' s = fifo_of st s
    end.
Proof.
  intros Hv Hp Hwf Hr. pose proof (assoc_bounds c Hv) as Ha.
  destruct (access_cache_cases rnd c st addr Hv Hwf Hr)
    as (index & t & cs & _ & _ & Hrange & Hcs & Hwfcs & [Hhit|Hmiss]).
  - destruct Hhit as (w & l & cs' & _ & _ & _ & _ & _ & _ & Hf' & Hwf' & Hacc).
    do 3 eexists. split; [exact Hacc|].
    split; [apply wf_state_insert; assumption|]. split; [lia|].
    cbn [cache]. apply (field_after_insert _ _ _ cs cs'); assumption.
  - destruct Hmiss as (_ & cs1 & v & calls & Hsel & Hvr & Hl1 & Hwf1 & Hacc).
    do 3 eexists. split; [exact Hacc|].
    split; [apply wf_state_insert; [assumption|apply wf_set_install; exact Hwf1]|].
    split; [lia|].
    unfold select_victim in Hsel. rewrite Hp in Hsel.
    unfold find_and_update_fifo_victim_way in Hsel.
    rewrite u64_small in Hsel by lia.
    destruct (Z.eqb_spec (associativity c) 0); [lia|].
    injection Hsel as <- <-.
    destruct Hwfcs as (_ & Hfifo & _).
    assert (Hlt : (Z.to_nat index < length (cache st))%nat)
      by (apply lookup_lt_is_Some_1; eauto).
    repeat split.
    + unfold fifo_of. rewrite Hcs. reflexivity.
    + unfold fifo_of; cbn [cache].
      rewrite list_lookup_insert_eq by exact Hlt. simpl.
      rewrite u64_small by lia. reflexivity.
    + intros s Hs Hne. unfold fifo_of; cbn [cache].
      rewrite list_lookup_insert_ne by lia. reflexivity.
Qed.

Lemma fifo_run (rnd : nat -> Z) (c : cache_config_t) :
  valid_config c -> policy c = POLICY_FIFO -> rand_ok rnd ->
  forall addrs st, wf_state c st ->
  exists st' evs,
    sim_cache rnd c st addrs = Done (st', evs) /\
    forall s, 0 <= s ->
      victims_of s evs =
      map (fun j => (fifo_of st s + Z.of_nat j) mod associativity c)
          (seq 0 (length (victims_of s evs))).
Proof.
  intros Hv Hp Hr. pose proof (assoc_bounds c Hv) as Ha.
  induction addrs as [|a rest IH]; intros st Hwf.
  - exists st, []. split; [reflexivity|]. intros s _. reflexivity.
  - destruct (fifo_step rnd c st a Hv Hp Hwf Hr)
      as (st1 & i & res & Hacc & Hwf1 & Hi & Hres).
    destruct (IH st1 Hwf1) as (st2 & evs & Hsim & Hvict).
    exists st2, ((i, res) :: evs). split.
    { cbn [sim_cache]. rewrite Hacc. cbn [bind fst snd].
      rewrite Hsim. reflexivity. }
    intros s Hs. specialize (Hvict s Hs).
    destruct res as [w|v]; cbn [victims_of].
    + rewrite Hvict at 1. rewrite (fifo_of_fmap _ _ Hres s). reflexivity.
    + destruct Hres as (Ev & Enext & Hother).
      destruct (Z.eqb_spec i s) as [->|Hne].
      * cbn [length seq map]. f_equal.
        { pose proof (fifo_of_range c st s Hv Hwf).
          rewrite Z.add_0_r, Z.mod_small by lia. exact Ev. }
        rewrite Hvict at 1. rewrite <- seq_shift, map_map.
        apply map_ext. intros j.
        rewrite Enext, Ev, Zplus_mod_idemp_l. f_equal. lia.
      * rewrite Hvict at 1. rewrite (Hother s Hs ltac:(lia)). reflexivity.
Qed.

Lemma fifo_of_fresh (c : cache_config_t) (s : Z) : fifo_of (fresh_state c) s = 0.
Proof.
  unfold fifo_of, fresh_state, initial_state; cbn [cache].
  destruct (replicate _ _ !! _) as [cs|] eqn:E; [|reflexivity].
  apply lookup_replicate_1 in E as [-> _]. reflexivity.
Qed.

(** One access under FIFO, in full: a hit needs a valid line with the tag
    and moves no pointer; with no such line the access misses, evicts the
    way the set's pointer names, installs the tag there and advances that
    pointer by one modulo the associativity. *)
Lemma fifo_access (rnd : nat -> Z) (c : cache_config_t) (st : sim_state)
    (addr : Z) :
  valid_config c -> policy c = POLICY_FIFO -> rand_ok rnd -> wf_state c st ->
  exists index t cs st' res,
    GET_INDEX c addr = Done index /\ GET_TAG c addr = Done t /\
    cache st !! Z.to_nat index = Some cs /\
    access_cache rnd c st addr = Done (st', (index, res)) /\
    match res with
    | Hit w =>
        (exists l, cache_line cs !! Z.to_nat w = Some l /\
                   valid l <> 0 /\ tag l = t) /\
        fifo_pointer <$> cache st' = fifo_pointer <$> cache st
    | Miss v =>
        (forall l, l ∈ cache_line cs -> ~ (valid l <> 0 /\ tag l = t)) /\
        v = fifo_pointer cs /\
        (exists cs', cache st' !! Z.to_nat index = Some cs' /\
                     fifo_pointer cs' = (fifo_pointer cs + 1) mod associativity c /\
                     cache_line cs' =
                       <[Z.to_nat v := mk_line 1 t]> (cache_line cs)) /\
        (forall s, 0 <= s -> s <> index -> fifo_of st' s = fifo_of st s)
    end.
Proof.
  intros Hv Hp Hr Hwf. pose proof (assoc_bounds c Hv) as Ha.
  destruct (access_cache_cases rnd c st addr Hv Hwf Hr)
    as (index & t & cs & Hidx & Htag & Hrange & Hcs & Hwfcs & [Hhit|Hmiss]).
  - destruct Hhit as (w & l & cs' & _ & Hl & Hm & _ & _ & _ & Hf' & _ & Hacc).
    exists index, t, cs. do 2 eexists.
    do 4 (split; [eassumption|]). split.
    + exists l. rewrite Nat2Z.id. split; [exact Hl|].
      apply line_matches_iff. exact Hm.
    + cbn [cache]. apply (field_after_insert _ _ _ cs cs'); assumption.
  - destruct Hmiss as (Hnone & cs1 & v & calls & Hsel & Hvr & Hl1 & _ & Hacc).
    exists index, t, cs. do 2 eexists.
    do 4 (split; [eassumption|]).
    unfold select_victim in Hsel. rewrite Hp in Hsel.
    unfold find_and_update_fifo_victim_way in Hsel.
    rewrite u64_small in Hsel by lia.
    destruct (Z.eqb_spec (associativity c) 0); [lia|].
    injection Hsel as <- <-.
    destruct Hwfcs as (_ & Hfifo & _).
    assert (Hlt : (Z.to_nat index < length (cache st))%nat)
      by (apply lookup_lt_is_Some_1; eauto).
    split; [|split; [reflexivity|split]].
    + intros l Hin Hl. apply list_elem_of_lookup_1 in Hin as [j Hj].
      apply line_matches_iff in Hl. rewrite (Hnone j l Hj) in Hl. discriminate.
    + eexists. cbn [cache]. split; [apply list_lookup_insert_eq; exact Hlt|].
      cbn [with_cache_line with_fifo_pointer cache_line fifo_pointer].
      rewrite u64_small by lia. split; reflexivity.
    + intros s Hs Hne. unfold fifo_of; cbn [cache].
      rewrite list_lookup_insert_ne by lia. reflexivity.
Qed.

(** One access keeps the lines of the store within the blocks of the
    addresses seen so far, and misses when its own block was not among
    them. *)
Lemma access_step_seen (rnd : nat -> Z) (c : cache_config_t) (st : sim_state)
    (seen : list Z) (a : Z) :
  valid_config c -> rand_ok rnd -> wf_state c st -> lines_from c st seen ->
  exists st1 i res,
    access_cache rnd c st a = Done (st1, (i, res)) /\
    GET_INDEX c a = Done i /\
    wf_state c st1 /\ lines_from c st1 (a :: seen) /\
    ((forall a', a' ∈ seen -> ~ same_block c a a') -> is_hit res = false).
Proof.
  intros Hv Hr Hwf Hfrom.
  destruct (access_cache_cases rnd c st a Hv Hwf Hr)
    as (index & t & cs & Hidx & Htag & Hrange & Hcs & Hwfcs & Hcase).
  assert (Hlt : (Z.to_nat index < length (cache st))%nat)
    by (apply lookup_lt_is_Some_1; eauto).
  assert (Hold : forall i cs0 l, cache st !! i = Some cs0 -> l ∈ cache_line cs0 ->
            valid l <> 0 ->
            exists a', a' ∈ a :: seen /\ GET_INDEX c a' = Done (Z.of_nat i) /\
                       GET_TAG c a' = Done (tag l)).
  { intros i cs0 l H1 H2 H3. destruct (Hfrom i cs0 l H1 H2 H3) as (a' & Hin & Hb).
    exists a'. split; [apply list_elem_of_further; exact Hin|exact Hb]. }
  destruct Hcase as [Hhit|Hmiss].
  - destruct Hhit as (w & l & cs' & _ & Hl & Hm & _ & _ & Hl' & _ & Hwf' & Hacc).
    do 3 eexists. split; [exact Hacc|]. split; [exact Hidx|].
    split; [apply wf_state_insert; assumption|]. split.
    + intros i cs0 l0 Hi Hin Hval. cbn [cache] in Hi.
      destruct (Nat.eq_dec (Z.to_nat index) i) as [<-|Hne].
      * rewrite list_lookup_insert_eq in Hi by exact Hlt. injection Hi as <-.
        rewrite Hl' in Hin. exact (Hold _ cs l0 Hcs Hin Hval).
      * rewrite list_lookup_insert_ne in Hi by exact Hne.
        exact (Hold i cs0 l0 Hi Hin Hval).
    + intros Hnew. exfalso.
      apply line_matches_iff in Hm as [Hval Htl].
      destruct (Hfrom _ cs l Hcs (list_elem_of_lookup_2 _ _ _ Hl) Hval)
        as (a' & Hin & Hi' & Ht').
      apply (Hnew a' Hin). unfold same_block.
      rewrite Hi', Ht', Hidx, Htag, Z2Nat.id, Htl by lia. split; reflexivity.
  - destruct Hmiss as (_ & cs1 & v & calls & _ & Hvr & Hl1 & Hwf1 & Hacc).
    do 3 eexists. split; [exact Hacc|]. split; [exact Hidx|].
    split; [apply wf_state_insert;
            [assumption|apply wf_set_install; exact Hwf1]|].
    split; [|reflexivity].
    intros i cs0 l0 Hi Hin Hval. cbn [cache] in Hi.
    destruct (Nat.eq_dec (Z.to_nat index) i) as [<-|Hne].
    + rewrite list_lookup_insert_eq in Hi by exact Hlt. injection Hi as <-.
      cbn [with_cache_line cache_line] in Hin. rewrite Hl1 in Hin.
      apply list_elem_of_lookup_1 in Hin as [j Hj].
      apply list_lookup_insert_Some in Hj as [(_ & <- & _)|[_ Hj]].
      * exists a. split; [apply list_elem_of_here|].
        rewrite Z2Nat.id by lia. split; assumption.
      * exact (Hold _ cs l0 Hcs (list_elem_of_lookup_2 _ _ _ Hj) Hval).
    + rewrite list_lookup_insert_ne in Hi by exact Hne.
      exact (Hold i cs0 l0 Hi Hin Hval).
Qed.

(** Over a run there is one event per address, in the set the address
    decodes to, and the first access to a block is a miss. *)
Lemma first_access_misses (rnd : nat -> Z) (c : cache_config_t) :
  valid_config c -> rand_ok rnd ->
  forall addrs st seen, wf_state c st -> lines_from c st seen ->
  exists st' evs,
    sim_cache rnd c st addrs = Done (st', evs) /\
    Forall2 (fun a ev => GET_INDEX c a = Done (fst ev)) addrs evs /\
    forall (k : nat) a,
      addrs !! k = Some a ->
      (forall a', a' ∈ seen -> ~ same_block c a a') ->
      (forall (j : nat) a', (j < k)%nat -> addrs !! j = Some a' ->
                            ~ same_block c a a') ->
      exists i v, evs !! k = Some (i, Miss v).
Proof.
  intros Hv Hr. induction addrs as [|a rest IH]; intros st seen Hwf Hfrom.
  - exists st, []. split; [reflexivity|]. split; [constructor|].
    intros k a Hk. discriminate.
  - destruct (access_step_seen rnd c st seen a Hv Hr Hwf Hfrom)
      as (st1 & i & res & Hacc & Hidx & Hwf1 & Hfrom1 & Hmiss).
    destruct (IH st1 (a :: seen) Hwf1 Hfrom1) as (st2 & evs & Hsim & Hall & Hcold).
    exists st2, ((i, res) :: evs). split.
    { cbn [sim_cache]. rewrite Hacc. cbn [bind fst snd]. rewrite Hsim. reflexivity. }
    split; [constructor; [exact Hidx|exact Hall]|].
    intros k ak Hk Hseen Hbefore. destruct k as [|k].
    + cbn in Hk. injection Hk as <-.
      specialize (Hmiss Hseen). destruct res as [w|v]; [discriminate|].
      exists i, v. reflexivity.
    + cbn in Hk. apply (Hcold k ak Hk).
      * intros a' Hin. apply elem_of_cons in Hin as [->|Hin].
        -- apply (Hbefore O a); [lia|reflexivity].
        -- apply Hseen. exact Hin.
      * intros j a' Hj Hlk. apply (Hbefore (S j) a'); [lia|exact Hlk].
Qed.

Lemma lines_from_fresh (c : cache_config_t) : lines_from c (fresh_state c) [].
Proof.
  intros i cs l Hi Hin Hval. exfalso.
  unfold fresh_state, initial_state in Hi; cbn [cache] in Hi.
  apply lookup_replicate_1 in Hi as [-> _].
  unfold fresh_set in Hin; cbn [cache_line] in Hin.
  apply list_elem_of_lookup_1 in Hin as [j Hj].
  apply lookup_replicate_1 in Hj as [-> _]. apply Hval. reflexivity.
Qed.

(** C6.  For every valid configuration with the FIFO policy:
    a run from the store [init_cache] builds returns for every trace, with
    one event per address in the set the address decodes to; the first
    access to each block is a miss; and for every set the victims of its
    misses are, in order, [0, 1, ..., associativity - 1, 0, 1, ...] from the
    initial pointer 0, whatever hits come in between.
    Each single access, from any well-formed store, hits exactly when a valid
    line of the selected set holds the tag, and then leaves every FIFO pointer
    of the store as it was; otherwise it misses, evicts the way the set's
    pointer names, installs the tag there, advances that pointer by one
    modulo the associativity and leaves the pointers of the other sets. *)
Theorem fifo_victim_sequence (rnd : nat -> Z) (c : cache_config_t)
    (addrs : list Z) :
  valid_config c -> policy c = POLICY_FIFO -> rand_ok rnd ->
  (exists st' evs,
      sim_cache rnd c (fresh_state c) addrs = Done (st', evs) /\
      Forall2 (fun a ev => GET_INDEX c a = Done (fst ev)) addrs evs /\
      (forall (k : nat) a,
          addrs !! k = Some a ->
          (forall (j : nat) a', (j < k)%nat -> addrs !! j = Some a' ->
                                ~ same_block c a a') ->
          exists i v, evs !! k = Some (i, Miss v)) /\
      forall s, 0 <= s < set_num c ->
        victims_of s evs =
        map (fun j => Z.of_nat j mod associativity c)
            (seq 0 (length (victims_of s evs)))) /\
  (forall st addr,
      wf_state c st ->
      exists index t cs st' res,
        GET_INDEX c addr = Done index /\ GET_TAG c addr = Done t /\
        cache st !! Z.to_nat index = Some cs /\
        access_cache rnd c st addr = Done (st', (index, res)) /\
        match res with
        | Hit w =>
            (exists l, cache_line cs !! Z.to_nat w = Some l /\
                       valid l <> 0 /\ tag l = t) /\
            fifo_pointer <$> cache st' = fifo_pointer <$> cache st
        | Miss v =>
            (forall l, l ∈ cache_line cs -> ~ (valid l <> 0 /\ tag l = t)) /\
            v = fifo_pointer cs /\
            (exists cs', cache st' !! Z.to_nat index = Some cs' /\
                         fifo_pointer cs' =
                           (fifo_pointer cs + 1) mod associativity c /\
                         cache_line cs' =
                           <[Z.to_nat v := mk_line 1 t]> (cache_line cs)) /\
            (forall s, 0 <= s -> s <> index -> fifo_of st' s = fifo_of st s)
        end).
Proof.
  intros Hv Hp Hr. split.
  - destruct (fifo_run rnd c Hv Hp Hr addrs (fresh_state c) (wf_fresh_store c Hv))
      as (st' & evs & Hsim & Hvict).
    destruct (first_access_misses rnd c Hv Hr addrs (fresh_state c) []
                (wf_fresh_store c Hv) (lines_from_fresh c))
      as (st2 & evs2 & Hsim2 & Hall & Hcold).
    rewrite Hsim in Hsim2. injection Hsim2 as <- <-.
    exists st', evs. split; [exact Hsim|]. split; [exact Hall|]. split.
    + intros k a Hk Hbefore. apply (Hcold k a Hk); [|exact Hbefore].
      intros a' Hin. apply elem_of_nil in Hin. contradiction.
    + intros s Hs. rewrite (Hvict s) at 1 by lia.
      apply map_ext. intros j. rewrite fifo_of_fresh. reflexivity.
  - intros st addr Hwf. apply fifo_access; assumption.
Qed.

Lemma fifo_victim_sequence_witness :
  valid_config cfg_fifo2 /\ policy cfg_fifo2 = POLICY_FIFO /\ rand_ok no_rand /\
  (exists st' evs,
      sim_cache no_rand cfg_fifo2 (fresh_state cfg_fifo2) [0; 4; 8; 0]
        = Done (st', evs) /\
      Forall2 (fun a ev => GET_INDEX cfg_fifo2 a = Done (fst ev))
        [0; 4; 8; 0] evs /\
      (forall (k : nat) a,
          [0; 4; 8; 0] !! k = Some a ->
          (forall (j : nat) a', (j < k)%nat -> [0; 4; 8; 0] !! j = Some a' ->
                                ~ same_block cfg_fifo2 a a') ->
          exists i v, evs !! k = Some (i, Miss v)) /\
      forall s, 0 <= s < set_num cfg_fifo2 ->
        victims_of s evs =
        map (fun j => Z.of_nat j mod associativity cfg_fifo2)
            (seq 0 (length (victims_of s evs)))) /\
  (forall st addr,
      wf_state cfg_fifo2 st ->
      exists index t cs st' res,
        GET_INDEX cfg_fifo2 addr = Done index /\
        GET_TAG cfg_fifo2 addr = Done t /\
        cache st !! Z.to_nat index = Some cs /\
        access_cache no_rand cfg_fifo2 st addr = Done (st', (index, res)) /\
        match res with
        | Hit w =>
            (exists l, cache_line cs !! Z.to_nat w = Some l /\
                       valid l <> 0 /\ tag l = t) /\
            fifo_pointer <$> cache st' = fifo_pointer <$> cache st
        | Miss v =>
            (forall l, l ∈ cache_line cs -> ~ (valid l <> 0 /\ tag l = t)) /\
            v = fifo_pointer cs /\
            (exists cs', cache st' !! Z.to_nat index = Some cs' /\
                         fifo_pointer cs' =
                           (fifo_pointer cs + 1) mod associativity cfg_fifo2 /\
                         cache_line cs' =
                           <[Z.to_nat v := mk_line 1 t]> (cache_line cs)) /\
            (forall s, 0 <= s -> s <> index -> fifo_of st' s = fifo_of st s)
        end).
Proof.
  assert (Hv : valid_config cfg_fifo2) by valid_by_computation.
  assert (Hp : policy cfg_fifo2 = POLICY_FIFO) by reflexivity.
  assert (Hr : rand_ok no_rand) by (intros k; unfold no_rand, RAND_MAX; lia).
  split; [exact Hv|]. split; [exact Hp|]. split; [exact Hr|].
  exact (fifo_victim_sequence no_rand cfg_fifo2 [0; 4; 8; 0] Hv Hp Hr).
Defined.

(** ** C1: validation and allocation in [init_cache] *)

(** C1.  What [init_cache] does on two invalid configurations.  With
    [total_size = 6], [block_size = 2], [associativity = 1] the array of
    three sets and the lines of each set are allocated, and only then does
    [check_config] stop the run with the power-of-two message.  With
    [block_size = 0] the division that computes [block_num] is undefined
    before any check is reached. *)
Theorem init_cache_allocates_before_check :
  init_cache all_ok (parsed_config 6 2 1 POLICY_FIFO) =
    ([EvAllocSets 3; EvAllocLines 0 1; EvAllocLines 1 1; EvAllocLines 2 1],
     Fatal "Cache szie must be power of 2 and cache size can not be zero.") /\
  init_cache all_ok (parsed_config 16 0 1 POLICY_FIFO) = ([], Undefined).
Proof. split; reflexivity. Qed.

(** ** Scenarios of the specification *)

Example scenario_direct_mapped :
  run (parsed_config 16 4 1 POLICY_FIFO) [0; 4; 8; 12; 0] =
  Done (5, 1, [(0, Miss 0); (1, Miss 0); (2, Miss 0); (3, Miss 0); (0, Hit 0)]).
Proof. reflexivity. Qed.

Example scenario_fifo_two_ways :
  run (parsed_config 8 4 2 POLICY_FIFO) [0; 4; 8; 0] =
  Done (4, 0, [(0, Miss 0); (0, Miss 1); (0, Miss 0); (0, Miss 1)]).
Proof. reflexivity. Qed.

Example scenario_plru_four_ways :
  run (parsed_config 16 4 4 POLICY_PLRU) [0; 4; 8; 12; 16; 0] =
  Done (6, 0, [(0, Miss 0); (0, Miss 2); (0, Miss 1); (0, Miss 3);
               (0, Miss 0); (0, Miss 2)]).
Proof. reflexivity. Qed.

(** [check_config] converts the associativity to [uint32_t] before the
    power-of-two test and compares it as a signed [int] afterwards, so it
    accepts [INT_MIN]; the store then has no set at all and the first access
    reads outside it.  This is why a valid configuration is required to have
    positive sizes. *)
Example negative_associativity_accepted :
  snd (init_cache all_ok (parsed_config 16 4 INT_MIN POLICY_FIFO)) =
    Done (mk_config 16 4 4 INT_MIN POLICY_FIFO 0 2 (-1) 31, []) /\
  access_cache no_rand (mk_config 16 4 4 INT_MIN POLICY_FIFO 0 2 (-1) 31)
    (initial_state []) 0 = Undefined.
Proof. split; reflexivity. Qed.

(** * Further properties of the code *)

(** ** [is_pow_2] and the accepted geometries *)

Lemma is_pow_2_pow2 (k : Z) : 0 <= k < 32 -> is_pow_2 (2 ^ k) = true.
Proof.
  intros Hk. assert (0 < 2 ^ k) by (apply pow2_pos; lia).
  assert (2 ^ k < 2 ^ 32) by (apply pow2_lt; lia).
  unfold is_pow_2. rewrite u32_small by lia.
  apply andb_true_iff. split; [apply Z.ltb_lt; lia|].
  apply Z.eqb_eq.
  replace (2 ^ k - 1) with (Z.ones k) by (rewrite Z.ones_equiv; lia).
  apply Z.bits_inj'. intros i Hi.
  rewrite Z.land_spec, Z.bits_0, Z.pow2_bits_eqb by lia.
  destruct (Z.eqb_spec k i); [subst; rewrite Z.ones_spec_high by lia|];
    reflexivity.
Qed.

(** On a [uint32_t], [is_pow_2] answers true exactly on the 32 powers of two
    [2^0 .. 2^31]; in particular it rejects 0. *)
Theorem is_pow_2_iff (n : Z) :
  0 <= n < 2 ^ 32 ->
  (is_pow_2 n = true <-> exists k, 0 <= k < 32 /\ n = 2 ^ k).
Proof.
  intros Hn. split.
  - apply is_pow_2_inv. exact Hn.
  - intros (k & Hk & ->). apply is_pow_2_pow2. exact Hk.
Qed.

Lemma is_pow_2_iff_witness :
  0 <= 64 < 2 ^ 32 /\
  (is_pow_2 64 = true <-> exists k, 0 <= k < 32 /\ 64 = 2 ^ k).
Proof.
  assert (H : 0 <= 64 < 2 ^ 32) by lia.
  split; [exact H|]. exact (is_pow_2_iff 64 H).
Defined.

(** A configuration with positive sizes passes [check_config] with the
    fields [init_cache] derives exactly when its sizes are [2^a], [2^b] and
    [2^k] with [k <= 6] and [b + k <= a <= 30]. *)
Theorem valid_config_iff_geometry (c : cache_config_t) :
  valid_config c <->
  exists a b k, 0 <= b /\ 0 <= k <= 6 /\ b + k <= a <= 30 /\
                c = geometry a b k (policy c).
Proof.
  split.
  - apply valid_geometry.
  - intros (a & b & k & Hb & Hk & Ha & E). rewrite E.
    apply geometry_valid; assumption.
Qed.

(** In a valid configuration the derived fields fit together: the sets, ways
    and block bytes multiply to the total size, the offset and index widths
    are the exact logarithms, the three widths add up to the address width,
    and at least two bits are left for the tag. *)
Theorem geometry_identities (c : cache_config_t) :
  valid_config c ->
  set_num c * associativity c * block_size c = total_size c /\
  block_num c = set_num c * associativity c /\
  2 ^ bits_for_offset c = block_size c /\
  2 ^ bits_for_index c = set_num c /\
  0 <= bits_for_offset c /\ 0 <= bits_for_index c /\
  bits_for_offset c + bits_for_index c + bits_for_tag c = ADDR_WIDTH /\
  2 <= bits_for_tag c <= ADDR_WIDTH /\
  1 <= set_num c.
Proof.
  intros Hv. destruct (valid_geometry c Hv) as (a & b & k & Hb & Hk & Ha & E).
  rewrite E. unfold geometry, ADDR_WIDTH; simpl.
  assert (0 < 2 ^ (a - b - k)) by (apply pow2_pos; lia).
  repeat split; try lia.
  - rewrite <- !Z.pow_add_r by lia. f_equal. lia.
  - rewrite <- Z.pow_add_r by lia. f_equal. lia.
Qed.

Lemma geometry_identities_witness :
  valid_config cfg_direct /\
  set_num cfg_direct * associativity cfg_direct * block_size cfg_direct
    = total_size cfg_direct /\
  block_num cfg_direct = set_num cfg_direct * associativity cfg_direct /\
  2 ^ bits_for_offset cfg_direct = block_size cfg_direct /\
  2 ^ bits_for_index cfg_direct = set_num cfg_direct /\
  0 <= bits_for_offset cfg_direct /\ 0 <= bits_for_index cfg_direct /\
  bits_for_offset cfg_direct + bits_for_index cfg_direct
    + bits_for_tag cfg_direct = ADDR_WIDTH /\
  2 <= bits_for_tag cfg_direct <= ADDR_WIDTH /\
  1 <= set_num cfg_direct.
Proof.
  assert (Hv : valid_config cfg_direct) by valid_by_computation.
  split; [exact Hv|]. exact (geometry_identities cfg_direct Hv).
Defined.

(** ** What [init_cache] returns and how it fails *)

(** Whenever [init_cache] returns on positive sizes, whatever the allocator
    did, the configuration it leaves is valid, the store has [set_num] sets
    of [associativity] zeroed lines with both policy states zero, and this
    store is well formed. *)
Theorem init_cache_returns_valid (mem : nat -> bool) (c0 c : cache_config_t)
    (tr : list event) (store : list cache_set_t) :
  pos_int (total_size c0) -> pos_int (block_size c0) ->
  pos_int (associativity c0) ->
  init_cache mem c0 = (tr, Done (c, store)) ->
  valid_config c /\
  store = replicate (Z.to_nat (set_num c))
            (mk_set (replicate (Z.to_nat (associativity c)) (mk_line 0 0)) 0 0) /\
  wf_state c (initial_state store).
Proof.
  intros Hts Hbs Has H.
  destruct (init_cache_done mem c0 c tr store Hts Hbs Has H) as [Hv Hst].
  split; [exact Hv|]. split.
  - unfold fresh_state, initial_state in Hst. injection Hst as ->. reflexivity.
  - rewrite Hst. apply wf_fresh_store. exact Hv.
Qed.

Lemma init_cache_returns_valid_witness :
  pos_int 16 /\ pos_int 4 /\ pos_int 1 /\
  init_cache all_ok (parsed_config 16 4 1 POLICY_RANDOM) =
    ([EvAllocSets 4; EvAllocLines 0 1; EvAllocLines 1 1; EvAllocLines 2 1;
      EvAllocLines 3 1; EvSeedRandom; EvReport],
     Done (cfg_direct, replicate 4 (mk_set [mk_line 0 0] 0 0))) /\
  valid_config cfg_direct /\
  replicate 4 (mk_set [mk_line 0 0] 0 0) =
    replicate (Z.to_nat (set_num cfg_direct))
      (mk_set (replicate (Z.to_nat (associativity cfg_direct)) (mk_line 0 0)) 0 0) /\
  wf_state cfg_direct (initial_state (replicate 4 (mk_set [mk_line 0 0] 0 0))).
Proof.
  assert (H1 : pos_int 16) by (unfold pos_int, INT_MAX; lia).
  assert (H2 : pos_int 4) by (unfold pos_int, INT_MAX; lia).
  assert (H3 : pos_int 1) by (unfold pos_int, INT_MAX; lia).
  split; [exact H1|]. split; [exact H2|]. split; [exact H3|].
  split; [reflexivity|].
  exact (init_cache_returns_valid all_ok (parsed_config 16 4 1 POLICY_RANDOM)
           cfg_direct _ _ H1 H2 H3 eq_refl).
Defined.

(** With a zero block size or a zero associativity [init_cache] runs into
    the division by zero of its first two lines: nothing is allocated and no
    diagnostic is produced. *)
Theorem init_cache_zero_divisor (mem : nat -> bool) (c0 : cache_config_t) :
  block_size c0 = 0 \/ associativity c0 = 0 ->
  init_cache mem c0 = ([], Undefined).
Proof.
  intros H. unfold init_cache, derive_geometry.
  destruct (int_div (total_size c0) (block_size c0)) as [bn| | |] eqn:E1.
  - destruct H as [H|H]; [unfold int_div in E1; rewrite H in E1; discriminate|].
    cbn [bind]. unfold int_div at 1. rewrite H. reflexivity.
  - unfold int_div in E1. destruct (_ =? 0); [discriminate|].
    destruct (_ && _); discriminate.
  - reflexivity.
  - unfold int_div in E1. destruct (_ =? 0); [discriminate|].
    destruct (_ && _); discriminate.
Qed.

Lemma init_cache_zero_divisor_witness :
  (block_size (parsed_config 1024 64 0 POLICY_PLRU) = 0 \/
   associativity (parsed_config 1024 64 0 POLICY_PLRU) = 0) /\
  init_cache all_ok (parsed_config 1024 64 0 POLICY_PLRU) = ([], Undefined).
Proof.
  assert (H : block_size (parsed_config 1024 64 0 POLICY_PLRU) = 0 \/
              associativity (parsed_config 1024 64 0 POLICY_PLRU) = 0)
    by (right; reflexivity).
  split; [exact H|].
  exact (init_cache_zero_divisor all_ok (parsed_config 1024 64 0 POLICY_PLRU) H).
Defined.

Lemma derive_geometry_fields (c0 c : cache_config_t) :
  derive_geometry c0 = Done c ->
  total_size c = total_size c0 /\ block_size c = block_size c0 /\
  associativity c = associativity c0 /\ policy c = policy c0 /\
  block_size c0 <> 0 /\ associativity c0 <> 0 /\
  block_num c = Z.quot (total_size c0) (block_size c0) /\
  set_num c = Z.quot (block_num c) (associativity c0).
Proof.
  unfold derive_geometry. intros Hd.
  apply bind_done in Hd as (bn & Hbn & Hd). apply int_div_done in Hbn as [Hb0 ->].
  apply bind_done in Hd as (sn & Hsn & Hd). apply int_div_done in Hsn as [Ha0 ->].
  apply bind_done in Hd as (off & _ & Hd). apply bind_done in Hd as (idx & _ & Hd).
  injection Hd as <-. simpl. auto 10.
Qed.

Lemma derive_geometry_not_fatal (c0 : cache_config_t) (msg : string) :
  derive_geometry c0 <> Fatal msg.
Proof.
  assert (Hl : forall fuel n r, LOG2_loop fuel n r <> Fatal msg).
  { induction fuel as [|fuel IH]; intros n r; rewrite LOG2_loop_eq;
      destruct (n =? 0); try discriminate. apply IH. }
  unfold derive_geometry, int_div.
  destruct (block_size c0 =? 0); [discriminate|].
  destruct (_ && _); [discriminate|]. cbn [bind].
  destruct (associativity c0 =? 0); [discriminate|].
  destruct (_ && _); [discriminate|]. cbn [bind].
  destruct (LOG2 (block_size c0)) eqn:E1; cbn [bind]; try discriminate.
  - destruct (LOG2 (Z.quot (Z.quot (total_size c0) (block_size c0))
                             (associativity c0))) eqn:E2;
      cbn [bind]; try discriminate.
    intros H; injection H as <-. exact (Hl _ _ _ E2).
  - intros H; injection H as <-. exact (Hl _ _ _ E1).
Qed.

Lemma alloc_lines_fatal (mem : nat -> bool) (c : cache_config_t) (n : nat) :
  forall i acc tr tr' msg,
  alloc_lines mem c n i acc tr = (tr', Fatal msg) ->
  msg = "Fail to alloc memory for cache line."%string.
Proof.
  induction n as [|n IH]; intros i acc tr tr' msg H; cbn [alloc_lines] in H.
  - discriminate.
  - destruct (mem _); [eapply IH; exact H|].
    injection H as _ <-. reflexivity.
Qed.

(** The diagnostic for a missing parameter is only ever produced for a zero
    total size: then the two other sizes are not zero, and an empty array of
    sets has been requested before the usage text is printed. *)
Theorem missing_parameter_only_total_size (mem : nat -> bool)
    (c0 : cache_config_t) (tr : list event) :
  init_cache mem c0 = (tr, Fatal "Missing initialization parameter(s).") ->
  total_size c0 = 0 /\ block_size c0 <> 0 /\ associativity c0 <> 0 /\
  tr = [EvAllocSets 0] ++
       match policy c0 with POLICY_RANDOM => [EvSeedRandom] | _ => [] end ++
       [EvUsage].
Proof.
  intros H. unfold init_cache in H.
  destruct (derive_geometry c0) as [c|msg| |] eqn:Hd; try discriminate.
  2:{ exfalso. exact (derive_geometry_not_fatal c0 msg Hd). }
  destruct (derive_geometry_fields c0 c Hd)
    as (Ets & Ebs & Eas & Ep & Hb0 & Ha0 & Ebn & Esn).
  destruct (mem O); [|discriminate].
  destruct (alloc_lines _ _ _ _ _ _) as [tr1 [store1|msg| |]] eqn:Hal;
    try discriminate.
  2:{ apply alloc_lines_fatal in Hal. subst msg. discriminate. }
  unfold check_config in H.
  destruct (_ || _) eqn:Hz.
  - injection H as <-.
    rewrite Eas, Ets, Ebs in Hz.
    destruct (Z.eqb_spec (associativity c0) 0); [contradiction|].
    destruct (Z.eqb_spec (block_size c0) 0); [contradiction|].
    destruct (Z.eqb_spec (total_size c0) 0) as [E0|]; [|discriminate].
    repeat split; try assumption.
    assert (Hsn : set_num c = 0).
    { rewrite Esn, Ebn, E0. reflexivity. }
    rewrite Hsn in Hal. cbn in Hal. injection Hal as <- _.
    rewrite Ep. destruct (policy c0); reflexivity.
  - exfalso.
    destruct (is_pow_2 (u32 (total_size c))); [|discriminate].
    destruct (is_pow_2 (u32 (block_size c))); [|discriminate].
    destruct (is_pow_2 (u32 (associativity c))); [|discriminate].
    destruct (negb (block_num c <? associativity c)); [|discriminate].
    destruct (negb (64 <? associativity c)); discriminate.
Qed.

Lemma missing_parameter_only_total_size_witness :
  init_cache all_ok (parsed_config 0 4 2 POLICY_RANDOM) =
    ([EvAllocSets 0; EvSeedRandom; EvUsage],
     Fatal "Missing initialization parameter(s).") /\
  total_size (parsed_config 0 4 2 POLICY_RANDOM) = 0 /\
  block_size (parsed_config 0 4 2 POLICY_RANDOM) <> 0 /\
  associativity (parsed_config 0 4 2 POLICY_RANDOM) <> 0 /\
  [EvAllocSets 0; EvSeedRandom; EvUsage] =
    [EvAllocSets 0] ++
    match policy (parsed_config 0 4 2 POLICY_RANDOM) with
    | POLICY_RANDOM => [EvSeedRandom]
    | _ => []
    end ++ [EvUsage].
Proof.
  split; [reflexivity|].
  exact (missing_parameter_only_total_size all_ok
           (parsed_config 0 4 2 POLICY_RANDOM) _ eq_refl).
Defined.

Lemma alloc_lines_fail (mem : nat -> bool) (c : cache_config_t) (n : nat) :
  forall (i0 : nat) acc tr (k : nat),
  (k < n)%nat ->
  (forall j, (j < k)%nat -> mem (S (i0 + j)) = true) ->
  mem (S (i0 + k)) = false ->
  alloc_lines mem c n (Z.of_nat i0) acc tr =
  (tr ++ map (fun j => EvAllocLines (Z.of_nat j) (associativity c)) (seq i0 (S k))
      ++ map (fun j => EvFreeLines (Z.of_nat j)) (seq 0 (i0 + k))
      ++ [EvFreeSets],
   Fatal "Fail to alloc memory for cache line.").
Proof.
  induction n as [|n IH]; intros i0 acc tr k Hk Hok Hfail; [lia|].
  cbn [alloc_lines]. rewrite Nat2Z.id.
  destruct k as [|k].
  - assert (E : (i0 + 0 = i0)%nat) by lia.
    rewrite E in Hfail. rewrite Hfail, E.
    cbn [seq map]. rewrite <- !app_assoc. reflexivity.
  - pose proof (Hok O ltac:(lia)) as H0. rewrite Nat.add_0_r in H0.
    rewrite H0.
    replace (Z.of_nat i0 + 1) with (Z.of_nat (S i0)) by lia.
    rewrite (IH (S i0) _ _ k); try lia.
    + f_equal. cbn [seq map]. rewrite <- !app_assoc. cbn [app].
      replace (S i0 + k)%nat with (i0 + S k)%nat by lia. reflexivity.
    + intros j Hj. replace (S i0 + j)%nat with (i0 + S j)%nat by lia.
      apply Hok. lia.
    + replace (S i0 + k)%nat with (i0 + S k)%nat by lia. exact Hfail.
Qed.

(** When the lines of set [k] cannot be allocated, [init_cache] has requested
    the array of sets and the lines of sets [0 .. k]; it then frees the lines
    of sets [0 .. k-1] and the array, and exits with the allocation message
    without running [check_config]. *)
Theorem init_cache_alloc_failure (mem : nat -> bool) (c0 c : cache_config_t)
    (k : nat) :
  derive_geometry c0 = Done c ->
  mem O = true ->
  (k < Z.to_nat (u32 (set_num c)))%nat ->
  (forall j, (j < k)%nat -> mem (S j) = true) ->
  mem (S k) = false ->
  init_cache mem c0 =
  ([EvAllocSets (set_num c)]
     ++ map (fun j => EvAllocLines (Z.of_nat j) (associativity c)) (seq 0 (S k))
     ++ map (fun j => EvFreeLines (Z.of_nat j)) (seq 0 k)
     ++ [EvFreeSets],
   Fatal "Fail to alloc memory for cache line.").
Proof.
  intros Hd Hm0 Hk Hok Hfail. unfold init_cache. rewrite Hd, Hm0.
  change 0 with (Z.of_nat 0) at 1.
  rewrite (alloc_lines_fail mem c _ O [] _ k Hk); [reflexivity| |].
  - intros j Hj. apply Hok. exact Hj.
  - exact Hfail.
Qed.

Lemma init_cache_alloc_failure_witness :
  derive_geometry (parsed_config 16 4 1 POLICY_FIFO) =
    Done (mk_config 16 4 4 1 POLICY_FIFO 4 2 2 28) /\
  (fun n => Nat.ltb n 3) O = true /\
  (2 < Z.to_nat (u32 (set_num (mk_config 16 4 4 1 POLICY_FIFO 4 2 2 28))))%nat /\
  (forall j, (j < 2)%nat -> (fun n => Nat.ltb n 3) (S j) = true) /\
  (fun n => Nat.ltb n 3) 3%nat = false /\
  init_cache (fun n => Nat.ltb n 3) (parsed_config 16 4 1 POLICY_FIFO) =
  ([EvAllocSets 4; EvAllocLines 0 1; EvAllocLines 1 1; EvAllocLines 2 1;
    EvFreeLines 0; EvFreeLines 1; EvFreeSets],
   Fatal "Fail to alloc memory for cache line.").
Proof.
  assert (Hd : derive_geometry (parsed_config 16 4 1 POLICY_FIFO) =
               Done (mk_config 16 4 4 1 POLICY_FIFO 4 2 2 28)) by reflexivity.
  assert (Hk : (2 < Z.to_nat (u32 (set_num (mk_config 16 4 4 1 POLICY_FIFO 4 2 2 28))))%nat)
    by (vm_compute; lia).
  assert (Hok : forall j, (j < 2)%nat -> (fun n => Nat.ltb n 3) (S j) = true)
    by (intros j Hj; apply Nat.ltb_lt; lia).
  split; [exact Hd|]. split; [reflexivity|]. split; [exact Hk|].
  split; [exact Hok|]. split; [reflexivity|].
  exact (init_cache_alloc_failure (fun n => Nat.ltb n 3)
           (parsed_config 16 4 1 POLICY_FIFO) _ 2 Hd eq_refl Hk Hok eq_refl).
Defined.

(** [check_config] tests the power of two on the [uint32_t] conversion of the
    associativity and the two bounds on the signed value, so [INT_MIN] passes
    all three: with any two sizes [2^a >= 2^b] the run is accepted with zero
    sets, an index width of [-1] and an empty store, and every access then
    reads outside the store. *)
Theorem negative_associativity_unchecked (rnd : nat -> Z) (a b : Z)
    (p : replacement_policy_t) (addr : Z) :
  0 <= b <= a -> a <= 30 ->
  snd (init_cache all_ok (parsed_config (2 ^ a) (2 ^ b) INT_MIN p)) =
    Done (mk_config (2 ^ a) (2 ^ b) (2 ^ (a - b)) INT_MIN p 0 b (-1)
            (ADDR_WIDTH - b - -1), []) /\
  access_cache rnd
    (mk_config (2 ^ a) (2 ^ b) (2 ^ (a - b)) INT_MIN p 0 b (-1)
       (ADDR_WIDTH - b - -1))
    (initial_state []) addr = Undefined.
Proof.
  intros Hb Ha.
  assert (Pa : 0 < 2 ^ a) by (apply pow2_pos; lia).
  assert (Pb : 0 < 2 ^ b) by (apply pow2_pos; lia).
  assert (Pab : 0 < 2 ^ (a - b)) by (apply pow2_pos; lia).
  assert (La : 2 ^ a < 2 ^ 31) by (apply pow2_lt; lia).
  assert (Lb : 2 ^ b < 2 ^ 31) by (apply pow2_lt; lia).
  assert (Lab : 2 ^ (a - b) < 2 ^ 31) by (apply pow2_lt; lia).
  set (c := mk_config (2 ^ a) (2 ^ b) (2 ^ (a - b)) INT_MIN p 0 b (-1)
              (ADDR_WIDTH - b - -1)).
  split.
  - assert (Hd : derive_geometry (parsed_config (2 ^ a) (2 ^ b) INT_MIN p) = Done c).
    { unfold derive_geometry, parsed_config, int_div; simpl.
      destruct (Z.eqb_spec (2 ^ b) 0); [lia|].
      replace (2 ^ a =? INT_MIN) with false
        by (symmetry; apply Z.eqb_neq; unfold INT_MIN; lia).
      simpl. rewrite pow2_quot by lia.
      replace (2 ^ (a - b) =? INT_MIN) with false
        by (symmetry; apply Z.eqb_neq; unfold INT_MIN; lia).
      simpl.
      assert (Hq : Z.quot (2 ^ (a - b)) INT_MIN = 0).
      { unfold INT_MIN. rewrite Z.quot_opp_r by lia.
        rewrite Z.quot_small by lia. reflexivity. }
      rewrite Hq, LOG2_pow2 by lia. reflexivity. }
    assert (Hc : check_config c = ([], Done tt)).
    { unfold check_config, c; simpl.
      destruct (Z.eqb_spec (2 ^ a) 0); [lia|].
      destruct (Z.eqb_spec (2 ^ b) 0); [lia|]. simpl.
      rewrite !u32_small by lia. rewrite !is_pow_2_pow2 by lia. simpl.
      replace (2 ^ (a - b) <? INT_MIN) with false
        by (symmetry; apply Z.ltb_ge; unfold INT_MIN; lia).
      reflexivity. }
    unfold init_cache. rewrite Hd. cbn [all_ok].
    change (Z.to_nat (u32 (set_num c))) with O. cbn [alloc_lines].
    rewrite Hc. destruct p; reflexivity.
  - unfold access_cache, GET_INDEX, GET_TAG, c; simpl.
    destruct (Z.eq_dec b 0) as [->|Hb0]; [reflexivity|].
    rewrite !GET_BITS_done by (unfold ADDR_WIDTH; lia).
    reflexivity.
Qed.

Lemma negative_associativity_unchecked_witness :
  0 <= 2 <= 4 /\ 4 <= 30 /\
  snd (init_cache all_ok (parsed_config (2 ^ 4) (2 ^ 2) INT_MIN POLICY_PLRU)) =
    Done (mk_config (2 ^ 4) (2 ^ 2) (2 ^ (4 - 2)) INT_MIN POLICY_PLRU 0 2 (-1)
            (ADDR_WIDTH - 2 - -1), []) /\
  access_cache no_rand
    (mk_config (2 ^ 4) (2 ^ 2) (2 ^ (4 - 2)) INT_MIN POLICY_PLRU 0 2 (-1)
       (ADDR_WIDTH - 2 - -1))
    (initial_state []) 64 = Undefined.
Proof.
  assert (H1 : 0 <= 2 <= 4) by lia.
  assert (H2 : 4 <= 30) by lia.
  split; [exact H1|]. split; [exact H2|].
  exact (negative_associativity_unchecked no_rand 4 2 POLICY_PLRU 64 H1 H2).
Defined.

(** ** What one access touches *)

(** Whatever the state, when an access returns it has replaced one set of
    the store and updated the counters; nothing else. *)
Lemma access_cache_shape (rnd : nat -> Z) (c : cache_config_t) (st st' : sim_state)
    (addr i : Z) (res : access_result) :
  access_cache rnd c st addr = Done (st', (i, res)) ->
  GET_INDEX c addr = Done i /\
  (exists cs', cache st' = <[Z.to_nat i := cs']> (cache st)) /\
  total_access_times st' = u64 (total_access_times st + 1) /\
  total_hit_times st' =
    (if is_hit res then u64 (total_hit_times st + 1) else total_hit_times st) /\
  rand_calls st' =
    match policy c, res with
    | POLICY_RANDOM, Miss _ => S (rand_calls st)
    | _, _ => rand_calls st
    end.
Proof.
  unfold access_cache. intros H.
  destruct (GET_INDEX c addr) as [index| | |]; try discriminate. cbn [bind] in H.
  destruct (GET_TAG c addr) as [t| | |]; try discriminate. cbn [bind] in H.
  destruct (cache st !! Z.to_nat index) as [cs|]; [|discriminate].
  destruct (scan_ways _ _ _ _) as [hw| | |]; try discriminate. cbn [bind] in H.
  destruct (negb (hw =? -1)).
  - destruct (policy c).
    + destruct (update_plru_victim_way c cs (u32 hw)); try discriminate.
      cbn [bind] in H. injection H as <- <- <-. cbn. eauto 10.
    + cbn [bind] in H. injection H as <- <- <-. cbn. eauto 10.
    + cbn [bind] in H. injection H as <- <- <-. cbn. eauto 10.
  - destruct (policy c).
    + destruct (find_and_updata_plru_victim_way c cs) as [[cs1 v]| | |];
        try discriminate. cbn [bind fst snd] in H.
      destruct (Assert _ _); try discriminate. cbn [bind] in H.
      destruct (cache_line cs1 !! _); [|discriminate].
      injection H as <- <- <-. cbn. eauto 10.
    + destruct (find_and_update_fifo_victim_way c cs) as [[cs1 v]| | |];
        try discriminate. cbn [bind fst snd] in H.
      destruct (Assert _ _); try discriminate. cbn [bind] in H.
      destruct (cache_line cs1 !! _); [|discriminate].
      injection H as <- <- <-. cbn. eauto 10.
    + destruct (find_random_victim_way c _) as [v| | |];
        try discriminate. cbn [bind fst snd] in H.
      destruct (Assert _ _); try discriminate. cbn [bind] in H.
      destruct (cache_line cs !! _); [|discriminate].
      injection H as <- <- <-. cbn. eauto 10.
Qed.

(** An access changes one set only: every other set of the store, and the
    number of sets, are as before; [rand()] is called once on a miss under
    the random policy and never otherwise. *)
Theorem access_touches_one_set (rnd : nat -> Z) (c : cache_config_t)
    (st st' : sim_state) (addr i : Z) (res : access_result) :
  access_cache rnd c st addr = Done (st', (i, res)) ->
  GET_INDEX c addr = Done i /\
  (forall j, j <> Z.to_nat i -> cache st' !! j = cache st !! j) /\
  length (cache st') = length (cache st) /\
  rand_calls st' =
    match policy c, res with
    | POLICY_RANDOM, Miss _ => S (rand_calls st)
    | _, _ => rand_calls st
    end.
Proof.
  intros H.
  destruct (access_cache_shape rnd c st st' addr i res H)
    as (Hi & (cs' & Hc) & _ & _ & Hr).
  split; [exact Hi|]. rewrite Hc.
  split; [|split; [apply length_insert|exact Hr]].
  intros j Hj. apply list_lookup_insert_ne. lia.
Qed.

Lemma access_touches_one_set_witness :
  access_cache no_rand cfg_direct (fresh_state cfg_direct) 8 =
    Done (mk_state [mk_set [mk_line 0 0] 0 0; mk_set [mk_line 0 0] 0 0;
                    mk_set [mk_line 1 0] 0 0; mk_set [mk_line 0 0] 0 0]
            1 0 1, (2, Miss 0)) /\
  GET_INDEX cfg_direct 8 = Done 2 /\
  (forall j, j <> Z.to_nat 2 ->
     [mk_set [mk_line 0 0] 0 0; mk_set [mk_line 0 0] 0 0;
      mk_set [mk_line 1 0] 0 0; mk_set [mk_line 0 0] 0 0] !! j
     = cache (fresh_state cfg_direct) !! j) /\
  length [mk_set [mk_line 0 0] 0 0; mk_set [mk_line 0 0] 0 0;
          mk_set [mk_line 1 0] 0 0; mk_set [mk_line 0 0] 0 0]
    = length (cache (fresh_state cfg_direct)) /\
  1%nat = S (rand_calls (fresh_state cfg_direct)).
Proof.
  split; [reflexivity|].
  exact (access_touches_one_set no_rand cfg_direct (fresh_state cfg_direct)
           _ 8 2 (Miss 0) eq_refl).
Defined.

(** ** Hits after an access *)

(** After any access, an access to an address with the same index and tag
    (the same block, whatever the offset) is a hit. *)
Theorem reaccess_hits (rnd : nat -> Z) (c : cache_config_t) (st : sim_state)
    (addr addr' : Z) :
  valid_config c -> wf_state c st -> rand_ok rnd ->
  GET_INDEX c addr' = GET_INDEX c addr ->
  GET_TAG c addr' = GET_TAG c addr ->
  exists st1 ev st2 i w,
    access_cache rnd c st addr = Done (st1, ev) /\
    access_cache rnd c st1 addr' = Done (st2, (i, Hit w)).
Proof.
  intros Hv Hwf Hr Ei Et.
  destruct (access_cache_cases rnd c st addr Hv Hwf Hr)
    as (index & t & cs & Hidx & Htag & Hrange & Hcs & Hwfcs & Hcase).
  assert (Hlt : (Z.to_nat index < length (cache st))%nat)
    by (apply lookup_lt_is_Some_1; eauto).
  assert (Hst1 : exists st1 ev cs1 w l,
             access_cache rnd c st addr = Done (st1, ev) /\ wf_state c st1 /\
             cache st1 !! Z.to_nat index = Some cs1 /\
             cache_line cs1 !! w = Some l /\ line_matches t l = true).
  { destruct Hcase as [Hhit|Hmiss].
    - destruct Hhit as (w & l & cs' & _ & Hl & Hm & _ & _ & Hl' & _ & Hwf' & Hacc).
      do 2 eexists. exists cs', w, l. split; [exact Hacc|].
      split; [apply wf_state_insert; assumption|].
      cbn [cache]. split; [apply list_lookup_insert_eq; exact Hlt|].
      rewrite Hl'. auto.
    - destruct Hmiss as (_ & cs1 & v & calls & _ & Hvr & Hl1 & Hwf1 & Hacc).
      pose proof Hwf1 as (Hlen1 & _).
      do 3 eexists. exists (Z.to_nat v), (mk_line 1 t).
      split; [exact Hacc|].
      split; [apply wf_state_insert;
              [assumption|apply wf_set_install; exact Hwf1]|].
      cbn [cache]. split; [apply list_lookup_insert_eq; exact Hlt|].
      cbn [with_cache_line cache_line].
      split; [apply list_lookup_insert_eq; lia|].
      unfold line_matches; cbn [tag valid]. rewrite Z.eqb_refl. reflexivity. }
  destruct Hst1 as (st1 & ev & cs1 & w & l & Hacc & Hwf1 & Hcs1 & Hl & Hm).
  destruct (access_cache_cases rnd c st1 addr' Hv Hwf1 Hr)
    as (index' & t' & cs' & Hidx' & Htag' & _ & Hcs' & _ & Hcase').
  rewrite Ei, Hidx in Hidx'. injection Hidx' as <-.
  rewrite Et, Htag in Htag'. injection Htag' as <-.
  rewrite Hcs1 in Hcs'. injection Hcs' as <-.
  destruct Hcase' as [Hhit|Hmiss].
  - destruct Hhit as (w' & _ & cs' & _ & _ & _ & _ & _ & _ & _ & _ & Hacc').
    do 5 eexists. split; [exact Hacc|exact Hacc'].
  - destruct Hmiss as (Hnone & _). rewrite (Hnone w l Hl) in Hm. discriminate.
Qed.

Lemma reaccess_hits_witness :
  valid_config cfg_plru4 /\ wf_state cfg_plru4 (fresh_state cfg_plru4) /\
  rand_ok no_rand /\
  GET_INDEX cfg_plru4 19 = GET_INDEX cfg_plru4 16 /\
  GET_TAG cfg_plru4 19 = GET_TAG cfg_plru4 16 /\
  exists st1 ev st2 i w,
    access_cache no_rand cfg_plru4 (fresh_state cfg_plru4) 16 = Done (st1, ev) /\
    access_cache no_rand cfg_plru4 st1 19 = Done (st2, (i, Hit w)).
Proof.
  assert (Hv : valid_config cfg_plru4) by valid_by_computation.
  assert (Hwf : wf_state cfg_plru4 (fresh_state cfg_plru4)) by wf_by_computation.
  assert (Hr : rand_ok no_rand) by (intros k; unfold no_rand, RAND_MAX; lia).
  split; [exact Hv|]. split; [exact Hwf|]. split; [exact Hr|].
  split; [reflexivity|]. split; [reflexivity|].
  exact (reaccess_hits no_rand cfg_plru4 (fresh_state cfg_plru4) 16 19
           Hv Hwf Hr eq_refl eq_refl).
Defined.

(** ** No block is cached twice *)

Lemma distinct_tags_step (rnd : nat -> Z) (c : cache_config_t) (st : sim_state)
    (addr : Z) :
  valid_config c -> wf_state c st -> rand_ok rnd ->
  Forall distinct_tags (cache st) ->
  exists st' ev, access_cache rnd c st addr = Done (st', ev) /\
                 wf_state c st' /\ Forall distinct_tags (cache st').
Proof.
  intros Hv Hwf Hr Hd.
  destruct (access_cache_cases rnd c st addr Hv Hwf Hr)
    as (index & t & cs & _ & _ & _ & Hcs & _ & Hcase).
  pose proof (Forall_lookup_1 _ _ _ _ Hd Hcs) as Hdcs.
  destruct Hcase as [Hhit|Hmiss].
  - destruct Hhit as (w & l & cs' & _ & _ & _ & _ & _ & Hl' & _ & Hwf' & Hacc).
    do 2 eexists. split; [exact Hacc|].
    split; [apply wf_state_insert; assumption|].
    cbn [cache]. apply Forall_insert; [exact Hd|].
    unfold distinct_tags. rewrite Hl'. exact Hdcs.
  - destruct Hmiss as (Hnone & cs1 & v & calls & _ & Hvr & Hl1 & Hwf1 & Hacc).
    do 2 eexists. split; [exact Hacc|].
    split; [apply wf_state_insert;
            [assumption|apply wf_set_install; exact Hwf1]|].
    cbn [cache]. apply Forall_insert; [exact Hd|].
    unfold distinct_tags. cbn [with_cache_line cache_line]. rewrite Hl1.
    intros i j l l' Hi Hj Hvl Hvl' Htg.
    destruct (Nat.eq_dec i (Z.to_nat v)) as [->|Hiv];
      destruct (Nat.eq_dec j (Z.to_nat v)) as [->|Hjv]; [reflexivity| | |].
    + exfalso. rewrite list_lookup_insert_ne in Hj by lia.
      apply list_lookup_insert_Some in Hi as [(_ & <- & _)|[? _]]; [|lia].
      pose proof (Hnone j l' Hj) as Hm. cbn [tag] in Htg.
      assert (line_matches t l' = true) by (apply line_matches_iff; auto).
      congruence.
    + exfalso. rewrite list_lookup_insert_ne in Hi by lia.
      apply list_lookup_insert_Some in Hj as [(_ & <- & _)|[? _]]; [|lia].
      pose proof (Hnone i l Hi) as Hm. cbn [tag] in Htg.
      assert (line_matches t l = true) by (apply line_matches_iff; auto).
      congruence.
    + rewrite list_lookup_insert_ne in Hi by lia.
      rewrite list_lookup_insert_ne in Hj by lia.
      exact (Hdcs i j l l' Hi Hj Hvl Hvl' Htg).
Qed.

Lemma distinct_tags_fresh (c : cache_config_t) :
  Forall distinct_tags (cache (fresh_state c)).
Proof.
  unfold fresh_state, initial_state; cbn [cache].
  apply Forall_replicate. intros i j l l' Hi _ Hvl.
  unfold fresh_set in Hi; cbn [cache_line] in Hi.
  apply lookup_replicate_1 in Hi as [-> _]. contradiction.
Qed.

(** In every store reached by a run from the fresh store, no two valid lines
    of a set hold the same tag: a block is cached in at most one way. *)
Theorem no_block_cached_twice (rnd : nat -> Z) (c : cache_config_t)
    (addrs : list Z) :
  valid_config c -> rand_ok rnd ->
  exists st' evs,
    sim_cache rnd c (fresh_state c) addrs = Done (st', evs) /\
    Forall distinct_tags (cache st').
Proof.
  intros Hv Hr.
  assert (Hgen : forall addrs st, wf_state c st -> Forall distinct_tags (cache st) ->
            exists st' evs, sim_cache rnd c st addrs = Done (st', evs) /\
                            Forall distinct_tags (cache st')).
  { clear addrs. induction addrs as [|a rest IH]; intros st Hwf Hd.
    - exists st, []. auto.
    - destruct (distinct_tags_step rnd c st a Hv Hwf Hr Hd)
        as (st1 & ev & Hacc & Hwf1 & Hd1).
      destruct (IH st1 Hwf1 Hd1) as (st2 & evs & Hsim & Hd2).
      exists st2, (ev :: evs). cbn [sim_cache]. rewrite Hacc. cbn [bind fst snd].
      rewrite Hsim. auto. }
  apply Hgen; [apply wf_fresh_store; exact Hv|apply distinct_tags_fresh].
Qed.

Lemma no_block_cached_twice_witness :
  valid_config cfg_plru4 /\ rand_ok no_rand /\
  exists st' evs,
    sim_cache no_rand cfg_plru4 (fresh_state cfg_plru4) [0; 4; 0; 8; 20; 4]
      = Done (st', evs) /\
    Forall distinct_tags (cache st').
Proof.
  assert (Hv : valid_config cfg_plru4) by valid_by_computation.
  assert (Hr : rand_ok no_rand) by (intros k; unfold no_rand, RAND_MAX; lia).
  split; [exact Hv|]. split; [exact Hr|].
  exact (no_block_cached_twice no_rand cfg_plru4 [0; 4; 0; 8; 20; 4] Hv Hr).
Defined.
(** ** The counters over a whole run *)

Lemma count_hits_cons (i : Z) (r : access_result) (evs : list (Z * access_result)) :
  count_hits ((i, r) :: evs) = (if is_hit r then 1 else 0) + count_hits evs /\
  count_misses ((i, r) :: evs) = (if is_hit r then 0 else 1) + count_misses evs.
Proof.
  unfold count_hits, count_misses. rewrite !filter_cons. cbn [snd].
  destruct r; cbn [is_hit];
    repeat match goal with
           | |- context [decide ?P] => destruct (decide P); try congruence
           end;
    cbn [length]; lia.
Qed.

Lemma count_hits_misses (evs : list (Z * access_result)) :
  0 <= count_hits evs /\ 0 <= count_misses evs /\
  count_hits evs + count_misses evs = Z.of_nat (length evs).
Proof.
  induction evs as [|[i r] evs IH].
  - unfold count_hits, count_misses. cbn. lia.
  - destruct (count_hits_cons i r evs) as [-> ->]. cbn [length].
    destruct r; cbn [is_hit]; lia.
Qed.

Lemma u64_add_l (x y : Z) : u64 (u64 x + y) = u64 (x + y).
Proof. unfold u64. apply Zplus_mod_idemp_l. Qed.

Lemma sim_cache_counters (rnd : nat -> Z) (c : cache_config_t) :
  valid_config c -> rand_ok rnd ->
  forall addrs st, wf_state c st ->
  0 <= total_access_times st < 2 ^ 64 -> 0 <= total_hit_times st < 2 ^ 64 ->
  exists st' evs,
    sim_cache rnd c st addrs = Done (st', evs) /\
    wf_state c st' /\ length evs = length addrs /\
    total_access_times st' =
      u64 (total_access_times st + Z.of_nat (length addrs)) /\
    total_hit_times st' = u64 (total_hit_times st + count_hits evs).
Proof.
  intros Hv Hr. induction addrs as [|a rest IH]; intros st Hwf Hra Hrh.
  - exists st, []. cbn. rewrite !Z.add_0_r, !u64_small by lia. auto.
  - destruct (access_cache_wf rnd c st a Hv Hwf Hr) as (st1 & [i r] & Hacc & Hwf1).
    destruct (access_cache_shape rnd c st st1 a i r Hacc)
      as (_ & _ & Ha & Hh & _).
    assert (P64 : 0 < 2 ^ 64) by lia.
    assert (Hra1 : 0 <= total_access_times st1 < 2 ^ 64)
      by (rewrite Ha; apply Z.mod_pos_bound; exact P64).
    assert (Hrh1 : 0 <= total_hit_times st1 < 2 ^ 64)
      by (rewrite Hh; destruct (is_hit r);
          [apply Z.mod_pos_bound; exact P64|exact Hrh]).
    destruct (IH st1 Hwf1 Hra1 Hrh1) as (st2 & evs & Hsim & Hwf2 & Hlen & Ha2 & Hh2).
    exists st2, ((i, r) :: evs). cbn [sim_cache]. rewrite Hacc. cbn [bind fst snd].
    rewrite Hsim. cbn [bind fst snd length].
    split; [reflexivity|]. split; [exact Hwf2|]. split; [congruence|].
    destruct (count_hits_cons i r evs) as [-> _].
    rewrite Ha2, Hh2, Ha, Hh, u64_add_l. split.
    + f_equal. lia.
    + destruct r; cbn [is_hit]; rewrite ?u64_add_l; f_equal; lia.
Qed.

(** A run of [sim_cache] from the fresh store returns for every trace, with
    one event per address and a well-formed store; [total_access_times] is the
    number of addresses and [total_hit_times] the number of hits, both modulo
    [2^64]. *)
Theorem sim_cache_run (rnd : nat -> Z) (c : cache_config_t) (addrs : list Z) :
  valid_config c -> rand_ok rnd ->
  exists st' evs,
    sim_cache rnd c (fresh_state c) addrs = Done (st', evs) /\
    wf_state c st' /\ length evs = length addrs /\
    total_access_times st' = u64 (Z.of_nat (length addrs)) /\
    total_hit_times st' = u64 (count_hits evs).
Proof.
  intros Hv Hr.
  destruct (sim_cache_counters rnd c Hv Hr addrs (fresh_state c)
              (wf_fresh_store c Hv))
    as (st' & evs & Hsim & Hwf & Hlen & Ha & Hh); [simpl; lia|simpl; lia|].
  cbn [fresh_state initial_state total_access_times total_hit_times] in Ha, Hh.
  rewrite Z.add_0_l in Ha, Hh.
  exists st', evs. auto.
Qed.

Lemma sim_cache_run_witness :
  valid_config cfg_direct /\ rand_ok no_rand /\
  exists st' evs,
    sim_cache no_rand cfg_direct (fresh_state cfg_direct) [0; 4; 8; 12; 0]
      = Done (st', evs) /\
    wf_state cfg_direct st' /\ length evs = length [0; 4; 8; 12; 0] /\
    total_access_times st' = u64 (Z.of_nat (length [0; 4; 8; 12; 0])) /\
    total_hit_times st' = u64 (count_hits evs).
Proof.
  assert (Hv : valid_config cfg_direct) by valid_by_computation.
  assert (Hr : rand_ok no_rand) by (intros k; unfold no_rand, RAND_MAX; lia).
  split; [exact Hv|]. split; [exact Hr|].
  exact (sim_cache_run no_rand cfg_direct [0; 4; 8; 12; 0] Hv Hr).
Defined.

(** For a trace of fewer than [2^64] addresses, the figures
    [display_statistics] prints after the run are the number of addresses,
    the number of hits and the number of misses of the run, so hits and
    misses add up to the accesses; a hit rate is printed exactly when the
    trace is not empty. *)
Theorem reported_statistics (rnd : nat -> Z) (c : cache_config_t)
    (addrs : list Z) :
  valid_config c -> rand_ok rnd -> Z.of_nat (length addrs) < 2 ^ 64 ->
  exists st' evs,
    sim_cache rnd c (fresh_state c) addrs = Done (st', evs) /\
    display_statistics st' =
      mk_statistics (Z.of_nat (length addrs)) (count_hits evs)
        (count_misses evs) (0 <? Z.of_nat (length addrs)) /\
    stat_hits (display_statistics st') + stat_misses (display_statistics st')
      = stat_accesses (display_statistics st').
Proof.
  intros Hv Hr Hlen.
  destruct (sim_cache_counters rnd c Hv Hr addrs (fresh_state c)
              (wf_fresh_store c Hv))
    as (st' & evs & Hsim & _ & Hl & Ha & Hh); [simpl; lia|simpl; lia|].
  pose proof (count_hits_misses evs) as (H1 & H2 & H3). rewrite Hl in H3.
  cbn [fresh_state initial_state total_access_times total_hit_times] in Ha, Hh.
  rewrite Z.add_0_l in Ha, Hh. rewrite u64_small in Ha, Hh by lia.
  exists st', evs. split; [exact Hsim|].
  unfold display_statistics. rewrite Ha, Hh.
  replace (Z.of_nat (length addrs) - count_hits evs) with (count_misses evs) by lia.
  rewrite u64_small by lia. cbn. split; [reflexivity|lia].
Qed.

Lemma reported_statistics_witness :
  valid_config cfg_direct /\ rand_ok no_rand /\
  Z.of_nat (length [0; 4; 8; 12; 0]) < 2 ^ 64 /\
  exists st' evs,
    sim_cache no_rand cfg_direct (fresh_state cfg_direct) [0; 4; 8; 12; 0]
      = Done (st', evs) /\
    display_statistics st' =
      mk_statistics (Z.of_nat (length [0; 4; 8; 12; 0])) (count_hits evs)
        (count_misses evs) (0 <? Z.of_nat (length [0; 4; 8; 12; 0])) /\
    stat_hits (display_statistics st') + stat_misses (display_statistics st')
      = stat_accesses (display_statistics st').
Proof.
  assert (Hv : valid_config cfg_direct) by valid_by_computation.
  assert (Hr : rand_ok no_rand) by (intros k; unfold no_rand, RAND_MAX; lia).
  assert (Hl : Z.of_nat (length [0; 4; 8; 12; 0]) < 2 ^ 64) by (simpl; lia).
  split; [exact Hv|]. split; [exact Hr|]. split; [exact Hl|].
  exact (reported_statistics no_rand cfg_direct [0; 4; 8; 12; 0] Hv Hr Hl).
Defined.

(** ** PLRU: what a hit protects and which bits are used *)

Lemma spec_hit_walk_low (dirs : list bool) : forall s node j,
  0 <= j < node ->
  Z.testbit (spec_hit_walk dirs s node) j = Z.testbit s j.
Proof.
  induction dirs as [|d ds IH]; intros s node j Hj; cbn [spec_hit_walk].
  - reflexivity.
  - rewrite IH by (destruct d; simpl Z.b2z; lia).
    rewrite set_bit_to_spec by lia.
    destruct (Z.eqb_spec node j); [lia|reflexivity].
Qed.

Lemma spec_hit_walk_first (d : bool) (ds : list bool) (s node : Z) :
  0 <= node ->
  Z.testbit (spec_hit_walk (d :: ds) s node) node = negb d.
Proof.
  intros Hn. cbn [spec_hit_walk].
  rewrite spec_hit_walk_low by (destruct d; simpl Z.b2z; lia).
  rewrite set_bit_to_spec, Z.eqb_refl by lia. reflexivity.
Qed.

(** After a hit in way [w] of a set with at least two ways, the next victim
    is not [w]: it lies in the other half of the ways. *)
Theorem plru_hit_protects_way (c : cache_config_t) (s : cache_set_t) (w : Z) :
  valid_config c -> 2 <= associativity c -> 0 <= plru_bits s < 2 ^ 64 ->
  0 <= w < associativity c ->
  exists s1 s2 v,
    update_plru_victim_way c s w = Done s1 /\
    find_and_updata_plru_victim_way c s1 = Done (s2, v) /\
    Z.testbit v (Z.log2 (associativity c) - 1)
      = negb (Z.testbit w (Z.log2 (associativity c) - 1)) /\
    v <> w.
Proof.
  intros Hv H2 Hs Hw.
  destruct (tree_level_valid c Hv) as (k & Hk & Ek & _ & Elog).
  pose proof (spec_on_hit_range (associativity c) (plru_bits s) w k Hk Ek Hs) as Hr.
  rewrite (update_plru_done c s w Hv Hs).
  do 3 eexists. split; [reflexivity|].
  split; [apply find_plru_done; [exact Hv|exact Hr]|].
  cbn [plru_bits with_plru_bits snd]. rewrite Elog.
  assert (Hk1 : 1 <= k).
  { destruct (Z.eq_dec k 0) as [->|]; [|lia]. change (2 ^ 0) with 1 in Ek. lia. }
  assert (Hbit : Z.testbit
                   (snd (spec_select_victim (associativity c)
                           (spec_on_hit (associativity c) (plru_bits s) w)))
                   (k - 1) = negb (Z.testbit w (k - 1))).
  { unfold spec_select_victim, spec_on_hit.
    destruct (Z.eqb_spec (associativity c) 1) as [E1|_]; [lia|].
    rewrite Elog. cbn [snd].
    destruct (Z.to_nat k) as [|n] eqn:En; [lia|].
    rewrite decision_bits_S.
    replace (k - 1) with (Z.of_nat n) by lia.
    set (s1 := spec_hit_walk _ _ _).
    assert (Hroot : Z.testbit s1 0 = negb (Z.testbit w (Z.of_nat n)))
      by (apply spec_hit_walk_first; lia).
    cbn [spec_victim_walk snd]. rewrite msb_first_cons, spec_victim_walk_length.
    rewrite testbit_above_low; [exact Hroot|lia|].
    match goal with
    | |- context [msb_first ?bs] =>
        pose proof (msb_first_range bs) as Hm;
        rewrite spec_victim_walk_length in Hm; exact Hm
    end. }
  split; [exact Hbit|].
  intros E. rewrite E in Hbit. destruct (Z.testbit w (k - 1)); discriminate.
Qed.

Lemma plru_hit_protects_way_witness :
  valid_config cfg_plru4 /\ 2 <= associativity cfg_plru4 /\
  0 <= plru_bits (mk_set [] 5 0) < 2 ^ 64 /\ 0 <= 1 < associativity cfg_plru4 /\
  exists s1 s2 v,
    update_plru_victim_way cfg_plru4 (mk_set [] 5 0) 1 = Done s1 /\
    find_and_updata_plru_victim_way cfg_plru4 s1 = Done (s2, v) /\
    Z.testbit v (Z.log2 (associativity cfg_plru4) - 1)
      = negb (Z.testbit 1 (Z.log2 (associativity cfg_plru4) - 1)) /\
    v <> 1.
Proof.
  assert (Hv : valid_config cfg_plru4) by valid_by_computation.
  assert (Ha : 2 <= associativity cfg_plru4) by (simpl; lia).
  assert (Hs : 0 <= plru_bits (mk_set [] 5 0) < 2 ^ 64) by (simpl; lia).
  assert (Hw : 0 <= 1 < associativity cfg_plru4) by (simpl; lia).
  split; [exact Hv|]. split; [exact Ha|]. split; [exact Hs|]. split; [exact Hw|].
  exact (plru_hit_protects_way cfg_plru4 (mk_set [] 5 0) 1 Hv Ha Hs Hw).
Defined.

Lemma spec_hit_walk_idempotent (dirs : list bool) : forall s node,
  0 <= node ->
  spec_hit_walk dirs (spec_hit_walk dirs s node) node = spec_hit_walk dirs s node.
Proof.
  induction dirs as [|d ds IH]; intros s node Hn.
  - reflexivity.
  - pose proof (spec_hit_walk_first d ds s node Hn) as Hf.
    cbn [spec_hit_walk] in *.
    rewrite set_bit_to_same by (lia || exact Hf).
    apply IH. destruct d; simpl Z.b2z; lia.
Qed.

(** Repeating the hit update for the same way changes nothing more: hitting a
    way twice in a row leaves the set as one hit does. *)
Theorem plru_hit_idempotent (c : cache_config_t) (s : cache_set_t) (w : Z) :
  valid_config c -> 0 <= plru_bits s < 2 ^ 64 ->
  exists s1,
    update_plru_victim_way c s w = Done s1 /\
    update_plru_victim_way c s1 w = Done s1.
Proof.
  intros Hv Hs.
  destruct (tree_level_valid c Hv) as (k & Hk & Ek & _ & Elog).
  pose proof (spec_on_hit_range (associativity c) (plru_bits s) w k Hk Ek Hs) as Hr.
  rewrite (update_plru_done c s w Hv Hs).
  eexists. split; [reflexivity|].
  rewrite update_plru_done by assumption.
  cbn [plru_bits with_plru_bits]. f_equal.
  unfold with_plru_bits; cbn [cache_line plru_bits fifo_pointer]. f_equal.
  unfold spec_on_hit. destruct (associativity c =? 1); [reflexivity|].
  apply spec_hit_walk_idempotent. lia.
Qed.

Lemma plru_hit_idempotent_witness :
  valid_config cfg_plru4 /\ 0 <= plru_bits (mk_set [] 5 0) < 2 ^ 64 /\
  exists s1,
    update_plru_victim_way cfg_plru4 (mk_set [] 5 0) 3 = Done s1 /\
    update_plru_victim_way cfg_plru4 s1 3 = Done s1.
Proof.
  assert (Hv : valid_config cfg_plru4) by valid_by_computation.
  assert (Hs : 0 <= plru_bits (mk_set [] 5 0) < 2 ^ 64) by (simpl; lia).
  split; [exact Hv|]. split; [exact Hs|].
  exact (plru_hit_idempotent cfg_plru4 (mk_set [] 5 0) 3 Hv Hs).
Defined.

(** Neither walk writes a node at or above [M / 2 - 1] when it starts from
    a node with [(node + 2) * 2^n <= M]. *)
Lemma spec_victim_walk_high (n : nat) : forall s node j M,
  0 <= node -> (node + 2) * 2 ^ Z.of_nat n <= M -> M <= 2 * (j + 1) ->
  Z.testbit (fst (spec_victim_walk n s node)) j = Z.testbit s j.
Proof.
  induction n as [|n IH]; intros s node j M Hn HM Hj; cbn [spec_victim_walk fst].
  - reflexivity.
  - rewrite Nat2Z.inj_succ, Z.pow_succ_r in HM by lia.
    assert (Hp : 0 < 2 ^ Z.of_nat n) by (apply pow2_pos; lia).
    rewrite (IH _ _ j M);
      [|destruct (Z.testbit s node); simpl Z.b2z; lia
       |destruct (Z.testbit s node); simpl Z.b2z; nia|exact Hj].
    rewrite flip_bit_set, set_bit_to_spec by nia.
    destruct (Z.eqb_spec node j); [nia|reflexivity].
Qed.

Lemma spec_hit_walk_high (dirs : list bool) : forall s node j M,
  0 <= node -> (node + 2) * 2 ^ Z.of_nat (length dirs) <= M -> M <= 2 * (j + 1) ->
  Z.testbit (spec_hit_walk dirs s node) j = Z.testbit s j.
Proof.
  induction dirs as [|d ds IH]; intros s node j M Hn HM Hj; cbn [spec_hit_walk].
  - reflexivity.
  - cbn [length] in HM. rewrite Nat2Z.inj_succ, Z.pow_succ_r in HM by lia.
    assert (Hp : 0 < 2 ^ Z.of_nat (length ds)) by (apply pow2_pos; lia).
    rewrite (IH _ _ j M);
      [|destruct d; simpl Z.b2z; lia|destruct d; simpl Z.b2z; nia|exact Hj].
    rewrite set_bit_to_spec by nia.
    destruct (Z.eqb_spec node j); [nia|reflexivity].
Qed.

Lemma lt_pow2_of_bits (x m : Z) :
  0 <= m -> 0 <= x -> (forall i, m <= i -> Z.testbit x i = false) -> x < 2 ^ m.
Proof.
  intros Hm Hx Hb.
  destruct (Z_lt_ge_dec x (2 ^ m)) as [|Hge]; [assumption|exfalso].
  assert (0 < 2 ^ m) by (apply pow2_pos; lia).
  assert (Hpos : 0 < x) by lia.
  assert (Hl : m <= Z.log2 x) by (apply Z.log2_le_pow2; lia).
  pose proof (Z.bit_log2 x Hpos) as Ht.
  rewrite Hb in Ht by lia. discriminate.
Qed.

Lemma bits_of_lt_pow2 (x m i : Z) :
  0 <= x < 2 ^ m -> m <= i -> Z.testbit x i = false.
Proof.
  intros Hx Hi. destruct (Z_lt_ge_dec m 0) as [Hneg|Hm].
  - rewrite Z.pow_neg_r in Hx by lia. lia.
  - rewrite <- (Z.mod_small x (2 ^ m)) by lia.
    apply Z.mod_pow2_bits_high. lia.
Qed.

(** Both PLRU operations use the [associativity - 1] low bits of [plru_bits]
    only: if no higher bit is set before a hit update or a victim selection,
    none is set after it. *)
Theorem plru_bits_confined (c : cache_config_t) (s : cache_set_t) (w : Z) :
  valid_config c -> 0 <= plru_bits s < 2 ^ (associativity c - 1) ->
  exists s1 s2 v,
    update_plru_victim_way c s w = Done s1 /\
    0 <= plru_bits s1 < 2 ^ (associativity c - 1) /\
    find_and_updata_plru_victim_way c s = Done (s2, v) /\
    0 <= plru_bits s2 < 2 ^ (associativity c - 1).
Proof.
  intros Hv Hs.
  destruct (tree_level_valid c Hv) as (k & Hk & Ek & _ & Elog).
  pose proof (assoc_bounds c Hv) as Ha.
  assert (Hs64 : 0 <= plru_bits s < 2 ^ 64).
  { split; [lia|]. assert (2 ^ (associativity c - 1) <= 2 ^ 64)
      by (apply pow2_le; lia). lia. }
  pose proof (spec_on_hit_range (associativity c) (plru_bits s) w k Hk Ek Hs64) as Hr1.
  destruct (spec_select_victim_range (associativity c) (plru_bits s) k Hk Ek Hs64)
    as [Hr2 _].
  rewrite (update_plru_done c s w Hv Hs64), (find_plru_done c s Hv Hs64).
  do 3 eexists. split; [reflexivity|]. cbn [plru_bits with_plru_bits].
  assert (Hpk : 2 ^ Z.of_nat (Z.to_nat k) = associativity c)
    by (rewrite Z2Nat.id by lia; symmetry; exact Ek).
  split; [|split; [reflexivity|]].
  - split; [apply Hr1|]. apply lt_pow2_of_bits; [lia|apply Hr1|].
    intros i Hi. unfold spec_on_hit.
    destruct (associativity c =? 1); [apply (bits_of_lt_pow2 _ (associativity c - 1)); [exact Hs|exact Hi]|].
    rewrite Elog.
    rewrite (spec_hit_walk_high _ _ _ i (2 * associativity c));
      [apply (bits_of_lt_pow2 _ (associativity c - 1)); [exact Hs|exact Hi]|lia| |lia].
    rewrite decision_bits_length, Hpk. lia.
  - split; [apply Hr2|]. apply lt_pow2_of_bits; [lia|apply Hr2|].
    intros i Hi. unfold spec_select_victim.
    destruct (associativity c =? 1); cbn [fst plru_bits with_plru_bits];
      [apply (bits_of_lt_pow2 _ (associativity c - 1)); [exact Hs|exact Hi]|].
    rewrite Elog.
    rewrite (spec_victim_walk_high _ _ _ i (2 * associativity c));
      [apply (bits_of_lt_pow2 _ (associativity c - 1)); [exact Hs|exact Hi]|lia| |lia].
    rewrite Hpk. lia.
Qed.

Lemma plru_bits_confined_witness :
  valid_config cfg_plru4 /\
  0 <= plru_bits (mk_set [] 5 0) < 2 ^ (associativity cfg_plru4 - 1) /\
  exists s1 s2 v,
    update_plru_victim_way cfg_plru4 (mk_set [] 5 0) 2 = Done s1 /\
    0 <= plru_bits s1 < 2 ^ (associativity cfg_plru4 - 1) /\
    find_and_updata_plru_victim_way cfg_plru4 (mk_set [] 5 0) = Done (s2, v) /\
    0 <= plru_bits s2 < 2 ^ (associativity cfg_plru4 - 1).
Proof.
  assert (Hv : valid_config cfg_plru4) by valid_by_computation.
  assert (Hs : 0 <= plru_bits (mk_set [] 5 0) < 2 ^ (associativity cfg_plru4 - 1))
    by (simpl; lia).
  split; [exact Hv|]. split; [exact Hs|].
  exact (plru_bits_confined cfg_plru4 (mk_set [] 5 0) 2 Hv Hs).
Defined.

(** ** PLRU: a full round of misses *)

(** The nodes below [c] lie, level by level, in the interval of the heap
    numbering that belongs to [c]. *)
Lemma in_subtree_bounds (n : nat) : forall c j,
  0 <= c -> in_subtree n c j = true ->
  exists d, 0 <= d /\ (c + 1) * 2 ^ d <= j + 1 < (c + 2) * 2 ^ d.
Proof.
  induction n as [|n IH]; intros c j Hc H; cbn [in_subtree] in H.
  - discriminate.
  - apply orb_true_iff in H as [H|H]; [apply orb_true_iff in H as [H|H]|].
    + apply Z.eqb_eq in H. subst. exists 0. change (2 ^ 0) with 1. lia.
    + destruct (IH (2 * c + 1) j ltac:(lia) H) as (d & Hd & Hb).
      exists (d + 1). rewrite Z.pow_add_r by lia. change (2 ^ 1) with 2.
      assert (0 < 2 ^ d) by (apply pow2_pos; lia). nia.
    + destruct (IH (2 * c + 2) j ltac:(lia) H) as (d & Hd & Hb).
      exists (d + 1). rewrite Z.pow_add_r by lia. change (2 ^ 1) with 2.
      assert (0 < 2 ^ d) by (apply pow2_pos; lia). nia.
Qed.

Lemma in_subtree_above (n : nat) (c j : Z) :
  0 <= c -> in_subtree n c j = true -> c <= j.
Proof.
  intros Hc H. destruct (in_subtree_bounds n c j Hc H) as (d & Hd & Hb).
  assert (0 < 2 ^ d) by (apply pow2_pos; lia). nia.
Qed.

(** The two subtrees of a node share no node. *)
Lemma in_subtree_disjoint (n n' : nat) (c j : Z) :
  0 <= c -> in_subtree n (2 * c + 1) j = true ->
  in_subtree n' (2 * c + 2) j = false.
Proof.
  intros Hc Hl. destruct (in_subtree n' (2 * c + 2) j) eqn:Hr; [exfalso|reflexivity].
  destruct (in_subtree_bounds n (2 * c + 1) j ltac:(lia) Hl) as (d & Hd & Hbl).
  destruct (in_subtree_bounds n' (2 * c + 2) j ltac:(lia) Hr) as (e & He & Hbr).
  assert (Pd : 0 < 2 ^ d) by (apply pow2_pos; lia).
  assert (Pe : 0 < 2 ^ e) by (apply pow2_pos; lia).
  destruct (Z.lt_trichotomy d e) as [Hlt|[->|Hgt]].
  - assert (2 * 2 ^ d <= 2 ^ e).
    { rewrite <- Z.pow_succ_r by lia. apply pow2_le. lia. }
    nia.
  - nia.
  - assert (2 * 2 ^ e <= 2 ^ d).
    { rewrite <- Z.pow_succ_r by lia. apply pow2_le. lia. }
    nia.
Qed.

Lemma spec_victim_walk_outside (n : nat) : forall s node j,
  0 <= node -> 0 <= j -> in_subtree n node j = false ->
  Z.testbit (fst (spec_victim_walk n s node)) j = Z.testbit s j.
Proof.
  induction n as [|n IH]; intros s node j Hn Hj H; cbn [spec_victim_walk fst].
  - reflexivity.
  - cbn [in_subtree] in H.
    apply orb_false_iff in H as [H Hr]. apply orb_false_iff in H as [He Hl].
    apply Z.eqb_neq in He.
    rewrite IH; [|destruct (Z.testbit s node); simpl Z.b2z; lia|exact Hj|].
    + rewrite flip_bit_set, set_bit_to_spec by lia.
      destruct (Z.eqb_spec node j); [lia|reflexivity].
    + destruct (Z.testbit s node); simpl Z.b2z.
      * replace (2 * node + 1 + 1) with (2 * node + 2) by lia. exact Hr.
      * replace (2 * node + 1 + 0) with (2 * node + 1) by lia. exact Hl.
Qed.

Lemma tree_of_ext (n : nat) : forall s s' node,
  (forall j, in_subtree n node j = true -> Z.testbit s j = Z.testbit s' j) ->
  tree_of n s node = tree_of n s' node.
Proof.
  induction n as [|n IH]; intros s s' node H; cbn [tree_of].
  - reflexivity.
  - f_equal.
    + apply H. cbn [in_subtree]. rewrite Z.eqb_refl. reflexivity.
    + apply IH. intros j Hj. apply H. cbn [in_subtree]. rewrite Hj.
      apply orb_true_iff. left. apply orb_true_r.
    + apply IH. intros j Hj. apply H. cbn [in_subtree]. rewrite Hj.
      apply orb_true_r.
Qed.

Lemma tree_of_inj (n : nat) : forall s s' node j,
  tree_of n s node = tree_of n s' node ->
  in_subtree n node j = true -> Z.testbit s j = Z.testbit s' j.
Proof.
  induction n as [|n IH]; intros s s' node j H Hj; cbn [tree_of in_subtree] in *.
  - discriminate.
  - injection H as Hb Hl Hr.
    apply orb_true_iff in Hj as [Hj|Hj]; [apply orb_true_iff in Hj as [Hj|Hj]|].
    + apply Z.eqb_eq in Hj. subst. exact Hb.
    + exact (IH _ _ _ _ Hl Hj).
    + exact (IH _ _ _ _ Hr Hj).
Qed.

(** A victim walk on the bits is the victim walk on the tree they hold. *)
Lemma spec_victim_walk_tree (n : nat) : forall s node,
  0 <= node ->
  tree_of n (fst (spec_victim_walk n s node)) node
    = fst (tree_walk (tree_of n s node)) /\
  snd (spec_victim_walk n s node) = snd (tree_walk (tree_of n s node)).
Proof.
  induction n as [|n IH]; intros s node Hn.
  - split; reflexivity.
  - pose proof (spec_victim_walk_first n s node Hn) as Hfirst.
    cbn [tree_of tree_walk]. rewrite Hfirst.
    cbn [spec_victim_walk fst snd] in *.
    assert (Hflip : forall c j, node < c -> in_subtree n c j = true ->
              Z.testbit (flip_bit s node) j = Z.testbit s j).
    { intros c j Hc Hj. pose proof (in_subtree_above n c j ltac:(lia) Hj).
      rewrite flip_bit_set, set_bit_to_spec by lia.
      destruct (Z.eqb_spec node j); [lia|reflexivity]. }
    destruct (Z.testbit s node); simpl Z.b2z; cbn [negb fst snd].
    + replace (2 * node + 1 + 1) with (2 * node + 2) by lia.
      destruct (IH (flip_bit s node) (2 * node + 2) ltac:(lia)) as [It Iw].
      rewrite (tree_of_ext n (flip_bit s node) s (2 * node + 2)) in It, Iw
        by (intros j Hj; apply (Hflip (2 * node + 2)); [lia|exact Hj]).
      split; [|rewrite Iw; reflexivity].
      f_equal; [|exact It].
      transitivity (tree_of n (flip_bit s node) (2 * node + 1)).
      * apply tree_of_ext. intros j Hj.
        apply spec_victim_walk_outside; [lia| |].
        -- pose proof (in_subtree_above n (2 * node + 1) j ltac:(lia) Hj). lia.
        -- apply (in_subtree_disjoint n n node j Hn Hj).
      * apply tree_of_ext. intros j Hj. apply (Hflip (2 * node + 1)); [lia|exact Hj].
    + replace (2 * node + 1 + 0) with (2 * node + 1) by lia.
      destruct (IH (flip_bit s node) (2 * node + 1) ltac:(lia)) as [It Iw].
      rewrite (tree_of_ext n (flip_bit s node) s (2 * node + 1)) in It, Iw
        by (intros j Hj; apply (Hflip (2 * node + 1)); [lia|exact Hj]).
      split; [|rewrite Iw; reflexivity].
      f_equal; [exact It|].
      transitivity (tree_of n (flip_bit s node) (2 * node + 2)).
      * apply tree_of_ext. intros j Hj.
        apply spec_victim_walk_outside; [lia| |].
        -- pose proof (in_subtree_above n (2 * node + 2) j ltac:(lia) Hj). lia.
        -- destruct (in_subtree n (2 * node + 1) j) eqn:Hl; [|reflexivity].
           rewrite (in_subtree_disjoint n n node j Hn Hl) in Hj. discriminate.
      * apply tree_of_ext. intros j Hj. apply (Hflip (2 * node + 2)); [lia|exact Hj].
Qed.

(** Two walks on a tree are one walk on each subtree, and the root bit is
    back where it was. *)
Lemma tree_iter_double (m : nat) : forall b l r,
  fst (tree_iter (2 * m) (PNode b l r))
    = PNode b (fst (tree_iter m l)) (fst (tree_iter m r)) /\
  snd (tree_iter (2 * m) (PNode b l r))
    ≡ₚ map (cons false) (snd (tree_iter m l))
         ++ map (cons true) (snd (tree_iter m r)).
Proof.
  induction m as [|m IH]; intros b l r.
  - split; reflexivity.
  - replace (2 * S m)%nat with (S (S (2 * m))) by lia.
    destruct (IH false (fst (tree_walk l)) (fst (tree_walk r))) as [If Pf].
    destruct (IH true (fst (tree_walk l)) (fst (tree_walk r))) as [It Pt].
    destruct b; cbn [tree_iter tree_walk fst snd map app] in *.
    + split; [exact It|].
      rewrite perm_swap. apply perm_skip.
      apply Permutation_cons_app. exact Pt.
    + split; [exact If|].
      apply perm_skip. apply Permutation_cons_app. exact Pf.
Qed.

Lemma tree_cycle (n : nat) : forall s node,
  fst (tree_iter (2 ^ n) (tree_of n s node)) = tree_of n s node /\
  snd (tree_iter (2 ^ n) (tree_of n s node)) ≡ₚ all_paths n.
Proof.
  induction n as [|n IH]; intros s node.
  - split; reflexivity.
  - rewrite Nat.pow_succ_r'. cbn [tree_of all_paths].
    destruct (tree_iter_double (2 ^ n) (Z.testbit s node)
                (tree_of n s (2 * node + 1)) (tree_of n s (2 * node + 2)))
      as [Hf Hp].
    destruct (IH s (2 * node + 1)) as [Hl Pl].
    destruct (IH s (2 * node + 2)) as [Hr Pr].
    rewrite Hl, Hr in Hf. split; [exact Hf|].
    rewrite Hp. apply Permutation_app; apply Permutation_map; assumption.
Qed.

Lemma spec_iter_tree (n m : nat) : forall s,
  tree_of n (fst (spec_iter n m s)) 0 = fst (tree_iter m (tree_of n s 0)) /\
  snd (spec_iter n m s) = snd (tree_iter m (tree_of n s 0)) /\
  (forall j, 0 <= j -> in_subtree n 0 j = false ->
             Z.testbit (fst (spec_iter n m s)) j = Z.testbit s j).
Proof.
  induction m as [|m IH]; intros s.
  - repeat split; reflexivity.
  - destruct (spec_victim_walk_tree n s 0 ltac:(lia)) as [Ht Hw].
    destruct (IH (fst (spec_victim_walk n s 0))) as (It & Iw & Io).
    cbn [spec_iter tree_iter fst snd].
    rewrite <- Ht, <- Hw. repeat split; try assumption.
    + rewrite Iw. reflexivity.
    + intros j Hj Hout. rewrite Io by assumption.
      apply spec_victim_walk_outside; [lia|exact Hj|exact Hout].
Qed.

(** [2^n] victim walks in a row bring the bits back and read every path
    once. *)
Lemma spec_iter_cycle (n : nat) (s : Z) :
  fst (spec_iter n (2 ^ n) s) = s /\
  snd (spec_iter n (2 ^ n) s) ≡ₚ all_paths n.
Proof.
  destruct (spec_iter_tree n (2 ^ n) s) as (Ht & Hw & Ho).
  destruct (tree_cycle n s 0) as [Cf Cp].
  split.
  - apply Z.bits_inj'. intros j Hj.
    destruct (in_subtree n 0 j) eqn:Hin.
    + apply (tree_of_inj n _ _ 0 j); [|exact Hin]. rewrite Ht. exact Cf.
    + apply Ho; assumption.
  - rewrite Hw. exact Cp.
Qed.

Lemma all_paths_length (n : nat) : Forall (fun bs => length bs = n) (all_paths n).
Proof.
  induction n as [|n IH]; cbn [all_paths].
  - repeat constructor.
  - apply Forall_app. split; apply Forall_forall; intros bs Hin;
      apply list_elem_of_In, in_map_iff in Hin as (bs' & <- & Hin');
      cbn [length]; f_equal;
      exact (proj1 (Forall_forall _ _) IH bs' (proj2 (list_elem_of_In _ _) Hin')).
Qed.

Lemma map_of_nat_seq (len : nat) : forall a,
  map Z.of_nat (seq a len) = map (fun i => Z.of_nat a + Z.of_nat i) (seq 0 len).
Proof.
  induction len as [|len IH]; intros a; [reflexivity|].
  cbn [seq map]. f_equal; [lia|].
  rewrite IH, <- seq_shift, map_map. apply map_ext. intros i. lia.
Qed.

Lemma msb_first_all_paths (n : nat) :
  map msb_first (all_paths n) = map Z.of_nat (seq 0 (2 ^ n)).
Proof.
  induction n as [|n IH]; [reflexivity|].
  cbn [all_paths]. rewrite Nat.pow_succ_r'.
  replace (2 * 2 ^ n)%nat with (2 ^ n + 2 ^ n)%nat by lia.
  rewrite seq_app, !map_app, !map_map. cbn [Nat.add]. f_equal.
  - rewrite <- IH. apply map_ext_in. intros bs Hin.
    rewrite msb_first_cons. cbn [Z.b2z]. lia.
  - rewrite map_of_nat_seq, <- (map_map Z.of_nat (fun x => Z.of_nat (2 ^ n) + x)).
    rewrite <- IH, map_map. apply map_ext_in. intros bs Hin.
    rewrite msb_first_cons. cbn [Z.b2z].
    pose proof (all_paths_length n) as Hl.
    rewrite (proj1 (Forall_forall _ _) Hl bs (proj2 (list_elem_of_In _ _) Hin)).
    rewrite Nat2Z.inj_pow. change (Z.of_nat 2) with 2. lia.
Qed.

Lemma plru_misses_spec (c : cache_config_t) (k : Z) (m : nat) : forall s,
  valid_config c -> associativity c = 2 ^ k -> 1 <= k <= 6 ->
  0 <= plru_bits s < 2 ^ 64 ->
  plru_misses m c s =
  Done (with_plru_bits s (fst (spec_iter (Z.to_nat k) m (plru_bits s))),
        map msb_first (snd (spec_iter (Z.to_nat k) m (plru_bits s)))).
Proof.
  induction m as [|m IH]; intros s Hv Ek Hk Hs.
  - cbn. rewrite with_plru_bits_same. reflexivity.
  - assert (Hp : 2 ^ Z.of_nat (Z.to_nat k) <= 2 ^ 6) by (apply pow2_le; lia).
    assert (Hne : (associativity c =? 1) = false).
    { apply Z.eqb_neq. rewrite Ek.
      assert (2 ^ 1 <= 2 ^ k) by (apply pow2_le; lia). lia. }
    cbn [plru_misses spec_iter fst snd map].
    rewrite (find_plru_done c s Hv Hs). cbn [bind fst snd].
    unfold spec_select_victim. rewrite Hne, Ek, Z.log2_pow2 by lia.
    cbn [fst snd].
    rewrite IH; try assumption.
    + cbn [bind fst snd plru_bits with_plru_bits]. reflexivity.
    + cbn [plru_bits with_plru_bits]. apply spec_victim_walk_range; lia.
Qed.

(** A full round of misses: [associativity] victim selections in a row on
    one set, with no hit in between, all return, evict every way exactly once
    and leave the set, [plru_bits] included, exactly as it was. *)
Theorem plru_full_round (c : cache_config_t) (s : cache_set_t) :
  valid_config c -> 0 <= plru_bits s < 2 ^ 64 ->
  exists ws,
    plru_misses (Z.to_nat (associativity c)) c s = Done (s, ws) /\
    ws ≡ₚ map Z.of_nat (seq 0 (Z.to_nat (associativity c))).
Proof.
  intros Hv Hs.
  destruct (tree_level_valid c Hv) as (k & Hk & Ek & _).
  destruct (Z.eq_dec k 0) as [->|Hk0].
  - change (2 ^ 0) with 1 in Ek. exists [0].
    replace (Z.to_nat (associativity c)) with 1%nat by (rewrite Ek; reflexivity).
    cbn [plru_misses].
    unfold find_and_updata_plru_victim_way. rewrite Ek. split; reflexivity.
  - rewrite (plru_misses_spec c k _ s Hv Ek ltac:(lia) Hs).
    assert (En : Z.to_nat (associativity c) = (2 ^ Z.to_nat k)%nat).
    { rewrite Ek. apply Nat2Z.inj.
      assert (0 < 2 ^ k) by (apply pow2_pos; lia).
      rewrite Nat2Z.inj_pow, !Z2Nat.id by lia. reflexivity. }
    rewrite En.
    destruct (spec_iter_cycle (Z.to_nat k) (plru_bits s)) as [Hf Hp].
    rewrite Hf, with_plru_bits_same.
    eexists. split; [reflexivity|].
    rewrite <- msb_first_all_paths. apply Permutation_map. exact Hp.
Qed.

Lemma plru_full_round_witness :
  valid_config cfg_plru4 /\ 0 <= plru_bits (mk_set [] 5 0) < 2 ^ 64 /\
  exists ws,
    plru_misses (Z.to_nat (associativity cfg_plru4)) cfg_plru4 (mk_set [] 5 0)
      = Done (mk_set [] 5 0, ws) /\
    ws ≡ₚ map Z.of_nat (seq 0 (Z.to_nat (associativity cfg_plru4))).
Proof.
  assert (Hv : valid_config cfg_plru4) by valid_by_computation.
  assert (Hs : 0 <= plru_bits (mk_set [] 5 0) < 2 ^ 64) by (simpl; lia).
  split; [exact Hv|]. split; [exact Hs|].
  exact (plru_full_round cfg_plru4 (mk_set [] 5 0) Hv Hs).
Defined.

(** ** The [LOG2] macro *)

Lemma LOG2_loop_floor (fuel : nat) : forall num r,
  0 < num < 2 ^ Z.of_nat fuel ->
  LOG2_loop fuel num r = Done (r + Z.log2 num + 1).
Proof.
  induction fuel as [|fuel IH]; intros num r Hn; rewrite LOG2_loop_eq.
  - change (2 ^ Z.of_nat 0) with 1 in Hn. lia.
  - destruct (Z.eqb_spec num 0); [lia|].
    rewrite Nat2Z.inj_succ, Z.pow_succ_r in Hn by lia.
    destruct (Z.eq_dec num 1) as [->|Hne].
    + change (Z.shiftr 1 1) with 0. rewrite LOG2_loop_eq. simpl. f_equal. lia.
    + assert (Hd : 0 < Z.shiftr num 1 < 2 ^ Z.of_nat fuel).
      { rewrite Z.shiftr_div_pow2 by lia. change (2 ^ 1) with 2.
        split; [apply Z.div_str_pos; lia|apply Z.div_lt_upper_bound; lia]. }
      rewrite IH by exact Hd.
      rewrite Z.log2_shiftr by lia.
      assert (1 <= Z.log2 num) by (apply Z.log2_le_pow2; lia).
      f_equal. lia.
Qed.

(** On an [int], [LOG2] is the floor of the binary logarithm for a positive
    argument and [-1] for zero; on a negative argument the loop never sees
    zero and runs into the overflow of its [int] counter, which is undefined
    behaviour. *)
Theorem LOG2_floor (n : Z) :
  INT_MIN <= n <= INT_MAX ->
  LOG2 n = if n <? 0 then Undefined
           else if n =? 0 then Done (-1)
           else Done (Z.log2 n).
Proof.
  unfold INT_MIN, INT_MAX. intros Hn.
  destruct (Z.ltb_spec n 0) as [Hneg|Hpos].
  - apply LOG2_loop_negative. exact Hneg.
  - destruct (Z.eqb_spec n 0) as [->|Hne]; [reflexivity|].
    unfold LOG2. rewrite LOG2_loop_floor; [f_equal; lia|].
    change (Z.of_nat 32) with 32. lia.
Qed.

Lemma LOG2_floor_witness :
  INT_MIN <= 48 <= INT_MAX /\
  LOG2 48 = if 48 <? 0 then Undefined
            else if 48 =? 0 then Done (-1)
            else Done (Z.log2 48).
Proof.
  assert (H : INT_MIN <= 48 <= INT_MAX) by (unfold INT_MIN, INT_MAX; lia).
  split; [exact H|]. exact (LOG2_floor 48 H).
Defined.

(** ** Direct-mapped caches *)

(** With associativity 1 every hit is in way 0 and every miss evicts way 0,
    whatever the replacement policy and whatever [rand()] returns. *)
Theorem direct_mapped_way (rnd : nat -> Z) (c : cache_config_t) (st : sim_state)
    (addr : Z) :
  valid_config c -> wf_state c st -> rand_ok rnd -> associativity c = 1 ->
  exists st' i,
    access_cache rnd c st addr = Done (st', (i, Hit 0)) \/
    access_cache rnd c st addr = Done (st', (i, Miss 0)).
Proof.
  intros Hv Hwf Hr H1.
  destruct (access_cache_cases rnd c st addr Hv Hwf Hr)
    as (index & t & cs & _ & _ & _ & _ & Hwfcs & [Hhit|Hmiss]).
  - destruct Hhit as (w & l & cs' & Hw & _ & _ & _ & _ & _ & _ & _ & Hacc).
    destruct Hwfcs as (Hlen & _). rewrite Hlen, H1 in Hw.
    assert (w = O) by (simpl in Hw; lia). subst w.
    do 2 eexists. left. exact Hacc.
  - destruct Hmiss as (_ & cs1 & v & calls & _ & Hvr & _ & _ & Hacc).
    assert (v = 0) by lia. subst v.
    do 2 eexists. right. exact Hacc.
Qed.

Lemma direct_mapped_way_witness :
  valid_config cfg_direct /\ wf_state cfg_direct (fresh_state cfg_direct) /\
  rand_ok (fun k => 7 + Z.of_nat k mod 100) /\ associativity cfg_direct = 1 /\
  exists st' i,
    access_cache (fun k => 7 + Z.of_nat k mod 100) cfg_direct
      (fresh_state cfg_direct) 44 = Done (st', (i, Hit 0)) \/
    access_cache (fun k => 7 + Z.of_nat k mod 100) cfg_direct
      (fresh_state cfg_direct) 44 = Done (st', (i, Miss 0)).
Proof.
  assert (Hv : valid_config cfg_direct) by valid_by_computation.
  assert (Hwf : wf_state cfg_direct (fresh_state cfg_direct)) by wf_by_computation.
  assert (Hr : rand_ok (fun k => 7 + Z.of_nat k mod 100)).
  { intros k. unfold RAND_MAX.
    pose proof (Z.mod_pos_bound (Z.of_nat k) 100 ltac:(lia)). lia. }
  assert (H1 : associativity cfg_direct = 1) by reflexivity.
  split; [exact Hv|]. split; [exact Hwf|]. split; [exact Hr|]. split; [exact H1|].
  exact (direct_mapped_way _ cfg_direct (fresh_state cfg_direct) 44 Hv Hwf Hr H1).
Defined.

(** ** Command-line options *)

(** When [parse_arguments] returns, each of the three sizes and the trace
    file come from the last occurrence of their option, the policy from the
    name given last, and what no option mentions is left as it was: with no
    [-p] the policy stays [POLICY_PLRU], with a size option missing the size
    stays 0.  The derived fields are not touched. *)
Theorem parse_last_wins (atoi : string -> Z) (opts : list (ascii * string)) :
  forall (c0 c : cache_config_t) (tf0 tf : option string),
  parse_arguments atoi opts c0 tf0 = Parsed c tf ->
  total_size c = from_option atoi (total_size c0) (last_arg "s" opts) /\
  block_size c = from_option atoi (block_size c0) (last_arg "b" opts) /\
  associativity c = from_option atoi (associativity c0) (last_arg "a" opts) /\
  Some (policy c) = match last_arg "p" opts with
                    | Some name => policy_of_name name
                    | None => Some (policy c0)
                    end /\
  tf = match last_arg "t" opts with Some f => Some f | None => tf0 end /\
  (block_num c, set_num c, bits_for_offset c, bits_for_index c, bits_for_tag c)
  = (block_num c0, set_num c0, bits_for_offset c0, bits_for_index c0,
     bits_for_tag c0).
Proof.
  induction opts as [|[opt optarg] rest IH]; intros c0 c tf0 tf H.
  - injection H as <- <-. repeat split; reflexivity.
  - cbn [parse_arguments] in H. cbn [last_arg].
    parse_step H; try discriminate;
      apply IH in H as (Hs & Hb & Ha & Hp & Ht & Hd);
      cbn [with_total_size with_block_size with_associativity with_policy
           total_size block_size associativity policy block_num set_num
           bits_for_offset bits_for_index bits_for_tag] in Hs, Hb, Ha, Hp, Ht, Hd;
      rewrite Hs, Hb, Ha, Hp, Ht, Hd;
      (split; [destruct (last_arg "s" rest); reflexivity|]);
      (split; [destruct (last_arg "b" rest); reflexivity|]);
      (split; [destruct (last_arg "a" rest); reflexivity|]);
      (split; [destruct (last_arg "p" rest); try reflexivity;
               cbv beta iota delta [Ascii.eqb Bool.eqb]; unfold policy_of_name;
               repeat match goal with
                      | E : String.eqb _ _ = _ |- _ => rewrite E; clear E
                      end; reflexivity|]);
      (split; [destruct (last_arg "t" rest); reflexivity|reflexivity]).
Qed.

Lemma parse_last_wins_witness :
  parse_arguments (fun _ => 64)
    [("s"%char, "64"%string); ("p"%char, "FIFO"%string);
     ("s"%char, "1024"%string); ("t"%char, "a.bin"%string)]
    static_config None
  = Parsed (mk_config 64 0 0 0 POLICY_FIFO 0 0 0 0) (Some "a.bin"%string) /\
  64 = from_option (fun _ => 64) 0 (Some "1024"%string) /\
  0 = from_option (fun _ : string => 64) 0 None /\
  0 = from_option (fun _ : string => 64) 0 None /\
  Some POLICY_FIFO = policy_of_name "FIFO" /\
  Some "a.bin"%string = Some "a.bin"%string /\
  (0, 0, 0, 0, 0) = (0, 0, 0, 0, 0).
Proof.
  split; [reflexivity|].
  exact (parse_last_wins (fun _ => 64)
           [("s"%char, "64"%string); ("p"%char, "FIFO"%string);
            ("s"%char, "1024"%string); ("t"%char, "a.bin"%string)]
           static_config _ None _ eq_refl).
Defined.

(** Options are handled strictly in order: once a prefix has been accepted,
    the rest is handled from the configuration the prefix left, so the first
    [-h], unknown option or unknown policy name decides how the run ends and
    nothing after it is looked at. *)
Theorem parse_in_order (atoi : string -> Z) (pre post : list (ascii * string)) :
  forall (c0 : cache_config_t) (tf0 : option string),
  parse_arguments atoi (pre ++ post) c0 tf0 =
  match parse_arguments atoi pre c0 tf0 with
  | Parsed c tf => parse_arguments atoi post c tf
  | ExitHelp => ExitHelp
  | ParseFatal msg => ParseFatal msg
  end.
Proof.
  induction pre as [|[opt optarg] rest IH]; intros c0 tf0.
  - reflexivity.
  - cbn [app parse_arguments].
    repeat match goal with
           | |- context [if ?b then _ else _] => destruct b
           end; try reflexivity; apply IH.
Qed.

(** ** Allocation and release over a run *)

Lemma allocated_app (tr tr' : list event) :
  allocated (tr ++ tr') = allocated tr ++ allocated tr'.
Proof.
  induction tr as [|e tr IH]; [reflexivity|].
  destruct e; cbn [app allocated]; rewrite IH; reflexivity.
Qed.

Lemma freed_app (tr tr' : list event) :
  freed (tr ++ tr') = freed tr ++ freed tr'.
Proof.
  induction tr as [|e tr IH]; [reflexivity|].
  destruct e; cbn [app freed]; rewrite IH; reflexivity.
Qed.

Lemma alloc_lines_done_trace (mem : nat -> bool) (c : cache_config_t) (n : nat) :
  forall (i0 : nat) acc tr tr' store,
  alloc_lines mem c n (Z.of_nat i0) acc tr = (tr', Done store) ->
  tr' = tr ++ map (fun j => EvAllocLines (Z.of_nat j) (associativity c)) (seq i0 n).
Proof.
  induction n as [|n IH]; intros i0 acc tr tr' store H; cbn [alloc_lines] in H.
  - injection H as <- _. cbn. rewrite app_nil_r. reflexivity.
  - destruct (mem _); [|discriminate].
    replace (Z.of_nat i0 + 1) with (Z.of_nat (S i0)) in H by lia.
    apply IH in H. rewrite H, <- app_assoc. reflexivity.
Qed.

Lemma allocated_lines (a : Z) (l : list nat) :
  allocated (map (fun j => EvAllocLines (Z.of_nat j) a) l)
  = map (fun j => Some (Z.of_nat j)) l /\
  freed (map (fun j => EvAllocLines (Z.of_nat j) a) l) = [].
Proof.
  induction l as [|j l [IH1 IH2]]; [split; reflexivity|].
  cbn [map allocated freed]. rewrite IH1, IH2. split; reflexivity.
Qed.

Lemma freed_lines (l : list nat) :
  freed (map (fun j => EvFreeLines (Z.of_nat j)) l)
  = map (fun j => Some (Z.of_nat j)) l.
Proof.
  induction l as [|j l IH]; [reflexivity|].
  cbn [map freed]. rewrite IH. reflexivity.
Qed.

(** When [init_cache] returns, it has requested the array of sets and the
    lines of each set once and released nothing; [cleanup_memory] then
    releases exactly these blocks, each once. *)
Theorem cleanup_releases_what_init_allocated (mem : nat -> bool)
    (c0 c : cache_config_t) (tr : list event) (store : list cache_set_t) :
  init_cache mem c0 = (tr, Done (c, store)) ->
  freed tr = [] /\
  NoDup (allocated tr) /\
  allocated tr ≡ₚ freed (cleanup_memory c (Some store)) /\
  allocated (cleanup_memory c (Some store)) = [].
Proof.
  intros H. unfold init_cache in H.
  destruct (derive_geometry c0) as [c1| | |] eqn:Hd; try discriminate.
  destruct (mem O); [|discriminate].
  destruct (alloc_lines _ _ _ _ _ _) as [tr1 [store1| | |]] eqn:Hal;
    try discriminate.
  change 0 with (Z.of_nat 0) in Hal. apply alloc_lines_done_trace in Hal.
  destruct (check_config c1) as [tr3 u] eqn:Hc.
  assert (Htr3 : tr3 = [] \/ exists m, u = Fatal m).
  { unfold check_config in Hc. destruct (_ || _); injection Hc as <- <-; eauto. }
  destruct u as [[]| | |]; try discriminate.
  destruct Htr3 as [->|[m Hm]]; [|discriminate].
  injection H as <- <- <-.
  set (n := Z.to_nat (u32 (set_num c1))) in *.
  set (ids := map (fun j => Some (Z.of_nat j)) (seq 0 n)).
  destruct (allocated_lines (associativity c1) (seq 0 n)) as [Ha Hf].
  assert (Hids : allocated (cleanup_memory c1 (Some store1)) = [] /\
                 freed (cleanup_memory c1 (Some store1)) = ids ++ [None]).
  { unfold cleanup_memory. fold n.
    rewrite freed_app, freed_lines, allocated_app. fold ids. cbn [freed allocated].
    rewrite app_nil_r. split; [|reflexivity].
    clear. induction (seq 0 n) as [|j l IH]; [reflexivity|].
    cbn [map allocated]. exact IH. }
  destruct Hids as [-> ->].
  assert (Hnd : NoDup (None :: ids)).
  { unfold ids.
    change (map (fun j => Some (Z.of_nat j)) (seq 0 n))
      with ((fun j => Some (Z.of_nat j)) <$> seq 0 n).
    constructor.
    - intros Hin. apply list_elem_of_fmap in Hin as (j & Hj & _). discriminate.
    - apply NoDup_fmap_2; [|apply NoDup_seq].
      intros x y E. injection E as E. lia. }
  subst tr1.
  destruct (policy c1);
    rewrite ?allocated_app, ?freed_app; cbn [app allocated freed];
    rewrite ?allocated_app, ?freed_app, Ha, Hf; cbn [app allocated freed];
    rewrite ?app_nil_r; fold ids;
    (split; [reflexivity|]); (split; [exact Hnd|]);
    (split; [apply Permutation_cons_append|reflexivity]).
Qed.

Lemma cleanup_releases_what_init_allocated_witness :
  init_cache all_ok (parsed_config 8 4 2 POLICY_FIFO) =
    ([EvAllocSets 1; EvAllocLines 0 2; EvReport],
     Done (cfg_fifo2, [mk_set [mk_line 0 0; mk_line 0 0] 0 0])) /\
  freed [EvAllocSets 1; EvAllocLines 0 2; EvReport] = [] /\
  NoDup (allocated [EvAllocSets 1; EvAllocLines 0 2; EvReport]) /\
  allocated [EvAllocSets 1; EvAllocLines 0 2; EvReport]
    ≡ₚ freed (cleanup_memory cfg_fifo2
                (Some [mk_set [mk_line 0 0; mk_line 0 0] 0 0])) /\
  allocated (cleanup_memory cfg_fifo2
               (Some [mk_set [mk_line 0 0; mk_line 0 0] 0 0])) = [].
Proof.
  split; [reflexivity|].
  exact (cleanup_releases_what_init_allocated all_ok
           (parsed_config 8 4 2 POLICY_FIFO) cfg_fifo2 _ _ eq_refl).
Defined.
